(** * Device Output Switcher: cookie proxy, messaging channel and domain whitelist

    A shallow embedding of the extension's background service worker
    (the cookie access proxy), of [cookie-manager.js] (the page-side
    client of the proxy) and of [storage-manager.js] (domain
    normalisation, subdomain matching and the persisted whitelist).

    Modelling conventions.
    - A JavaScript string is a [list ascii]: a sequence of code units
      restricted to the Latin-1 range, on which [toLowerCase] and [trim]
      are written out exactly.
    - An [async] function is a program tree ([Proc]) over the calls it
      makes to the host ([chrome.*]); the host answers each call, so
      every theorem holds for whatever the browser answers.
    - A JavaScript exception or a rejected promise is the [Throw] case of
      [Result]. *)

From Stdlib Require Import List String Ascii Bool Arith ZArith Lia DecimalString.
Import ListNotations.
Local Open Scope list_scope.

(* ================================================================== *)
(** ** JavaScript values and string primitives *)
(* ================================================================== *)

Module JS.

(** A string of Latin-1 code units. *)
Abbreviation jsstring := (list ascii).

(** A string literal. *)
Definition lit (s : string) : jsstring := list_ascii_of_string s.

(** Outcome of evaluating an expression or awaiting a promise:
    a value, or a thrown [Error] with its [message]. *)
Inductive Result (A : Type) : Type :=
| Ok (a : A)
| Throw (message : jsstring).
Arguments Ok {A} a.
Arguments Throw {A} message.

Definition code (c : ascii) : nat := nat_of_ascii c.

Definition eqs (a b : jsstring) : bool :=
  if list_eq_dec ascii_dec a b then true else false.

(** The 256 code units. *)
Definition all_ascii : list ascii := map ascii_of_nat (seq 0 256).

(** [c] lies in the range [lo-hi] of code units. *)
Definition in_range (lo hi c : ascii) : bool :=
  (code lo <=? code c) && (code c <=? code hi).

(** [String.prototype.toLowerCase] on one Latin-1 code unit:
    [A-Z] and U+00C0-U+00DE (but the multiplication sign U+00D7)
    move up by 32, every other code unit is kept. *)
Definition lower_char (c : ascii) : ascii :=
  let n := code c in
  if ((65 <=? n) && (n <=? 90))
     || ((192 <=? n) && (n <=? 222) && negb (n =? 215))
  then ascii_of_nat (n + 32) else c.

Definition toLowerCase (s : jsstring) : jsstring := map lower_char s.

(** White space and line terminators of ECMAScript below U+0100:
    TAB, LF, VT, FF, CR, SP, NBSP. *)
Definition is_space (c : ascii) : bool :=
  let n := code c in
  ((9 <=? n) && (n <=? 13)) || (n =? 32) || (n =? 160).

Fixpoint trimStart (s : jsstring) : jsstring :=
  match s with
  | c :: t => if is_space c then trimStart t else s
  | [] => []
  end.

Definition trimEnd (s : jsstring) : jsstring := rev (trimStart (rev s)).

(** [String.prototype.trim]. *)
Definition trim (s : jsstring) : jsstring := trimEnd (trimStart s).

(** [p] is a prefix of [s], and what follows it. *)
Fixpoint strip_prefix (p s : jsstring) : option jsstring :=
  match p, s with
  | [], _ => Some s
  | a :: p', b :: s' =>
      if ascii_dec a b then strip_prefix p' s' else None
  | _ :: _, [] => None
  end.

Definition startsWith (s p : jsstring) : bool :=
  match strip_prefix p s with Some _ => true | None => false end.

(** [s.split(sep)] for a one-character separator: the pieces between
    the separators; the empty string gives one empty piece. *)
Fixpoint split (sep : ascii) (s : jsstring) : list jsstring :=
  match s with
  | [] => [[]]
  | c :: t =>
      if ascii_dec c sep then [] :: split sep t
      else match split sep t with
           | p :: ps => (c :: p) :: ps
           | [] => [[c]]
           end
  end.

(** [parts.join(sep)]. *)
Fixpoint join (sep : jsstring) (parts : list jsstring) : jsstring :=
  match parts with
  | [] => []
  | [p] => p
  | p :: ps => p ++ sep ++ join sep ps
  end.

(** [arr.slice(start)]: a negative [start] counts from the end, and
    the start is clamped to the array. *)
Definition slice {A : Type} (start : Z) (arr : list A) : list A :=
  let len := Z.of_nat (List.length arr) in
  let k := if (start <? 0)%Z then Z.max (len + start) 0
           else Z.min start len in
  skipn (Z.to_nat k) arr.

(** [arr.includes(x)] on strings. *)
Definition includes (arr : list jsstring) (x : jsstring) : bool :=
  existsb (eqs x) arr.

(** [arr.find(pred)]. *)
Definition find {A : Type} (pred : A -> bool) (arr : list A) : option A :=
  List.find pred arr.

End JS.

(* ================================================================== *)
(** ** Regular expressions, as far as the sources use them *)
(* ================================================================== *)

Module Regex.
Import JS.

(** A member of a character class: a range [a-z] or one character. *)
Inductive item : Type :=
| Range (lo hi : ascii)
| One (c : ascii).

(** Patterns.  [Void] and [Eps] only arise while matching. *)
Inductive re : Type :=
| Void
| Eps
| Class (items : list item)
| Seq (a b : re)
| Alt (a b : re)
| Star (a : re)
| Rep (a : re) (lo hi : nat).

(** [\c], [a?], [a+] and [a{lo,hi}] of the pattern syntax. *)
Definition Lit (c : ascii) : re := Class [One c].
Definition Opt (a : re) : re := Rep a 0 1.
Definition Plus (a : re) : re := Seq a (Star a).

(** [Canonicalize] of the specification of [RegExp] without the [u]
    flag, on a Latin-1 code unit and as a code point: the upper-case
    mapping when it is one code unit and does not move a non-ASCII
    character into ASCII.  The sharp s (its upper case is two units)
    stays; y-diaeresis and the micro sign leave Latin-1. *)
Definition canonicalize (ignoreCase : bool) (c : ascii) : nat :=
  let n := code c in
  if negb ignoreCase then n
  else if (97 <=? n) && (n <=? 122) then n - 32
  else if (224 <=? n) && (n <=? 254) && negb (n =? 247) then n - 32
  else if n =? 255 then 376
  else if n =? 181 then 924
  else n.

(** The characters an item stands for. *)
Definition item_members (it : item) : list ascii :=
  match it with
  | Range lo hi =>
      map ascii_of_nat (seq (code lo) (S (code hi) - code lo))
  | One c => [c]
  end.

(** A character is in a class when its canonical form is that of a
    member of the class. *)
Definition class_mem (ignoreCase : bool) (items : list item) (c : ascii)
  : bool :=
  existsb
    (fun it =>
       existsb (fun a => canonicalize ignoreCase a =? canonicalize ignoreCase c)
               (item_members it))
    items.

Section Matching.
Variable ignoreCase : bool.

(** The strings a pattern matches in full. *)
Fixpoint lang (r : re) (s : jsstring) {struct r} : Prop :=
  match r with
  | Void => False
  | Eps => s = []
  | Class items => exists c, s = [c] /\ class_mem ignoreCase items c = true
  | Seq a b => exists s1 s2, s = s1 ++ s2 /\ lang a s1 /\ lang b s2
  | Alt a b => lang a s \/ lang b s
  | Star a => exists ss, s = List.concat ss /\ Forall (lang a) ss
  | Rep a lo hi =>
      exists ss, s = List.concat ss /\ lo <= List.length ss <= hi
                 /\ Forall (lang a) ss
  end.

Fixpoint nullable (r : re) : bool :=
  match r with
  | Void => false
  | Eps => true
  | Class _ => false
  | Seq a b => nullable a && nullable b
  | Alt a b => nullable a || nullable b
  | Star _ => true
  | Rep a lo hi => (lo <=? hi) && ((lo =? 0) || nullable a)
  end.

Definition mkSeq (a b : re) : re :=
  match a with
  | Void => Void
  | Eps => b
  | _ => Seq a b
  end.

Definition mkAlt (a b : re) : re :=
  match a, b with
  | Void, _ => b
  | _, Void => a
  | _, _ => Alt a b
  end.

(** What is left of a pattern after it has read [c]. *)
Fixpoint deriv (c : ascii) (r : re) : re :=
  match r with
  | Void => Void
  | Eps => Void
  | Class items => if class_mem ignoreCase items c then Eps else Void
  | Seq a b =>
      mkAlt (mkSeq (deriv c a) b)
            (if nullable a then deriv c b else Void)
  | Alt a b => mkAlt (deriv c a) (deriv c b)
  | Star a => mkSeq (deriv c a) (Star a)
  | Rep a lo hi =>
      match hi with
      | 0 => Void
      | S hi' => mkSeq (deriv c a) (Rep a (pred lo) hi')
      end
  end.

(** [/^r$/.test(s)]. *)
Fixpoint test (r : re) (s : jsstring) : bool :=
  match s with
  | [] => nullable r
  | c :: t => test (deriv c r) t
  end.

End Matching.

End Regex.

(* ================================================================== *)
(** ** storage-manager.js: the pure part *)
(* ================================================================== *)

Module Domain.
Import JS Regex.

Definition dquote : jsstring := ["034"%char].

(** [.replace(/^https?:\/\//, '')]: the pattern is anchored at the
    start, so it removes a leading [https://] or [http://]. *)
Definition strip_scheme (s : jsstring) : jsstring :=
  match strip_prefix (lit "http") s with
  | Some r =>
      match strip_prefix (lit "s://") r with
      | Some r' => r'
      | None =>
          match strip_prefix (lit "://") r with
          | Some r' => r'
          | None => s
          end
      end
  | None => s
  end.

(** [.replace(/^www\./, '')]. *)
Definition strip_www (s : jsstring) : jsstring :=
  match strip_prefix (lit "www.") s with
  | Some r => r
  | None => s
  end.

(** [.replace(/\/$/, '')]: without the [m] flag [$] is the end of the
    input, so only a final slash is removed. *)
Fixpoint strip_trailing_slash (s : jsstring) : jsstring :=
  match s with
  | [] => []
  | [c] => if ascii_dec c "/" then [] else [c]
  | c :: t => c :: strip_trailing_slash t
  end.

(** The chain of string operations at the head of [normalizeDomain]. *)
Definition canonical (domain : jsstring) : jsstring :=
  trim (strip_trailing_slash (strip_www (strip_scheme (toLowerCase domain)))).

Definition alnum : re := Class [Range "a" "z"; Range "0" "9"].
Definition alnum_hyphen : re := Class [Range "a" "z"; Range "0" "9"; One "-"].

(** [/^[a-z0-9-]+$/] *)
Definition singleLabelPattern : re := Plus alnum_hyphen.

(** [[a-z0-9](?:[a-z0-9-]{0,61}[a-z0-9])?] *)
Definition any_label : re :=
  Seq alnum (Opt (Seq (Rep alnum_hyphen 0 61) alnum)).

(** [[a-z0-9][a-z0-9-]{0,61}[a-z0-9]] *)
Definition long_label : re := Seq alnum (Seq (Rep alnum_hyphen 0 61) alnum).

(** [/^(?:[a-z0-9](?:[a-z0-9-]{0,61}[a-z0-9])?\.)+[a-z0-9][a-z0-9-]{0,61}[a-z0-9]$/i] *)
Definition domainPattern : re :=
  Seq (Plus (Seq any_label (Lit "."))) long_label.

Definition invalidDomainMessage (domain : jsstring) : jsstring :=
  lit "Invalid domain format: " ++ dquote ++ domain ++ dquote
  ++ lit ". Please enter a valid domain (e.g., example.com)".

Definition normalizeDomain (domain : jsstring) : Result jsstring :=
  let normalized := canonical domain in
  if eqs normalized (lit "localhost")
     || test false singleLabelPattern normalized
  then Ok normalized
  else if negb (test true domainPattern normalized)
  then Throw (invalidDomainMessage domain)
  else Ok normalized.

Definition isSubdomain (subdomain domain : jsstring) : bool :=
  let subParts := split "." subdomain in
  let domParts := split "." domain in
  if List.length subParts <=? List.length domParts then false
  else
    let subSuffix :=
      join (lit ".") (slice (- Z.of_nat (List.length domParts)) subParts) in
    eqs subSuffix domain.

(** The callback of [whitelist.some] in [isCurrentDomainWhitelisted]. *)
Definition matchesEntry (currentDomain domain : jsstring) : bool :=
  if eqs currentDomain domain then true
  else if isSubdomain currentDomain domain then true
  else false.

Definition extractDomain (url : jsstring) : Result jsstring :=
  normalizeDomain url.

End Domain.

(* ================================================================== *)
(** ** Asynchronous programs over a host *)
(* ================================================================== *)

Module Async.
Import JS.

Section Proc.
Context {C : Type} {ans : C -> Type}.

(** An [async] function body: it finishes with a value, or makes a call
    [c] to the host and goes on with the host's answer. *)
Inductive Proc (R : Type) : Type :=
| Ret (r : R)
| Do (c : C) (k : ans c -> Proc R).
Arguments Ret {R} r.
Arguments Do {R} c k.

Fixpoint bind {A B : Type} (p : Proc A) (f : A -> Proc B) : Proc B :=
  match p with
  | Ret a => f a
  | Do c k => Do c (fun x => bind (k x) f)
  end.

(** [await p] followed by [f]: a rejection of [p] leaves the body. *)
Definition await {A B : Type} (p : Proc (Result A))
  (f : A -> Proc (Result B)) : Proc (Result B) :=
  bind p (fun r => match r with
                   | Ok a => f a
                   | Throw e => Ret (Throw e)
                   end).

(** [try { p } catch (error) { h error }]. *)
Definition try_catch {A : Type} (p : Proc (Result A))
  (h : jsstring -> Proc (Result A)) : Proc (Result A) :=
  bind p (fun r => match r with
                   | Ok a => Ret (Ok a)
                   | Throw e => h e
                   end).

(** One call whose answer is the awaited value. *)
Definition call (c : C) : Proc (ans c) := Do c (fun x => Ret x).

(** The calls a program makes, in order, against a host that answers
    from its state [W]; the value it ends with; the host afterwards. *)
Fixpoint run {W R : Type} (host : forall c : C, W -> ans c * W)
  (p : Proc R) (w : W) : R * W * list C :=
  match p with
  | Ret r => (r, w, [])
  | Do c k =>
      let (a, w1) := host c w in
      let '(r, w2, t) := run host (k a) w1 in
      (r, w2, c :: t)
  end.

Definition value {W R : Type} (x : R * W * list C) : R := fst (fst x).
Definition after {W R : Type} (x : R * W * list C) : W := snd (fst x).
Definition calls {W R : Type} (x : R * W * list C) : list C := snd x.

End Proc.

Arguments Proc C ans R : clear implicits.
Arguments Ret {C ans R} r.
Arguments Do {C ans R} c k.

End Async.

Declare Scope proc_scope.
Delimit Scope proc_scope with proc.
Notation "x <- p ;; q" := (Async.await p (fun x => q))
  (at level 61, p at next level, right associativity) : proc_scope.
Notation "p ;;; q" := (Async.await p (fun _ => q))
  (at level 61, right associativity) : proc_scope.

(* ================================================================== *)
(** ** storage-manager.js: the whitelist in [chrome.storage.local] *)
(* ================================================================== *)

Module StorageManager.
Import JS Async Domain.
Local Open Scope proc_scope.

(** The two calls to [chrome.storage.local], on the key
    [WHITELIST_KEY]. *)
Inductive StorageCall : Type :=
| StorageGet
| StorageSet (domains : list jsstring).

(** What the callback sees: [chrome.runtime.lastError] as a [Throw],
    else the entry under the key ([None]: no entry) or nothing. *)
Definition storage_ans (c : StorageCall) : Type :=
  match c with
  | StorageGet => Result (option (list jsstring))
  | StorageSet _ => Result unit
  end.

Definition SProc := Proc StorageCall storage_ans.

Definition getWhitelist : SProc (Result (list jsstring)) :=
  Do StorageGet (fun result =>
    match result with
    | Throw lastError => Ret (Throw lastError)
    | Ok entry =>
        Ret (Ok (match entry with Some l => l | None => [] end))
    end).

Definition saveWhitelist (domains : list jsstring) : SProc (Result unit) :=
  Do (StorageSet domains) (fun result =>
    match result with
    | Throw lastError => Ret (Throw lastError)
    | Ok tt => Ret (Ok tt)
    end).

Definition addDomainToWhitelist (domain : jsstring)
  : SProc (Result (list jsstring)) :=
  whitelist <- getWhitelist ;;
  match normalizeDomain domain with
  | Throw e => Ret (Throw e)
  | Ok normalizedDomain =>
      if negb (includes whitelist normalizedDomain) then
        let whitelist' := whitelist ++ [normalizedDomain] in
        saveWhitelist whitelist' ;;;
        Ret (Ok whitelist')
      else Ret (Ok whitelist)
  end.

Definition removeDomainFromWhitelist (domain : jsstring)
  : SProc (Result (list jsstring)) :=
  whitelist <- getWhitelist ;;
  match normalizeDomain domain with
  | Throw e => Ret (Throw e)
  | Ok normalizedDomain =>
      let updated := filter (fun d => negb (eqs d normalizedDomain)) whitelist in
      saveWhitelist updated ;;;
      Ret (Ok updated)
  end.

(** [hostname] is [window.location.hostname]. *)
Definition isCurrentDomainWhitelisted (hostname : jsstring)
  : SProc (Result bool) :=
  whitelist <- getWhitelist ;;
  if List.length whitelist =? 0 then Ret (Ok true)
  else
    match normalizeDomain hostname with
    | Throw e => Ret (Throw e)
    | Ok currentDomain =>
        Ret (Ok (existsb (matchesEntry currentDomain) whitelist))
    end.

(** [chrome.storage.local] as the extension sees it: the entry under
    the key, and for each coming call whether it fails ([Some] is the
    message of [lastError]); a failing call changes nothing. *)
Record Storage : Type := mkStorage {
  entry : option (list jsstring);
  faults : list (option jsstring)
}.

Definition storage_host (c : StorageCall) (w : Storage)
  : storage_ans c * Storage :=
  match faults w with
  | Some lastError :: rest =>
      (match c return storage_ans c with
       | StorageGet => Throw lastError
       | StorageSet _ => Throw lastError
       end, mkStorage (entry w) rest)
  | other =>
      let rest := tl other in
      match c return storage_ans c * Storage with
      | StorageGet => (Ok (entry w), mkStorage (entry w) rest)
      | StorageSet domains => (Ok tt, mkStorage (Some domains) rest)
      end
  end.

(** The storage answers the next call. *)
Definition readable (w : Storage) : Prop := hd None (faults w) = None.

(** The list the extension reads back. *)
Definition whitelist_of (w : Storage) : list jsstring :=
  match entry w with Some l => l | None => [] end.

(** One use of the whitelist store by the settings panel. *)
Inductive WhitelistOp : Type :=
| Add (domain : jsstring)
| Remove (domain : jsstring).

Definition perform (op : WhitelistOp) (w : Storage) : Storage :=
  match op with
  | Add d => after (run storage_host (addDomainToWhitelist d) w)
  | Remove d => after (run storage_host (removeDomainFromWhitelist d) w)
  end.

(** The stores the extension can bring about, from a fresh profile and
    whatever the faults. *)
Inductive reachable : Storage -> Prop :=
| reach_fresh fs : reachable (mkStorage None fs)
| reach_faults w fs : reachable w -> reachable (mkStorage (entry w) fs)
| reach_op w op : reachable w -> reachable (perform op w).

End StorageManager.

(* ================================================================== *)
(** ** The messages between the page and the service worker *)
(* ================================================================== *)

Module Protocol.
Import JS.

Definition GET_COOKIE : jsstring := lit "GET_COOKIE".
Definition SET_COOKIE : jsstring := lit "SET_COOKIE".
Definition GET_ALL_COOKIES : jsstring := lit "GET_ALL_COOKIES".

(** A cookie as [chrome.cookies] reports it. *)
Record Cookie : Type := mkCookie {
  cookie_name : jsstring;
  cookie_value : jsstring;
  cookie_domain : jsstring;
  cookie_path : jsstring;
  cookie_secure : bool;
  cookie_sameSite : jsstring
}.

(** A request of the page: [{type, url, name, value}]; a field the
    request type does not use is not read. *)
Record Request : Type := mkRequest {
  req_type : jsstring;
  req_url : jsstring;
  req_name : jsstring;
  req_value : jsstring
}.

(** A response of the service worker: [{success, error, cookie, result,
    cookies}], a field left out being [None]; [cookie] and [result]
    are also [None] when they are [null]. *)
Record Response : Type := mkResponse {
  success : bool;
  error : option jsstring;
  cookie : option Cookie;
  result : option Cookie;
  cookies : option (list Cookie)
}.

(** [{ success: false, error }] *)
Definition failure (e : jsstring) : Response :=
  mkResponse false (Some e) None None None.

End Protocol.

(* ================================================================== *)
(** ** The background service worker: the cookie access proxy *)
(* ================================================================== *)

Module Background.
Import JS Async Protocol.
Local Open Scope proc_scope.

(** What the worker reads of a parsed [URL]. *)
Record URL : Type := mkURL {
  origin : jsstring;
  hostname : jsstring;
  protocol : jsstring
}.

(** [new URL(s)] of the host: [None] when it throws.  Without a base
    the empty string is not a URL. *)
Record URLApi : Type := mkURLApi {
  parse : jsstring -> option URL;
  parse_empty : parse [] = None
}.

Record Tab : Type := mkTab {
  tab_id : nat;
  tab_url : option jsstring
}.

(** The [sender] the runtime hands to the listener. *)
Record Sender : Type := mkSender {
  sender_tab : option Tab
}.

(** The argument of [chrome.cookies.set]. *)
Record SetDetails : Type := mkSetDetails {
  set_url : jsstring;
  set_name : jsstring;
  set_value : jsstring;
  set_domain : jsstring;
  set_path : jsstring;
  set_secure : bool;
  set_sameSite : jsstring
}.

(** The calls of the worker to [chrome.cookies] and [chrome.tabs];
    [TabsSendMessage id url] sends [{type: 'COOKIE_CHANGED', url}]. *)
Inductive Call : Type :=
| CookiesGet (url name : jsstring)
| CookiesRemove (url name : jsstring)
| CookiesSet (details : SetDetails)
| CookiesGetAll (url : jsstring)
| TabsQuery
| TabsSendMessage (tabId : nat) (url : jsstring).

(** The promise each call returns. *)
Definition answer (c : Call) : Type :=
  match c with
  | CookiesGet _ _ => Result (option Cookie)
  | CookiesRemove _ _ => Result unit
  | CookiesSet _ => Result (option Cookie)
  | CookiesGetAll _ => Result (list Cookie)
  | TabsQuery => Result (list Tab)
  | TabsSendMessage _ _ => Result unit
  end.

Definition is_cookie_call (c : Call) : bool :=
  match c with
  | CookiesGet _ _ | CookiesRemove _ _ | CookiesSet _ | CookiesGetAll _ => true
  | TabsQuery | TabsSendMessage _ _ => false
  end.

Definition BProc := Proc Call answer.

Section Worker.
Variable api : URLApi.

Definition getCookie (url name : jsstring) : BProc (Result (option Cookie)) :=
  call (CookiesGet url name).

Definition setCookie (url name value : jsstring)
  : BProc (Result (option Cookie)) :=
  match parse api url with
  | None => Ret (Throw (lit "Invalid URL"))
  | Some urlObj =>
      (* try { await chrome.cookies.remove(...) } catch (e) { } *)
      Do (CookiesRemove url name) (fun _ =>
      call (CookiesSet
              {| set_url := url;
                 set_name := name;
                 set_value := value;
                 set_domain := hostname urlObj;
                 set_path := lit "/";
                 set_secure := eqs (protocol urlObj) (lit "https:");
                 set_sameSite := lit "lax" |}))
  end.

Definition getAllCookies (url : jsstring) : BProc (Result (list Cookie)) :=
  call (CookiesGetAll url).

(** The filter on the open tabs in [notifyTabsOfChange]. *)
Definition same_origin_tab (urlObj : URL) (tab : Tab) : bool :=
  match tab_url tab with
  | None => false
  | Some [] => false
  | Some u =>
      match parse api u with
      | Some tabUrl => eqs (origin tabUrl) (origin urlObj)
      | None => false
      end
  end.

(** The notifications, each with its own [.catch(() => {})]. *)
Fixpoint sendAll (url : jsstring) (tabs : list Tab) : BProc unit :=
  match tabs with
  | [] => Ret tt
  | tab :: rest =>
      Do (TabsSendMessage (tab_id tab) url) (fun _ => sendAll url rest)
  end.

(** Every failure inside is caught and logged. *)
Definition notifyTabsOfChange (url : jsstring) : BProc unit :=
  match parse api url with
  | None => Ret tt
  | Some urlObj =>
      Do TabsQuery (fun r =>
        match r with
        | Throw _ => Ret tt
        | Ok tabs => sendAll url (filter (same_origin_tab urlObj) tabs)
        end)
  end.

(** The [switch] on [request.type]. *)
Definition dispatch (request : Request) : BProc (Result Response) :=
  if eqs (req_type request) GET_COOKIE then
    cookie <- getCookie (req_url request) (req_name request) ;;
    Ret (Ok (mkResponse true None cookie None None))
  else if eqs (req_type request) SET_COOKIE then
    result <- setCookie (req_url request) (req_name request)
                        (req_value request) ;;
    bind (notifyTabsOfChange (req_url request)) (fun _ =>
    Ret (Ok (mkResponse true None None result None)))
  else if eqs (req_type request) GET_ALL_COOKIES then
    cookies <- getAllCookies (req_url request) ;;
    Ret (Ok (mkResponse true None None None (Some cookies)))
  else
    Ret (Ok (failure (lit "Unknown message type"))).

(** The listener of [chrome.runtime.onMessage]; its value is the
    argument of [sendResponse]. *)
Definition onMessage (request : Request) (sender : Sender) : BProc Response :=
  match sender_tab sender with
  | None => Ret (failure (lit "Invalid sender"))
  | Some tab =>
      match tab_url tab with
      | None => Ret (failure (lit "Invalid sender"))
      | Some [] => Ret (failure (lit "Invalid sender"))
      | Some senderHref =>
          match parse api senderHref, parse api (req_url request) with
          | Some senderUrl, Some requestUrl =>
              if negb (eqs (origin senderUrl) (origin requestUrl)) then
                Ret (failure (lit "Origin mismatch"))
              else
                bind (dispatch request) (fun r =>
                  match r with
                  | Ok response => Ret response
                  | Throw message => Ret (failure message)
                  end)
          | _, _ => Ret (failure (lit "Invalid URL format"))
          end
      end
  end.

(** The requester passes the validation protocol. *)
Definition validated (request : Request) (sender : Sender) : Prop :=
  exists tab senderHref senderUrl requestUrl,
    sender_tab sender = Some tab
    /\ tab_url tab = Some senderHref
    /\ parse api senderHref = Some senderUrl
    /\ parse api (req_url request) = Some requestUrl
    /\ origin senderUrl = origin requestUrl.

End Worker.

(** The request type is none of the three the proxy serves. *)
Definition unknown_type (request : Request) : Prop :=
  req_type request <> GET_COOKIE
  /\ req_type request <> SET_COOKIE
  /\ req_type request <> GET_ALL_COOKIES.

(** A browser for concrete runs: the cookie jar is a list, newest
    first; [remove] and [set] drop the cookies of that name; the open
    tabs are fixed; the calls whose number is in [failing] reject. *)
Record Browser : Type := mkBrowser {
  jar : list Cookie;
  tabs : list Tab;
  clock : nat;
  failing : list nat
}.

Definition named (name : jsstring) (c : Cookie) : bool :=
  eqs (cookie_name c) name.

Definition browser_host (c : Call) (w : Browser) : answer c * Browser :=
  let rejected := existsb (Nat.eqb (clock w)) (failing w) in
  let tick j := mkBrowser j (tabs w) (S (clock w)) (failing w) in
  let no := lit "rejected" in
  match c return answer c * Browser with
  | CookiesGet _ name =>
      (if rejected then Throw no else Ok (find (named name) (jar w)),
       tick (jar w))
  | CookiesRemove _ name =>
      if rejected then (Throw no, tick (jar w))
      else (Ok tt, tick (filter (fun k => negb (named name k)) (jar w)))
  | CookiesSet d =>
      if rejected then (Throw no, tick (jar w))
      else
        let k := mkCookie (set_name d) (set_value d) (set_domain d)
                          (set_path d) (set_secure d) (set_sameSite d) in
        (Ok (Some k),
         tick (k :: filter (fun k' => negb (named (set_name d) k')) (jar w)))
  | CookiesGetAll _ =>
      (if rejected then Throw no else Ok (jar w), tick (jar w))
  | TabsQuery =>
      (if rejected then Throw no else Ok (tabs w), tick (jar w))
  | TabsSendMessage _ _ =>
      (if rejected then Throw no else Ok tt, tick (jar w))
  end.

(** A stand-in for [new URL] in concrete runs, not the parser of the
    browser: it reads [http://host/...] and [https://host/...] with a
    lower-case scheme and a host written as the browser would print
    it, keeps a port as part of the host, and refuses every other
    string.  The general statements are over any [URLApi]. *)
Definition demo_parse_with (scheme rest : jsstring) : option URL :=
  match split "/" rest with
  | host :: _ =>
      if eqs host [] then None
      else Some (mkURL (scheme ++ lit "://" ++ host) host (scheme ++ lit ":"))
  | [] => None
  end.

Definition demo_parse (s : jsstring) : option URL :=
  match strip_prefix (lit "https://") s with
  | Some rest => demo_parse_with (lit "https") rest
  | None =>
      match strip_prefix (lit "http://") s with
      | Some rest => demo_parse_with (lit "http") rest
      | None => None
      end
  end.

Definition demo_api : URLApi := mkURLApi demo_parse eq_refl.

(** Requests and senders for concrete runs. *)
Definition ping : Request :=
  mkRequest (lit "PING") (lit "https://a.example/") [] [].

Definition set_at_bank : Request :=
  mkRequest SET_COOKIE (lit "https://bank.example/")
            (lit "deviceoutput") (lit "mobile").

Definition from_href (href : jsstring) : Sender :=
  mkSender (Some (mkTab 1 (Some href))).

End Background.

(* ================================================================== *)
(** ** cookie-manager.js: the page side *)
(* ================================================================== *)

Module CookieManager.
Import JS Async Protocol.
Local Open Scope proc_scope.

Definition DEVICE_TYPES : list jsstring :=
  [lit "desktop"; lit "mobile"; lit "app"].

Definition MESSAGE_TIMEOUT_MS : nat := 5000.

(** The one call of the page to the runtime:
    [chrome.runtime.sendMessage(message, callback)] raced against a
    timer of [timeout] milliseconds. *)
Inductive ChannelCall : Type :=
| SendMessage (message : Request) (timeout : nat).

(** How the race ends: the timer fires first, or the callback runs
    first with [chrome.runtime.lastError] and the response it is
    given ([None]: [undefined]). *)
Inductive Delivery : Type :=
| TimedOut
| Callback (lastError : option jsstring) (response : option Response).

Definition channel_ans (c : ChannelCall) : Type := Delivery.

Definition CProc := Proc ChannelCall channel_ans.

(** A number in a template literal. *)
Definition decimal (n : nat) : jsstring :=
  lit (NilEmpty.string_of_uint (Nat.to_uint n)).

(** [a || b] on values that are a string or [undefined]/[null]. *)
Definition or_else (a b : option jsstring) : option jsstring :=
  match a with
  | Some (_ :: _) => a
  | _ => b
  end.

(** How the promise of [sendMessageToBackground] settles: the body of
    the timer and of the callback. *)
Definition settle (message : Request) (timeout : nat) (d : Delivery)
  : Result Response :=
  match d with
  | TimedOut =>
      Throw (lit "Timeout waiting for response to " ++ req_type message
             ++ lit " after " ++ decimal timeout ++ lit "ms")
  | Callback (Some lastError) _ =>
      Throw (lit "Chrome runtime error: " ++ lastError)
  | Callback None None =>
      Throw (lit "No response received from background script")
  | Callback None (Some response) =>
      if success response then Ok response
      else
        Throw
          match or_else (error response)
                  (Some (lit "Operation " ++ req_type message
                         ++ lit " failed")) with
          | Some m => m
          | None => []
          end
  end.

Definition sendMessageToBackground (message : Request) (timeout : nat)
  : CProc (Result Response) :=
  Do (SendMessage message timeout) (fun d : Delivery =>
    Ret (settle message timeout d)).

Definition named (name : jsstring) (c : Cookie) : bool :=
  eqs (cookie_name c) name.

(** [cookie?.value] *)
Definition value_of (c : option Cookie) : option jsstring :=
  option_map cookie_value c.

(** [Object.values(DEVICE_TYPES).includes(v)], [v] a string or [null]. *)
Definition known_device (v : option jsstring) : bool :=
  match v with
  | Some s => includes DEVICE_TYPES s
  | None => false
  end.

(** [url] is [window.location.href]. *)
Definition getCurrentDevice (url : jsstring)
  : CProc (Result (option jsstring)) :=
  try_catch
    (response <- sendMessageToBackground
                   (mkRequest GET_ALL_COOKIES url [] []) MESSAGE_TIMEOUT_MS ;;
     match cookies response with
     | Some cs =>
         let deviceOutputCookie := find (named (lit "deviceoutput")) cs in
         let deviceTypeCookie := find (named (lit "devicetype")) cs in
         let deviceValue :=
           or_else (or_else (value_of deviceOutputCookie)
                            (value_of deviceTypeCookie)) None in
         if known_device deviceValue then Ret (Ok deviceValue)
         else Ret (Ok None)
     | None => Ret (Ok None)
     end)
    (fun _ => Ret (Ok None)).

Definition setDeviceType (url deviceType : jsstring) : CProc (Result bool) :=
  if negb (includes DEVICE_TYPES deviceType) then
    Ret (Throw (lit "Invalid device type: " ++ deviceType))
  else
    try_catch
      (sendMessageToBackground
         (mkRequest SET_COOKIE url (lit "deviceoutput") deviceType)
         MESSAGE_TIMEOUT_MS ;;;
       sendMessageToBackground
         (mkRequest SET_COOKIE url (lit "devicetype") deviceType)
         MESSAGE_TIMEOUT_MS ;;;
       Ret (Ok true))
      (fun e => Ret (Throw e)).

Definition getCookie (url name : jsstring)
  : CProc (Result (option jsstring)) :=
  try_catch
    (response <- sendMessageToBackground
                   (mkRequest GET_COOKIE url name []) MESSAGE_TIMEOUT_MS ;;
     Ret (Ok (or_else (value_of (cookie response)) None)))
    (fun _ => Ret (Ok None)).

(** A request failed at the channel or was refused by the proxy. *)
Definition delivery_failed (d : Delivery) : Prop :=
  match d with
  | TimedOut => True
  | Callback (Some _) _ => True
  | Callback None None => True
  | Callback None (Some response) => success response = false
  end.

(** The proxy answered in time, with success. *)
Definition delivered (d : Delivery) : Prop :=
  exists response, d = Callback None (Some response)
                   /\ success response = true.

(** The two messages of [setDeviceType]. *)
Definition set_message (url name deviceType : jsstring) : ChannelCall :=
  SendMessage (mkRequest SET_COOKIE url name deviceType) MESSAGE_TIMEOUT_MS.

(** A response that lists cookies, and one that carries a cookie. *)
Definition cookies_response (cs : list Cookie) : Response :=
  mkResponse true None None None (Some cs).

Definition cookie_response (c : option Cookie) : Response :=
  mkResponse true None c None None.

Definition plain_cookie (name value : jsstring) : Cookie :=
  mkCookie name value (lit "example.com") (lit "/") true (lit "lax").

(** A channel whose answers are given beforehand, one per message; it
    times out when they are used up. *)
Definition scripted_channel (c : ChannelCall) (w : list Delivery)
  : channel_ans c * list Delivery :=
  match w with
  | d :: rest => (d, rest)
  | [] => (TimedOut, [])
  end.

End CookieManager.

(* ================================================================== *)
(** ** The page and the worker together *)
(* ================================================================== *)

Module EndToEnd.
Import JS Async Protocol.

Section Wiring.
Variable api : Background.URLApi.
Variable W : Type.
Variable chrome : forall c : Background.Call, W -> Background.answer c * W.
(** The tab the content script runs in. *)
Variable sender : Background.Sender.

(** The browser together with the calls the worker has made so far. *)
Definition World : Type := W * list Background.Call.

(** A channel that delivers every message of the page to the worker
    in time and hands the worker's response back. *)
Definition direct_channel (c : CookieManager.ChannelCall) (w : World)
  : CookieManager.channel_ans c * World :=
  match c with
  | CookieManager.SendMessage message _ =>
      let x := run chrome (Background.onMessage api message sender) (fst w) in
      (CookieManager.Callback None (Some (value x)),
       (after x, snd w ++ calls x))
  end.

(** The two calls to the cookie store that write one device cookie
    for the page at [href], parsed as [u]. *)
Definition writes (href : jsstring) (u : Background.URL)
  (name deviceType : jsstring) : list Background.Call :=
  [Background.CookiesRemove href name;
   Background.CookiesSet
     {| Background.set_url := href;
        Background.set_name := name;
        Background.set_value := deviceType;
        Background.set_domain := Background.hostname u;
        Background.set_path := lit "/";
        Background.set_secure :=
          eqs (Background.protocol u) (lit "https:");
        Background.set_sameSite := lit "lax" |}].

(** The calls to the cookie store among the calls of the worker. *)
Definition cookie_calls (w : World) : list Background.Call :=
  filter Background.is_cookie_call (snd w).

End Wiring.

End EndToEnd.

(* ================================================================== *)
(** ** The vocabulary of the specification *)
(* ================================================================== *)

Module Spec.
Import JS.

(** The labels of a domain: its pieces between the dots. *)
Definition labels (d : jsstring) : list jsstring := split "." d.

(** The last [k] elements of a list. *)
Definition last_n {A : Type} (k : nat) (l : list A) : list A :=
  skipn (List.length l - k) l.

(** [c] has strictly more labels than [p], and its last labels, as
    many as [p] has, are the labels of [p]. *)
Definition label_suffix (c p : jsstring) : Prop :=
  List.length (labels p) < List.length (labels c)
  /\ last_n (List.length (labels p)) (labels c) = labels p.

Definition is_letter (c : ascii) : bool :=
  in_range "a" "z" c || in_range "A" "Z" c.
Definition is_digit (c : ascii) : bool := in_range "0" "9" c.
Definition is_alnum (c : ascii) : bool := is_letter c || is_digit c.
Definition is_hyphen (c : ascii) : bool :=
  if ascii_dec c "-" then true else false.
Definition is_upper (c : ascii) : bool := in_range "A" "Z" c.
Definition label_char (c : ascii) : bool := is_alnum c || is_hyphen c.

(** No upper-case ASCII letter. *)
Definition no_upper (s : jsstring) : Prop :=
  Forall (fun c => is_upper c = false) s.

(** Only letters, digits, hyphens and dots. *)
Definition host_chars (s : jsstring) : Prop :=
  Forall (fun c => label_char c = true \/ c = "."%char) s.

(** Labels, each followed by its dot. *)
Definition dotted (ls : list jsstring) : jsstring :=
  List.concat (map (fun l => l ++ ["."%char]) ls).

(** Letters, digits and hyphens only, and at least one of them. *)
Definition single_label (s : jsstring) : bool :=
  match s with
  | [] => false
  | _ => forallb label_char s
  end.

(** A label of [least] to 63 characters, alphanumeric with hyphens
    inside, neither first nor last. *)
Definition dns_label (least : nat) (l : jsstring) : bool :=
  (least <=? List.length l) && (List.length l <=? 63)
  && forallb label_char l
  && is_alnum (hd "-"%char l) && is_alnum (last l "-"%char).

(** A dotted hostname of several labels, each of 1 to 63 characters. *)
Definition dotted_hostname (s : jsstring) : bool :=
  (2 <=? List.length (labels s)) && forallb (dns_label 1) (labels s).

(** The same with a last label of at least two characters. *)
Definition dotted_hostname_long_tld (s : jsstring) : bool :=
  dotted_hostname s && (2 <=? List.length (last (labels s) [])).

(** The two shapes of a valid domain in the words of the data model. *)
Definition valid_shape (s : jsstring) : bool :=
  single_label s || dotted_hostname s.

(** The two shapes the validation accepts. *)
Definition accepted_shape (s : jsstring) : bool :=
  single_label s || dotted_hostname_long_tld s.

End Spec.

(* ================================================================== *)
(** ** Further vocabulary: characters and addresses *)
(* ================================================================== *)

Module Shapes.
Import JS Spec.

(** A lower-case letter, a digit, a hyphen or a dot. *)
Definition domain_char (c : ascii) : bool :=
  in_range "a" "z" c || in_range "0" "9" c || is_hyphen c
  || (if ascii_dec c "." then true else false).

(** One to three decimal digits. *)
Definition octet (s : jsstring) : Prop :=
  s <> [] /\ List.length s <= 3 /\ forallb is_digit s = true.

(** [a.b.c.d] *)
Definition dotted_quad (a b c d : jsstring) : jsstring :=
  a ++ "."%char :: b ++ "."%char :: c ++ "."%char :: d.

(** [c] ends with a dot followed by [p]. *)
Definition ends_with_dot (c p : jsstring) : Prop :=
  exists front, c = front ++ "."%char :: p.

End Shapes.

(* ================================================================== *)
(** ** Further vocabulary: the calls of the proxy *)
(* ================================================================== *)

Module ProxyShapes.
Import JS Protocol Background.

(** The URL a call to the cookie store is about. *)
Definition call_url (c : Call) : option jsstring :=
  match c with
  | CookiesGet url _ => Some url
  | CookiesRemove url _ => Some url
  | CookiesSet d => Some (set_url d)
  | CookiesGetAll url => Some url
  | TabsQuery => None
  | TabsSendMessage _ _ => None
  end.

(** A call that changes the cookie store. *)
Definition is_write (c : Call) : bool :=
  match c with
  | CookiesRemove _ _ | CookiesSet _ => true
  | _ => false
  end.

(** The three answers of the validation. *)
Definition validation_errors : list jsstring :=
  [lit "Invalid sender"; lit "Invalid URL format"; lit "Origin mismatch"].

(** The sender has no tab, or its tab has no URL or an empty one. *)
Definition no_sender_url (sender : Sender) : Prop :=
  match sender_tab sender with
  | None => True
  | Some tab =>
      match tab_url tab with
      | None => True
      | Some [] => True
      | Some (_ :: _) => False
      end
  end.

(** The response the listener makes of the outcome of the switch. *)
Definition respond (r : Result Response) : Response :=
  match r with
  | Ok response => response
  | Throw message => failure message
  end.

(** The details [setCookie] passes to [chrome.cookies.set]. *)
Definition details (request : Request) (u : URL) : SetDetails :=
  {| set_url := req_url request;
     set_name := req_name request;
     set_value := req_value request;
     set_domain := hostname u;
     set_path := lit "/";
     set_secure := eqs (protocol u) (lit "https:");
     set_sameSite := lit "lax" |}.

End ProxyShapes.

(* ================================================================== *)
(** ** Further vocabulary: what the page reads *)
(* ================================================================== *)

Module PageShapes.
Import JS Protocol CookieManager.

(** The device [getCurrentDevice] makes of a list of cookies. *)
Definition device_of (cs : list Cookie) : option jsstring :=
  let v := or_else
             (or_else (value_of (find (named (lit "deviceoutput")) cs))
                      (value_of (find (named (lit "devicetype")) cs)))
             None in
  if known_device v then v else None.

(** The value [getCookie] makes of a cookie or of none. *)
Definition value_or_null (c : option Cookie) : option jsstring :=
  or_else (value_of c) None.

(** The two requests of the readers. *)
Definition get_all_message (url : jsstring) : ChannelCall :=
  SendMessage (mkRequest GET_ALL_COOKIES url [] []) MESSAGE_TIMEOUT_MS.

Definition get_message (url name : jsstring) : ChannelCall :=
  SendMessage (mkRequest GET_COOKIE url name []) MESSAGE_TIMEOUT_MS.

End PageShapes.

(* ================================================================== *)
(** ** content.js: the handlers of the card *)
(* ================================================================== *)

Module Content.
Import JS Async Protocol Domain StorageManager CookieManager.
Local Open Scope proc_scope.


(** What the content script does to the page: the functions of
    [ui.js], the settings input and the timer of the reload.
    [ReadInput] is [document.getElementById(...)] and [input.value];
    [WireWhitelistControls] is the wiring of the add button, of the
    Enter key and of the removal event. *)
Inductive UICall : Type :=
| ShowCard
| UpdateActiveDevice (deviceType : jsstring)
| ShowError (message : jsstring)
| HideError
| AttachButtonHandler
| UpdateWhitelistDisplay (domains : list jsstring)
| WireWhitelistControls
| ReadInput
| ClearInput
| ScheduleReload (delay : nat).

(** [ReadInput] answers the text of the input, or [None] without the
    element. *)
Definition ui_ans (c : UICall) : Type :=
  match c with
  | ReadInput => option jsstring
  | _ => unit
  end.

(** The calls of the content script: storage, channel, page. *)
Inductive PageCall : Type :=
| St (c : StorageCall)
| Ch (c : ChannelCall)
| Ui (c : UICall).

Definition page_ans (c : PageCall) : Type :=
  match c with
  | St c => storage_ans c
  | Ch c => channel_ans c
  | Ui c => ui_ans c
  end.

Definition PProc := Proc PageCall page_ans.

(** The functions of [storage-manager.js] and of [cookie-manager.js]
    as the content script calls them. *)
Fixpoint from_storage {R : Type} (p : SProc R) : PProc R :=
  match p with
  | Ret r => Ret r
  | Do c k => Do (St c) (fun a => from_storage (k a))
  end.

Fixpoint from_channel {R : Type} (p : CProc R) : PProc R :=
  match p with
  | Ret r => Ret r
  | Do c k => Do (Ch c) (fun a => from_channel (k a))
  end.

(** A call to the page, then the rest. *)
Definition ui {R : Type} (c : UICall) (rest : PProc R) : PProc R :=
  Do (Ui c) (fun _ => rest).


Definition loadWhitelist : PProc (Result unit) :=
  try_catch
    (whitelist <- from_storage getWhitelist ;;
     ui (UpdateWhitelistDisplay whitelist) (Ret (Ok tt)))
    (fun _ => Ret (Ok tt)).



(** A call to an async function that is not awaited: the function
    runs up to its first call, the caller goes on with [rest], and
    the function continues once that call has answered; what it
    returns is dropped. *)
Definition unawaited {A B : Type} (p : PProc A) (rest : PProc B) : PProc B :=
  match p with
  | Ret _ => rest
  | Do c k => Do c (fun a => bind rest (fun b => bind (k a) (fun _ => Ret b)))
  end.

(** [loadWhitelist()] is called without [await]: the read of the
    storage is issued, the controls are wired, and the list is
    displayed when the read has answered. *)
Definition setupWhitelistManagement : PProc (Result unit) :=
  unawaited loadWhitelist (ui WireWhitelistControls (Ret (Ok tt))).

(** [hostname] is [window.location.hostname], [url] is
    [window.location.href]. *)
Definition initializeCard (hostname url : jsstring) : PProc (Result unit) :=
  isWhitelisted <- from_storage (isCurrentDomainWhitelisted hostname) ;;
  if negb isWhitelisted then Ret (Ok tt)
  else
    currentDevice <- from_channel (getCurrentDevice url) ;;
    ui ShowCard
      (match currentDevice with
       | Some (c :: t) =>
           ui (UpdateActiveDevice (c :: t))
              (ui AttachButtonHandler setupWhitelistManagement)
       | _ => ui AttachButtonHandler setupWhitelistManagement
       end).

(** The page as the content script sees it: the storage, the answers
    of the channel to come, and the text of the settings input
    ([None]: the card is not on the page). *)
Record Page : Type := mkPage {
  storage : Storage;
  deliveries : list Delivery;
  input : option jsstring
}.

Definition page_host (c : PageCall) (p : Page) : page_ans c * Page :=
  match c return page_ans c * Page with
  | St c =>
      let (a, s) := storage_host c (storage p) in
      (a, mkPage s (deliveries p) (input p))
  | Ch c =>
      let (a, ds) := scripted_channel c (deliveries p) in
      (a, mkPage (storage p) ds (input p))
  | Ui c =>
      match c return ui_ans c * Page with
      | ReadInput => (input p, p)
      | ClearInput =>
          (tt, mkPage (storage p) (deliveries p)
                      (option_map (fun _ => []) (input p)))
      | ShowCard => (tt, p)
      | UpdateActiveDevice _ => (tt, p)
      | ShowError _ => (tt, p)
      | HideError => (tt, p)
      | AttachButtonHandler => (tt, p)
      | UpdateWhitelistDisplay _ => (tt, p)
      | WireWhitelistControls => (tt, p)
      | ScheduleReload _ => (tt, p)
      end
  end.

(** The calls to the page among the calls of a run. *)
Fixpoint ui_calls (t : list PageCall) : list UICall :=
  match t with
  | [] => []
  | Ui c :: rest => c :: ui_calls rest
  | _ :: rest => ui_calls rest
  end.

(** The messages to the proxy among the calls of a run. *)
Fixpoint channel_calls (t : list PageCall) : list ChannelCall :=
  match t with
  | [] => []
  | Ch c :: rest => c :: channel_calls rest
  | _ :: rest => channel_calls rest
  end.

(** The calls to the storage among the calls of a run. *)
Fixpoint storage_calls (t : list PageCall) : list StorageCall :=
  match t with
  | [] => []
  | St c :: rest => c :: storage_calls rest
  | _ :: rest => storage_calls rest
  end.

End Content.

(* ================================================================== *)
(** * Properties *)
(* ================================================================== *)

Import JS.

(** ** Strings *)

Lemma eqs_true (a b : jsstring) : eqs a b = true <-> a = b.
Proof.
  unfold eqs. destruct (list_eq_dec ascii_dec a b); split; congruence.
Qed.

Lemma eqs_false (a b : jsstring) : eqs a b = false <-> a <> b.
Proof.
  unfold eqs. destruct (list_eq_dec ascii_dec a b); split; congruence.
Qed.

Lemma eqs_refl (a : jsstring) : eqs a a = true.
Proof. now apply eqs_true. Qed.

Lemma includes_In (l : list jsstring) (x : jsstring) :
  includes l x = true <-> In x l.
Proof.
  unfold includes. rewrite existsb_exists. split.
  - intros (y & Hy & E). apply eqs_true in E. now subst.
  - intros H. exists x. split; [assumption | apply eqs_refl].
Qed.

Lemma split_not_nil sep s : split sep s <> [].
Proof.
  destruct s as [|c t]; simpl; [discriminate|].
  destruct (ascii_dec c sep); [discriminate|].
  destruct (split sep t); discriminate.
Qed.

Lemma split_cons_sep sep t : split sep (sep :: t) = [] :: split sep t.
Proof. simpl. destruct (ascii_dec sep sep); congruence. Qed.

Lemma split_cons_other sep c t :
  c <> sep ->
  exists p ps, split sep t = p :: ps /\ split sep (c :: t) = (c :: p) :: ps.
Proof.
  intros Hc. simpl. destruct (ascii_dec c sep); [contradiction|].
  destruct (split sep t) as [|p ps] eqn:E.
  - now apply split_not_nil in E.
  - now exists p, ps.
Qed.

(** No piece of a split holds the separator. *)
Lemma split_pieces sep s : Forall (fun p => ~ In sep p) (split sep s).
Proof.
  induction s as [|c t IH]; simpl.
  - constructor; [intros []|constructor].
  - destruct (ascii_dec c sep) as [->|Hc].
    + constructor; [intros []|assumption].
    + destruct (split sep t) as [|p ps]; [constructor; [|constructor]|].
      * intros [H|[]]. congruence.
      * inversion IH; subst. constructor; [|assumption].
        intros [H|H]; [congruence|contradiction].
Qed.

Lemma join_cons sep p q qs :
  join sep (p :: q :: qs) = p ++ sep ++ join sep (q :: qs).
Proof. reflexivity. Qed.

Lemma join_split sep s : join [sep] (split sep s) = s.
Proof.
  induction s as [|c t IH]; simpl; [reflexivity|].
  destruct (ascii_dec c sep) as [->|Hc].
  - destruct (split sep t) as [|q qs] eqn:E; [now apply split_not_nil in E|].
    rewrite join_cons, IH. reflexivity.
  - destruct (split sep t) as [|p ps] eqn:E; [now apply split_not_nil in E|].
    destruct ps as [|q qs].
    + simpl in *. now subst.
    + rewrite join_cons. rewrite join_cons in IH. rewrite <- IH. reflexivity.
Qed.

Lemma split_app_sep sep p t :
  ~ In sep p -> split sep (p ++ sep :: t) = p :: split sep t.
Proof.
  induction p as [|c p IH]; intros Hp; simpl app.
  - apply split_cons_sep.
  - simpl. destruct (ascii_dec c sep) as [->|Hc]; [exfalso; apply Hp; now left|].
    rewrite IH; [reflexivity|]. intros H. apply Hp. now right.
Qed.

Lemma split_no_sep sep p : ~ In sep p -> split sep p = [p].
Proof.
  induction p as [|c p IH]; intros Hp; simpl; [reflexivity|].
  destruct (ascii_dec c sep) as [->|Hc]; [exfalso; apply Hp; now left|].
  rewrite IH; [reflexivity|]. intros H. apply Hp. now right.
Qed.

Lemma split_join sep parts :
  parts <> [] -> Forall (fun p => ~ In sep p) parts ->
  split sep (join [sep] parts) = parts.
Proof.
  induction parts as [|p ps IH]; intros Hne HF; [congruence|].
  inversion HF as [|? ? Hp Hps]; subst.
  destruct ps as [|q qs].
  - simpl. now apply split_no_sep.
  - rewrite join_cons.
    change (p ++ [sep] ++ join [sep] (q :: qs))
      with (p ++ sep :: join [sep] (q :: qs)).
    rewrite split_app_sep by assumption.
    f_equal. apply IH; [discriminate|assumption].
Qed.

Lemma Forall_skipn {A} (P : A -> Prop) n (l : list A) :
  Forall P l -> Forall P (skipn n l).
Proof.
  revert l. induction n as [|n IH]; intros l H; simpl; [assumption|].
  destruct l; [constructor|]. inversion H; subst. now apply IH.
Qed.

(** [arr.slice(-k)] with [0 < k < arr.length] is the last [k] elements. *)
Lemma slice_last {A} (k : nat) (arr : list A) :
  0 < k -> k <= List.length arr ->
  slice (- Z.of_nat k) arr = skipn (List.length arr - k) arr.
Proof.
  intros Hk Hle. unfold slice.
  destruct (Z.ltb_spec (- Z.of_nat k) 0); [|lia].
  f_equal. lia.
Qed.

(** ** The matcher decides the language of a pattern *)

Section RegexCorrect.
Import Regex.
Variable ic : bool.

Lemma lang_mkSeq a b s : lang ic (mkSeq a b) s <-> lang ic (Seq a b) s.
Proof.
  destruct a; simpl; try tauto.
  - split; [intros []|intros (s1 & s2 & _ & [] & _)].
  - split.
    + intros H. now exists [], s.
    + intros (s1 & s2 & -> & -> & H). exact H.
Qed.

Lemma lang_mkAlt a b s : lang ic (mkAlt a b) s <-> lang ic (Alt a b) s.
Proof.
  destruct a, b; simpl; tauto.
Qed.

Lemma concat_nil_Forall (ss : list jsstring) :
  List.concat ss = [] -> Forall (fun x => x = []) ss.
Proof.
  induction ss as [|x ss IH]; simpl; intros H; [constructor|].
  apply app_eq_nil in H as [-> H]. constructor; auto.
Qed.

Lemma concat_repeat_nil (n : nat) :
  List.concat (repeat ([] : jsstring) n) = [].
Proof. induction n; simpl; auto. Qed.

Lemma nullable_ok r : nullable r = true <-> lang ic r [].
Proof.
  induction r as [| |items|a IHa b IHb|a IHa b IHb|a IHa|a IHa lo hi]; simpl.
  - split; [discriminate|tauto].
  - tauto.
  - split; [discriminate|]. intros (c & H & _). discriminate.
  - rewrite andb_true_iff, IHa, IHb. split.
    + intros [Ha Hb]. now exists [], [].
    + intros (s1 & s2 & E & Ha & Hb). symmetry in E.
      apply app_eq_nil in E as [-> ->]. now split.
  - rewrite orb_true_iff, IHa, IHb. tauto.
  - split; [|reflexivity]. intros _. exists []. split; [reflexivity|constructor].
  - rewrite andb_true_iff, orb_true_iff, Nat.leb_le, Nat.eqb_eq, IHa. split.
    + intros [Hle [->|Ha]].
      * exists []. simpl. repeat split; [lia|lia|constructor].
      * exists (repeat [] lo). repeat split.
        -- now rewrite concat_repeat_nil.
        -- rewrite repeat_length. lia.
        -- rewrite repeat_length. lia.
        -- clear -Ha. induction lo; simpl; constructor; auto.
    + intros (ss & E & [Hlo Hhi] & HF). split; [lia|].
      destruct ss as [|x ss]; [left; simpl in Hlo; lia|right].
      symmetry in E. apply concat_nil_Forall in E.
      inversion E; subst. now inversion HF.
Qed.

(** A non-empty concatenation of matches starts with a non-empty
    match; the empty ones before it can be dropped. *)
Lemma star_uncons (P : jsstring -> Prop) ss c s :
  c :: s = List.concat ss -> Forall P ss ->
  exists x tt, P (c :: x) /\ s = x ++ List.concat tt /\ Forall P tt
               /\ List.length tt < List.length ss
               /\ (P [] \/ S (List.length tt) = List.length ss).
Proof.
  induction ss as [|y ss IH]; simpl; intros E HF; [discriminate|].
  inversion HF as [|? ? Hy Hss]; subst.
  destruct y as [|d y].
  - simpl in E. destruct (IH E Hss) as (x & tt & Hx & Es & Htt & Hlen & Hp).
    exists x, tt. split; [exact Hx|]. split; [exact Es|].
    split; [exact Htt|]. split; [simpl; lia|left; exact Hy].
  - simpl in E. injection E as -> ->.
    exists y, ss. split; [exact Hy|]. split; [reflexivity|].
    split; [exact Hss|]. split; [simpl; lia|right; reflexivity].
Qed.

Lemma deriv_ok c r : forall s, lang ic (deriv ic c r) s <-> lang ic r (c :: s).
Proof.
  induction r as [| |items|a IHa b IHb|a IHa b IHb|a IHa|a IHa lo hi];
    intros s; simpl.
  - tauto.
  - split; [intros []|discriminate].
  - destruct (class_mem ic items c) eqn:E; simpl.
    + split.
      * intros ->. now exists c.
      * intros (c' & H & _). now injection H.
    + split; [intros []|]. intros (c' & H & M). injection H as -> _.
      congruence.
  - rewrite lang_mkAlt. simpl. rewrite lang_mkSeq. simpl. split.
    + intros [(s1 & s2 & -> & H1 & H2)|H].
      * exists (c :: s1), s2. repeat split; auto. now apply IHa.
      * destruct (nullable a) eqn:N; [|destruct H].
        exists [], (c :: s). repeat split.
        -- now apply nullable_ok.
        -- now apply IHb.
    + intros (s1 & s2 & E & H1 & H2). destruct s1 as [|d s1].
      * simpl in E. subst s2. right.
        apply nullable_ok in H1. rewrite H1. now apply IHb.
      * simpl in E. injection E as <- ->. left.
        exists s1, s2. repeat split; auto. now apply IHa.
  - rewrite lang_mkAlt. simpl. rewrite IHa, IHb. tauto.
  - rewrite lang_mkSeq. simpl. split.
    + intros (s1 & s2 & -> & H1 & ss & -> & HF).
      exists ((c :: s1) :: ss). split; [reflexivity|].
      constructor; [now apply IHa|assumption].
    + intros (ss & E & HF).
      destruct (star_uncons _ ss c s E HF) as (x & tt & Hx & -> & Htt & _).
      exists x, (List.concat tt). repeat split; [now apply IHa|].
      now exists tt.
  - destruct hi as [|hi]; simpl.
    + split; [intros []|]. intros (ss & E & [_ Hhi] & _).
      destruct ss; [discriminate|simpl in Hhi; lia].
    + rewrite lang_mkSeq. simpl. split.
      * intros (s1 & s2 & -> & H1 & ss & -> & [Hlo Hhi] & HF).
        exists ((c :: s1) :: ss). split; [reflexivity|]. split.
        -- simpl. lia.
        -- constructor; [now apply IHa|assumption].
      * intros (ss & E & [Hlo Hhi] & HF).
        destruct (star_uncons _ ss c s E HF)
          as (x & tt & Hx & -> & Htt & Hlen & Hp).
        destruct Hp as [Hnil|Hp].
        -- (* pad with empty matches up to the lower bound *)
           exists x, (List.concat tt). split; [reflexivity|].
           split; [now apply IHa|].
           exists (repeat [] (pred lo - List.length tt) ++ tt).
           split; [now rewrite concat_app, concat_repeat_nil|]. split.
           ++ rewrite length_app, repeat_length. lia.
           ++ apply Forall_app. split; [|assumption].
              clear -Hnil. induction (pred lo - List.length tt); simpl;
                constructor; auto.
        -- exists x, (List.concat tt). split; [reflexivity|].
           split; [now apply IHa|].
           exists tt. split; [reflexivity|]. split; [lia|assumption].
Qed.

Theorem test_ok r s : test ic r s = true <-> lang ic r s.
Proof.
  revert r. induction s as [|c s IH]; intros r; simpl.
  - apply nullable_ok.
  - rewrite IH. apply deriv_ok.
Qed.

End RegexCorrect.

(** ** Character classes of the two patterns *)

Lemma in_all_ascii (c : ascii) : In c all_ascii.
Proof.
  unfold all_ascii. rewrite <- (ascii_nat_embedding c).
  apply in_map, in_seq. pose proof (nat_ascii_bounded c). lia.
Qed.

(** A property checked on the 256 code units holds of each. *)
Lemma by_cases_on_ascii (P : ascii -> bool) :
  forallb P all_ascii = true -> forall c, P c = true.
Proof.
  intros H c. rewrite forallb_forall in H. apply H, in_all_ascii.
Qed.

Lemma class_alnum_i c :
  Regex.class_mem true [Regex.Range "a" "z"; Regex.Range "0" "9"] c
  = Spec.is_alnum c.
Proof.
  apply eqb_prop. revert c.
  apply (by_cases_on_ascii (fun c => eqb _ _)). vm_compute. reflexivity.
Qed.

Lemma class_alnum_hyphen_i c :
  Regex.class_mem true
    [Regex.Range "a" "z"; Regex.Range "0" "9"; Regex.One "-"] c
  = Spec.is_alnum c || Spec.is_hyphen c.
Proof.
  apply eqb_prop. revert c.
  apply (by_cases_on_ascii (fun c => eqb _ _)). vm_compute. reflexivity.
Qed.

Lemma class_alnum_hyphen_exact c :
  Regex.class_mem false
    [Regex.Range "a" "z"; Regex.Range "0" "9"; Regex.One "-"] c
  = (Spec.is_alnum c || Spec.is_hyphen c) && negb (Spec.is_upper c).
Proof.
  apply eqb_prop. revert c.
  apply (by_cases_on_ascii (fun c => eqb _ _)). vm_compute. reflexivity.
Qed.

Lemma class_dot ic c :
  Regex.class_mem ic [Regex.One "."] c = true <-> c = "."%char.
Proof.
  split.
  - revert c. destruct ic.
    + assert (H : forall c, implb (Regex.class_mem true [Regex.One "."] c)
                     (if ascii_dec c "." then true else false) = true).
      { apply by_cases_on_ascii. vm_compute. reflexivity. }
      intros c Hc. specialize (H c). rewrite Hc in H. simpl in H.
      destruct (ascii_dec c "."); [assumption|discriminate].
    + assert (H : forall c, implb (Regex.class_mem false [Regex.One "."] c)
                     (if ascii_dec c "." then true else false) = true).
      { apply by_cases_on_ascii. vm_compute. reflexivity. }
      intros c Hc. specialize (H c). rewrite Hc in H. simpl in H.
      destruct (ascii_dec c "."); [assumption|discriminate].
  - intros ->. destruct ic; reflexivity.
Qed.

Lemma lower_char_not_upper c : Spec.is_upper (lower_char c) = false.
Proof.
  apply negb_true_iff. revert c.
  apply (by_cases_on_ascii (fun c => negb _)). vm_compute. reflexivity.
Qed.

Lemma lower_char_fixes c :
  Spec.is_upper c = false ->
  Spec.is_alnum c || Spec.is_hyphen c || (if ascii_dec c "." then true else false) = true ->
  lower_char c = c.
Proof.
  assert (H : forall c,
             implb (negb (Spec.is_upper c)
                    && (Spec.is_alnum c || Spec.is_hyphen c
                        || (if ascii_dec c "." then true else false)))
                   (if ascii_dec (lower_char c) c then true else false) = true).
  { apply by_cases_on_ascii. vm_compute. reflexivity. }
  intros U L. specialize (H c). rewrite U, L in H. simpl in H.
  destruct (ascii_dec (lower_char c) c); [assumption|discriminate].
Qed.

Lemma label_char_not_dot c :
  Spec.is_alnum c || Spec.is_hyphen c = true -> c <> "."%char.
Proof. intros H ->. discriminate. Qed.

(** ** The languages of the two patterns *)

Section PatternLanguages.
Import Regex Domain Spec.

Lemma lang_rep_class ic items n s :
  lang ic (Rep (Class items) 0 n) s
  <-> List.length s <= n /\ forallb (class_mem ic items) s = true.
Proof.
  split.
  - intros (ss & -> & [_ Hn] & HF).
    enough (List.length (List.concat ss) = List.length ss
            /\ forallb (class_mem ic items) (List.concat ss) = true)
      as [E F] by (split; [lia|exact F]).
    clear Hn. induction HF as [|x ss Hx _ [IH1 IH2]]; [now split|].
    destruct Hx as (c & -> & M). simpl. rewrite M, IH1, IH2. now split.
  - intros [Hn HF]. exists (map (fun c => [c]) s). split; [|split].
    + clear. induction s as [|c s IH]; simpl; congruence.
    + rewrite length_map. lia.
    + clear Hn. induction s as [|c s IH]; simpl in *; constructor.
      * apply andb_true_iff in HF as [M _]. now exists c.
      * apply andb_true_iff in HF as [_ F]. now apply IH.
Qed.

Lemma lang_opt ic r s : lang ic (Opt r) s <-> s = [] \/ lang ic r s.
Proof.
  split.
  - intros (ss & -> & [_ Hn] & HF). destruct ss as [|x [|y ss]].
    + now left.
    + right. simpl. rewrite app_nil_r. now inversion HF.
    + simpl in Hn. lia.
  - intros [->|H].
    + exists []. split; [reflexivity|]. split; [simpl; lia|constructor].
    + exists [s]. simpl. rewrite app_nil_r. split; [reflexivity|].
      split; [lia|]. now constructor.
Qed.

Lemma lang_plus ic r s :
  lang ic (Plus r) s
  <-> exists ss, ss <> [] /\ s = List.concat ss /\ Forall (lang ic r) ss.
Proof.
  split.
  - intros (s1 & s2 & -> & H1 & ss & -> & HF).
    exists (s1 :: ss). split; [discriminate|]. split; [reflexivity|].
    now constructor.
  - intros (ss & Hne & -> & HF). destruct ss as [|x ss]; [congruence|].
    inversion HF; subst. exists x, (List.concat ss).
    split; [reflexivity|]. split; [assumption|]. now exists ss.
Qed.

Lemma forallb_same {A} (f g : A -> bool) (l : list A) :
  (forall x, f x = g x) -> forallb f l = forallb g l.
Proof.
  intros H. induction l as [|a l IH]; simpl; [reflexivity|].
  now rewrite H, IH.
Qed.

Lemma forallb_removelast {A} (f : A -> bool) (l : list A) :
  forallb f l = true -> forallb f (removelast l) = true.
Proof.
  induction l as [|a [|b l] IH]; simpl in *; auto.
  intros H. apply andb_true_iff in H as [-> H]. simpl. now apply IH.
Qed.

Lemma length_removelast {A} (l : list A) :
  l <> [] -> S (List.length (removelast l)) = List.length l.
Proof.
  induction l as [|a [|b l] IH]; intros H; [congruence|reflexivity|].
  change (removelast (a :: b :: l)) with (a :: removelast (b :: l)).
  change (S (S (List.length (removelast (b :: l)))) = S (List.length (b :: l))).
  f_equal. apply IH. discriminate.
Qed.

Lemma last_cons_nonempty {A} (a d : A) (l : list A) :
  l <> [] -> last (a :: l) d = last l d.
Proof. destruct l; [congruence|reflexivity]. Qed.

Lemma lang_long_label s :
  lang true long_label s <-> dns_label 2 s = true.
Proof.
  unfold dns_label. split.
  - intros (s1 & s2 & -> & (c & -> & Mc) & (m & s3 & -> & Hm & (d & -> & Md))).
    apply lang_rep_class in Hm as [Lm Fm].
    unfold alnum in Mc, Md. rewrite class_alnum_i in Mc, Md.
    assert (Fm' : forallb label_char m = true).
    { rewrite (forallb_same _ label_char) in Fm
        by (intros x; apply class_alnum_hyphen_i).
      exact Fm. }
    apply andb_true_iff; split;
      [apply andb_true_iff; split;
       [apply andb_true_iff; split; [apply andb_true_iff; split|]|]|].
    + apply Nat.leb_le. rewrite !length_app. simpl. lia.
    + apply Nat.leb_le. rewrite !length_app. simpl. lia.
    + rewrite !forallb_app. simpl. unfold label_char at 1 3.
      now rewrite Mc, Md, Fm'.
    + exact Mc.
    + change ([c] ++ m ++ [d]) with ((c :: m) ++ [d]).
      now rewrite last_last.
  - intros H.
    apply andb_true_iff in H as [H Hlast].
    apply andb_true_iff in H as [H Hhd].
    apply andb_true_iff in H as [H Ft].
    apply andb_true_iff in H as [Hlo Hhi].
    apply Nat.leb_le in Hlo, Hhi.
    destruct s as [|c t]; [simpl in Hlo; lia|].
    assert (Ht : t <> []) by (destruct t; [simpl in Hlo; lia|discriminate]).
    rewrite last_cons_nonempty in Hlast by assumption.
    simpl in Hhd, Hhi, Hlo.
    change (forallb label_char (c :: t))
      with (label_char c && forallb label_char t) in Ft.
    apply andb_true_iff in Ft as [_ Ft].
    pose proof (length_removelast t Ht) as Hlen.
    exists [c], t. split; [reflexivity|]. split.
    + exists c. split; [reflexivity|]. unfold alnum.
      now rewrite class_alnum_i.
    + exists (removelast t), [last t "-"%char].
      split; [now apply app_removelast_last|]. split.
      * apply lang_rep_class. split; [lia|].
        rewrite (forallb_same _ label_char)
          by (intros x; apply class_alnum_hyphen_i).
        now apply forallb_removelast.
      * exists (last t "-"%char). split; [reflexivity|].
        unfold alnum. now rewrite class_alnum_i.
Qed.

Lemma dns_label_1 s :
  dns_label 1 s = true
  <-> (exists c, s = [c] /\ is_alnum c = true) \/ dns_label 2 s = true.
Proof.
  split.
  - intros H. destruct s as [|c [|d t]].
    + discriminate.
    + left. exists c. split; [reflexivity|].
      unfold dns_label in H. now apply andb_true_iff in H as [_ H].
    + right. exact H.
  - intros [(c & -> & Hc)|H].
    + unfold dns_label, label_char. simpl. now rewrite Hc.
    + destruct s as [|c [|d t]]; try discriminate. exact H.
Qed.

Lemma lang_any_label s :
  lang true any_label s <-> dns_label 1 s = true.
Proof.
  rewrite dns_label_1, <- lang_long_label. split.
  - intros (s1 & s2 & -> & H1 & H2). apply lang_opt in H2 as [->|H2].
    + left. destruct H1 as (c & -> & Mc). exists c.
      unfold alnum in Mc. rewrite class_alnum_i in Mc. now split.
    + right. now exists s1, s2.
  - intros [(c & -> & Hc)|(s1 & s2 & -> & H1 & H2)].
    + exists [c], []. split; [reflexivity|]. split.
      * exists c. split; [reflexivity|]. unfold alnum.
        now rewrite class_alnum_i.
      * apply lang_opt. now left.
    + exists s1, s2. split; [reflexivity|]. split; [assumption|].
      apply lang_opt. now right.
Qed.

Lemma dns_label_no_dot n l : dns_label n l = true -> ~ In "."%char l.
Proof.
  unfold dns_label. intros H Hin.
  repeat (apply andb_true_iff in H as [H ?]).
  match goal with F : forallb _ l = true |- _ =>
    rewrite forallb_forall in F; specialize (F _ Hin) end.
  discriminate.
Qed.

Lemma lang_dotted_labels s :
  lang true (Plus (Seq any_label (Lit "."))) s
  <-> exists ls, ls <> [] /\ s = dotted ls
                 /\ forallb (dns_label 1) ls = true.
Proof.
  rewrite lang_plus. split.
  - intros (ss & Hne & -> & HF).
    assert (exists ls, ss = map (fun l => l ++ ["."%char]) ls
                       /\ forallb (dns_label 1) ls = true) as (ls & -> & F).
    { clear Hne. induction HF as [|x ss Hx _ (ls & -> & F)].
      - now exists [].
      - destruct Hx as (l & d & -> & Hl & (c & -> & Hc)).
        apply class_dot in Hc as ->. apply lang_any_label in Hl.
        exists (l :: ls). simpl. now rewrite Hl, F. }
    exists ls. split; [|now split]. destruct ls; [now simpl in Hne|discriminate].
  - intros (ls & Hne & -> & F).
    exists (map (fun l => l ++ ["."%char]) ls). split; [|split].
    + destruct ls; [congruence|discriminate].
    + reflexivity.
    + clear Hne. induction ls as [|l ls IH]; [constructor|].
      change (forallb (dns_label 1) (l :: ls))
        with (dns_label 1 l && forallb (dns_label 1) ls) in F.
      apply andb_true_iff in F as [Hl F].
      change (Forall (lang true (Seq any_label (Lit ".")))
                ((l ++ ["."%char]) :: map (fun l => l ++ ["."%char]) ls)).
      constructor; [|now apply IH].
      exists l, ["."%char]. split; [reflexivity|]. split.
      * now apply lang_any_label.
      * exists "."%char. split; [reflexivity|]. now apply class_dot.
Qed.

Lemma lang_domainPattern s :
  lang true domainPattern s
  <-> exists ls tld, ls <> [] /\ s = dotted ls ++ tld
                     /\ forallb (dns_label 1) ls = true
                     /\ dns_label 2 tld = true.
Proof.
  split.
  - intros (s1 & s2 & -> & H1 & H2).
    apply lang_dotted_labels in H1 as (ls & Hne & -> & F).
    apply lang_long_label in H2. now exists ls, s2.
  - intros (ls & tld & Hne & -> & F & T).
    exists (dotted ls), tld. split; [reflexivity|]. split.
    + apply lang_dotted_labels. now exists ls.
    + now apply lang_long_label.
Qed.

End PatternLanguages.

(** ** What [normalizeDomain] accepts *)

Section Normalize.
Import Regex Domain Spec.

Lemma split_dotted ls tld :
  Forall (fun l => ~ In "."%char l) ls -> ~ In "."%char tld ->
  split "." (dotted ls ++ tld) = ls ++ [tld].
Proof.
  intros HF Ht. induction HF as [|l ls Hl _ IH]; simpl.
  - now apply split_no_sep.
  - unfold dotted in *. simpl. rewrite <- !app_assoc. simpl.
    rewrite split_app_sep by assumption. now rewrite IH.
Qed.

Lemma join_snoc ls tld : join ["."%char] (ls ++ [tld]) = dotted ls ++ tld.
Proof.
  induction ls as [|l ls IH]; [reflexivity|].
  change ((l :: ls) ++ [tld]) with (l :: (ls ++ [tld])).
  destruct (ls ++ [tld]) as [|q qs] eqn:E.
  - now destruct ls.
  - rewrite join_cons, IH. unfold dotted. simpl.
    now rewrite <- !app_assoc.
Qed.

Lemma forallb_dns_no_dot n ls :
  forallb (dns_label n) ls = true -> Forall (fun l => ~ In "."%char l) ls.
Proof.
  intros H. apply Forall_forall. intros l Hl.
  rewrite forallb_forall in H. eapply dns_label_no_dot. now apply H.
Qed.

Lemma dns_label_weaken l : dns_label 2 l = true -> dns_label 1 l = true.
Proof. intros H. apply dns_label_1. now right. Qed.

Lemma dns_label_long l :
  dns_label 1 l = true -> 2 <= List.length l -> dns_label 2 l = true.
Proof.
  intros H L. apply dns_label_1 in H as [(c & -> & _)|H]; [simpl in L; lia|].
  exact H.
Qed.

Lemma dns_label_2_length l : dns_label 2 l = true -> 2 <= List.length l.
Proof.
  unfold dns_label. intros H.
  repeat (apply andb_true_iff in H as [H _]). now apply Nat.leb_le.
Qed.

(** The dotted pattern: several labels, the last of two characters or
    more. *)
Lemma test_domainPattern s :
  test true domainPattern s = dotted_hostname_long_tld s.
Proof.
  apply eq_true_iff_eq. rewrite test_ok, lang_domainPattern.
  unfold dotted_hostname_long_tld, dotted_hostname, labels. split.
  - intros (ls & tld & Hne & -> & F & T).
    rewrite split_dotted;
      [|now apply forallb_dns_no_dot with (n := 1)
       |now apply dns_label_no_dot with (n := 2)].
    rewrite last_last, forallb_app, F, length_app.
    change (forallb (dns_label 1) [tld]) with (dns_label 1 tld && true).
    rewrite (dns_label_weaken _ T).
    apply andb_true_iff. split; [apply andb_true_iff; split|].
    + apply Nat.leb_le. destruct ls; [congruence|simpl; lia].
    + reflexivity.
    + apply Nat.leb_le. now apply dns_label_2_length.
  - intros H.
    apply andb_true_iff in H as [H Hlast].
    apply andb_true_iff in H as [Hn F].
    apply Nat.leb_le in Hn, Hlast.
    assert (Hne : split "." s <> []) by apply split_not_nil.
    pose proof (app_removelast_last [] Hne) as E.
    pose proof (length_removelast _ Hne) as Hlen.
    rewrite E, forallb_app in F. apply andb_true_iff in F as [F T].
    simpl in T. rewrite andb_true_r in T.
    exists (removelast (split "." s)), (last (split "." s) []).
    split; [|split; [|split]].
    + intros N. rewrite N in Hlen. simpl in Hlen. lia.
    + rewrite <- join_snoc, <- E. symmetry. apply join_split.
    + exact F.
    + now apply dns_label_long.
Qed.

Lemma lang_plus_class ic items s :
  lang ic (Plus (Class items)) s
  <-> s <> [] /\ forallb (class_mem ic items) s = true.
Proof.
  rewrite lang_plus. split.
  - intros (ss & Hne & -> & HF).
    assert (List.length (List.concat ss) = List.length ss
            /\ forallb (class_mem ic items) (List.concat ss) = true)
      as [E F].
    { clear Hne. induction HF as [|x ss Hx _ [IH1 IH2]]; [now split|].
      destruct Hx as (c & -> & M). simpl. rewrite M, IH1, IH2. now split. }
    split; [|exact F]. intros N. rewrite N in E.
    destruct ss; [congruence|discriminate].
  - intros [Hne F]. exists (map (fun c => [c]) s). split; [|split].
    + destruct s; [congruence|discriminate].
    + clear. induction s as [|c s IH]; simpl; congruence.
    + clear Hne. induction s as [|c s IH]; [constructor|].
      simpl in F. apply andb_true_iff in F as [M F].
      change (map (fun c => [c]) (c :: s)) with ([c] :: map (fun c => [c]) s).
      constructor; [now exists c|now apply IH].
Qed.

Lemma single_label_iff s :
  single_label s = true <-> s <> [] /\ forallb label_char s = true.
Proof.
  destruct s as [|c s]; simpl.
  - split; [discriminate|]. now intros [[] _].
  - split; [intros H; split; [discriminate|exact H]|now intros [_ H]].
Qed.

Lemma forallb_andb {A} (f g : A -> bool) (l : list A) :
  forallb (fun x => f x && g x) l = forallb f l && forallb g l.
Proof.
  induction l as [|a l IH]; simpl; [reflexivity|]. rewrite IH.
  destruct (f a), (g a), (forallb f l); reflexivity.
Qed.

(** The single-label pattern: letters in lower case, digits, hyphens. *)
Lemma test_singleLabelPattern s :
  test false singleLabelPattern s
  = single_label s && forallb (fun c => negb (is_upper c)) s.
Proof.
  apply eq_true_iff_eq. rewrite test_ok.
  unfold singleLabelPattern, alnum_hyphen. rewrite lang_plus_class.
  rewrite (forallb_same _ (fun c => label_char c && negb (is_upper c)))
    by (intros x; apply class_alnum_hyphen_exact).
  rewrite forallb_andb, !andb_true_iff, single_label_iff. tauto.
Qed.


(** *** The characters of an accepted domain *)

Lemma strip_prefix_app p s r : strip_prefix p s = Some r -> s = p ++ r.
Proof.
  revert s. induction p as [|a p IH]; intros s H; simpl in H.
  - now injection H as ->.
  - destruct s as [|b s]; [discriminate|].
    destruct (ascii_dec a b) as [->|]; [|discriminate].
    simpl. f_equal. now apply IH.
Qed.

Lemma strip_prefix_of_app p r : strip_prefix p (p ++ r) = Some r.
Proof.
  induction p as [|a p IH]; simpl; [reflexivity|].
  destruct (ascii_dec a a); [assumption|congruence].
Qed.

Lemma Forall_strip_prefix (P : ascii -> Prop) p s r :
  strip_prefix p s = Some r -> Forall P s -> Forall P r.
Proof.
  intros H F. apply strip_prefix_app in H. subst s.
  now apply Forall_app in F as [_ F].
Qed.

Lemma Forall_strip_scheme (P : ascii -> Prop) s :
  Forall P s -> Forall P (strip_scheme s).
Proof.
  intros F. unfold strip_scheme.
  destruct (strip_prefix (lit "http") s) as [r|] eqn:E1; [|assumption].
  pose proof (Forall_strip_prefix P _ _ _ E1 F) as Fr.
  destruct (strip_prefix (lit "s://") r) as [r'|] eqn:E2.
  - eapply Forall_strip_prefix; eassumption.
  - destruct (strip_prefix (lit "://") r) as [r'|] eqn:E3; [|assumption].
    eapply Forall_strip_prefix; eassumption.
Qed.

Lemma Forall_strip_www (P : ascii -> Prop) s :
  Forall P s -> Forall P (strip_www s).
Proof.
  intros F. unfold strip_www.
  destruct (strip_prefix (lit "www.") s) as [r|] eqn:E; [|assumption].
  eapply Forall_strip_prefix; eassumption.
Qed.

Lemma Forall_strip_trailing_slash (P : ascii -> Prop) s :
  Forall P s -> Forall P (strip_trailing_slash s).
Proof.
  induction s as [|c [|d t] IH]; intros F.
  - constructor.
  - simpl. destruct (ascii_dec c "/"); [constructor|assumption].
  - change (strip_trailing_slash (c :: d :: t))
      with (c :: strip_trailing_slash (d :: t)).
    inversion F; subst. constructor; [assumption|now apply IH].
Qed.

Lemma Forall_trimStart (P : ascii -> Prop) s :
  Forall P s -> Forall P (trimStart s).
Proof.
  induction s as [|c t IH]; intros F; simpl; [constructor|].
  destruct (is_space c); [|assumption]. inversion F; subst. now apply IH.
Qed.

Lemma Forall_trim (P : ascii -> Prop) s : Forall P s -> Forall P (trim s).
Proof.
  intros F. unfold trim, trimEnd.
  apply Forall_rev, Forall_trimStart, Forall_rev, Forall_trimStart, F.
Qed.

Lemma canonical_no_upper d : no_upper (canonical d).
Proof.
  unfold canonical, no_upper.
  apply Forall_trim, Forall_strip_trailing_slash, Forall_strip_www,
    Forall_strip_scheme.
  unfold toLowerCase. apply Forall_forall. intros c Hc.
  apply in_map_iff in Hc as (x & <- & _). apply lower_char_not_upper.
Qed.

Lemma no_upper_forallb s :
  no_upper s -> forallb (fun c => negb (is_upper c)) s = true.
Proof.
  intros H. apply forallb_forall. intros c Hc.
  unfold no_upper in H. rewrite Forall_forall in H.
  now rewrite (H c Hc).
Qed.


Lemma normalizeDomain_cases d :
  normalizeDomain d
  = if accepted_shape (canonical d) then Ok (canonical d)
    else Throw (invalidDomainMessage d).
Proof.
  unfold normalizeDomain, accepted_shape.
  rewrite test_singleLabelPattern, test_domainPattern.
  rewrite (no_upper_forallb _ (canonical_no_upper d)), andb_true_r.
  destruct (single_label (canonical d)) eqn:S1.
  - now rewrite orb_true_r.
  - rewrite orb_false_r.
    destruct (eqs (canonical d) (lit "localhost")) eqn:L.
    + apply eqs_true in L. rewrite L in S1. discriminate.
    + simpl. now destruct (dotted_hostname_long_tld (canonical d)).
Qed.

End Normalize.

(** ** Domains: subdomains, normalisation *)

Section DomainClaims.
Import Regex Domain Spec.

(** The rule of [isSubdomain]: it holds exactly when [c] has strictly
    more labels than [p] and the last labels of [c], as many as [p]
    has, are the labels of [p], label by label.  By this rule
    [api.example.com] matches [example.com], [evilexample.com] does
    not, and [evilcom.example.com] matches too. *)
Theorem isSubdomain_label_suffix :
  (forall c p, isSubdomain c p = true <-> label_suffix c p)
  /\ isSubdomain (lit "api.example.com") (lit "example.com") = true
  /\ isSubdomain (lit "evilcom.example.com") (lit "example.com") = true
  /\ isSubdomain (lit "evilexample.com") (lit "example.com") = false.
Proof.
  split; [|repeat split; reflexivity].
  intros c p. unfold isSubdomain, label_suffix, labels, last_n.
  pose proof (split_not_nil "." p) as Hp.
  pose proof (split_pieces "." c) as Hc.
  destruct (Nat.leb_spec (List.length (split "." c))
                         (List.length (split "." p))) as [Hle|Hlt].
  - split; [discriminate|]. intros [H _]. lia.
  - assert (Hk : 0 < List.length (split "." p))
      by (destruct (split "." p); [congruence|simpl; lia]).
    rewrite slice_last by lia. rewrite eqs_true. split.
    + intros E. split; [assumption|].
      transitivity
        (split "." (join (lit ".")
           (skipn (List.length (split "." c) - List.length (split "." p))
                  (split "." c))));
        [|now f_equal].
      symmetry. apply split_join.
      * intros N. apply (f_equal (@List.length _)) in N.
        rewrite length_skipn in N. simpl in N. lia.
      * now apply Forall_skipn.
    + intros [_ E]. rewrite E. apply join_split.
Qed.


(** C4 (as amended).  [normalizeDomain] lowercases, strips a leading
    scheme, a leading [www.], a final slash and the surrounding white
    space, and returns the result exactly when it is a single label of
    letters, digits and hyphens, or a dotted hostname whose labels have
    1 to 63 characters, are alphanumeric with hyphens inside, and whose
    last label has at least two characters; otherwise it throws an
    error whose message quotes the input as it was given. *)
Theorem normalizeDomain_accepted_shape :
  (forall d s,
      normalizeDomain d = Ok s
      <-> s = trim (strip_trailing_slash
                      (strip_www (strip_scheme (toLowerCase d))))
          /\ accepted_shape s = true)
  /\ (forall d m,
         normalizeDomain d = Throw m
         <-> accepted_shape (canonical d) = false
             /\ m = lit "Invalid domain format: " ++ dquote ++ d ++ dquote
                    ++ lit ". Please enter a valid domain (e.g., example.com)")
  /\ normalizeDomain (lit "HTTPS://WWW.Example.com/") = Ok (lit "example.com").
Proof.
  split; [|split; [|reflexivity]].
  - intros d s. rewrite normalizeDomain_cases. fold (canonical d).
    destruct (accepted_shape (canonical d)) eqn:A; split.
    + intros H. injection H as <-. now split.
    + now intros [-> _].
    + discriminate.
    + intros [-> H]. congruence.
  - intros d m. rewrite normalizeDomain_cases.
    destruct (accepted_shape (canonical d)) eqn:A; split.
    + discriminate.
    + now intros [H _].
    + intros H. injection H as <-. now split.
    + now intros [_ ->].
Qed.

(** C4, the claim as it stands: [a.b] is a dotted hostname whose two
    labels have one character each, and it is rejected. *)
Lemma normalizeDomain_rejects_short_last_label :
  valid_shape (canonical (lit "a.b")) = true
  /\ normalizeDomain (lit "a.b") = Throw (invalidDomainMessage (lit "a.b")).
Proof. split; reflexivity. Qed.


Lemma Forall_join (P : ascii -> Prop) sep parts :
  P sep -> Forall (Forall P) parts -> Forall P (join [sep] parts).
Proof.
  intros Hs HF. induction HF as [|p ps Hp Hps IH]; [constructor|].
  destruct ps as [|q qs]; [exact Hp|].
  rewrite join_cons. apply Forall_app. split; [exact Hp|].
  constructor; [exact Hs|exact IH].
Qed.

Lemma forallb_label_host_chars l :
  forallb label_char l = true -> host_chars l.
Proof.
  intros H. apply Forall_forall. intros c Hc. left.
  rewrite forallb_forall in H. now apply H.
Qed.

Lemma dns_label_chars n l : dns_label n l = true -> host_chars l.
Proof.
  unfold dns_label. intros H.
  apply andb_true_iff in H as [H _]. apply andb_true_iff in H as [H _].
  apply andb_true_iff in H as [_ H]. now apply forallb_label_host_chars.
Qed.

Lemma accepted_host_chars s : accepted_shape s = true -> host_chars s.
Proof.
  unfold accepted_shape. intros H. apply orb_true_iff in H as [H|H].
  - apply single_label_iff in H as [_ H]. now apply forallb_label_host_chars.
  - unfold dotted_hostname_long_tld, dotted_hostname, labels in H.
    apply andb_true_iff in H as [H _]. apply andb_true_iff in H as [_ H].
    rewrite <- (join_split "." s). apply Forall_join; [now right|].
    apply Forall_forall. intros l Hl. rewrite forallb_forall in H.
    eapply dns_label_chars. now apply H.
Qed.

Lemma host_chars_avoid s (bad : ascii) :
  host_chars s -> label_char bad = false -> bad <> "."%char -> ~ In bad s.
Proof.
  intros H B D Hin. unfold host_chars in H. rewrite Forall_forall in H.
  destruct (H _ Hin); congruence.
Qed.

Lemma toLowerCase_fixes s : no_upper s -> host_chars s -> toLowerCase s = s.
Proof.
  unfold no_upper, host_chars, toLowerCase.
  induction s as [|c s IH]; intros U H; [reflexivity|].
  inversion U as [|? ? Uc Us]; subst.
  inversion H as [|? ? Hc Hs]; subst. simpl. f_equal; [|now apply IH].
  apply lower_char_fixes; [assumption|].
  destruct Hc as [L| ->]; [|reflexivity].
  unfold label_char in L. now rewrite L.
Qed.

Lemma strip_scheme_fixes s : ~ In ":"%char s -> strip_scheme s = s.
Proof.
  intros H. unfold strip_scheme.
  destruct (strip_prefix (lit "http") s) as [r|] eqn:E1; [|reflexivity].
  apply strip_prefix_app in E1.
  destruct (strip_prefix (lit "s://") r) as [r'|] eqn:E2.
  - apply strip_prefix_app in E2. exfalso. apply H. subst.
    simpl. tauto.
  - destruct (strip_prefix (lit "://") r) as [r'|] eqn:E3; [|reflexivity].
    apply strip_prefix_app in E3. exfalso. apply H. subst. simpl. tauto.
Qed.

Lemma strip_trailing_slash_fixes s :
  ~ In "/"%char s -> strip_trailing_slash s = s.
Proof.
  induction s as [|c [|d t] IH]; intros H; [reflexivity| |].
  - simpl. destruct (ascii_dec c "/") as [->|]; [|reflexivity].
    exfalso. apply H. now left.
  - change (strip_trailing_slash (c :: d :: t))
      with (c :: strip_trailing_slash (d :: t)).
    f_equal. apply IH. intros Hin. apply H. now right.
Qed.

Lemma trimStart_fixes s :
  Forall (fun c => is_space c = false) s -> trimStart s = s.
Proof. intros H. destruct H as [|c t Hc _]; simpl; [|rewrite Hc]; reflexivity. Qed.

Lemma trim_fixes s : Forall (fun c => is_space c = false) s -> trim s = s.
Proof.
  intros H. unfold trim, trimEnd. rewrite (trimStart_fixes s H).
  rewrite trimStart_fixes by now apply Forall_rev. apply rev_involutive.
Qed.

Lemma host_chars_no_space s :
  host_chars s -> Forall (fun c => is_space c = false) s.
Proof.
  apply Forall_impl. intros c [H| ->]; [|reflexivity].
  revert H. generalize c. clear c.
  assert (H : forall c, implb (label_char c) (negb (is_space c)) = true).
  { apply by_cases_on_ascii. vm_compute. reflexivity. }
  intros c Hc. specialize (H c). rewrite Hc in H. simpl in H.
  now apply negb_true_iff in H.
Qed.

(** On a string of lower-case host characters only the removal of a
    leading [www.] is left of the normalisation. *)
Lemma canonical_of_host s :
  no_upper s -> host_chars s -> canonical s = strip_www s.
Proof.
  intros U H. unfold canonical.
  rewrite toLowerCase_fixes by assumption.
  rewrite strip_scheme_fixes
    by (apply host_chars_avoid; [assumption|reflexivity|discriminate]).
  assert (H' : host_chars (strip_www s)) by now apply Forall_strip_www.
  rewrite strip_trailing_slash_fixes
    by (apply host_chars_avoid; [assumption|reflexivity|discriminate]).
  now apply trim_fixes, host_chars_no_space.
Qed.

(** After a successful normalisation with result [y], normalising
    [y] again returns [y] exactly when [y] does not begin with
    [www.]: one leading [www.] is removed each time. *)
Theorem normalizeDomain_twice (x y : jsstring) :
  normalizeDomain x = Ok y ->
  (normalizeDomain y = Ok y <-> startsWith y (lit "www.") = false).
Proof.
  rewrite normalizeDomain_cases.
  destruct (accepted_shape (canonical x)) eqn:A; [|discriminate].
  intros H. injection H as <-.
  set (y := canonical x) in *.
  assert (C : canonical y = strip_www y).
  { apply canonical_of_host; [apply canonical_no_upper|].
    now apply accepted_host_chars. }
  rewrite normalizeDomain_cases, C. unfold startsWith, strip_www.
  destruct (strip_prefix (lit "www.") y) as [r|] eqn:E.
  - split; [|discriminate]. intros H. exfalso.
    apply strip_prefix_app in E.
    destruct (accepted_shape r); [|discriminate].
    injection H as H. rewrite H in E.
    apply (f_equal (@List.length _)) in E. rewrite length_app in E.
    simpl in E. lia.
  - split; [reflexivity|]. intros _. now rewrite A.
Qed.

(** C5.  Normalisation is not idempotent on [www.www.com]: it
    normalises to [www.com], and [www.com] normalises to [com].  The
    whitelist relies on it: after [www.www.com] is added, the stored
    entry [www.com] is not removed by its own name, the removal
    filters out [com]. *)
Theorem normalizeDomain_not_idempotent :
  normalizeDomain (lit "www.www.com") = Ok (lit "www.com")
  /\ normalizeDomain (lit "www.com") = Ok (lit "com")
  /\ normalizeDomain (lit "www.com") <> Ok (lit "www.com")
  /\ StorageManager.whitelist_of
       (StorageManager.perform (StorageManager.Add (lit "www.www.com"))
          (StorageManager.mkStorage None []))
     = [lit "www.com"]
  /\ StorageManager.whitelist_of
       (StorageManager.perform (StorageManager.Remove (lit "www.com"))
          (StorageManager.perform (StorageManager.Add (lit "www.www.com"))
             (StorageManager.mkStorage None [])))
     = [lit "www.com"].
Proof.
  split; [reflexivity|]. split; [reflexivity|].
  split; [vm_compute; discriminate|].
  split; vm_compute; reflexivity.
Qed.

Lemma normalizeDomain_twice_witness :
  normalizeDomain (lit "HTTPS://WWW.Example.com/") = Ok (lit "example.com")
  /\ (normalizeDomain (lit "example.com") = Ok (lit "example.com")
      <-> startsWith (lit "example.com") (lit "www.") = false).
Proof.
  split; [reflexivity|].
  apply (normalizeDomain_twice (lit "HTTPS://WWW.Example.com/")).
  reflexivity.
Defined.

End DomainClaims.

(** ** The whitelist store *)

Section WhitelistClaims.
Import Async Domain Spec StorageManager.

Lemma matchesEntry_true cur entry :
  matchesEntry cur entry = true
  <-> cur = entry \/ isSubdomain cur entry = true.
Proof.
  unfold matchesEntry. destruct (eqs cur entry) eqn:E.
  - apply eqs_true in E. tauto.
  - apply eqs_false in E. destruct (isSubdomain cur entry); split; auto.
    intros [H|H]; [contradiction|discriminate].
Qed.

Lemma some_matchesEntry cur whitelist :
  existsb (matchesEntry cur) whitelist = true
  <-> In cur whitelist
      \/ exists entry, In entry whitelist /\ isSubdomain cur entry = true.
Proof.
  rewrite existsb_exists. split.
  - intros (e & He & M). apply matchesEntry_true in M as [->|M]; eauto.
  - intros [H|(e & He & M)].
    + exists cur. split; [assumption|]. apply matchesEntry_true. now left.
    + exists e. split; [assumption|]. apply matchesEntry_true. now right.
Qed.

Lemma run_getWhitelist_readable w :
  readable w ->
  run storage_host getWhitelist w
  = (Ok (whitelist_of w), mkStorage (entry w) (tl (faults w)), [StorageGet]).
Proof.
  unfold readable, whitelist_of. destruct w as [e fs].
  destruct fs as [|[m|] fs]; simpl; intros H; try discriminate;
    reflexivity.
Qed.

Lemma run_getWhitelist_failing w m :
  hd None (faults w) = Some m ->
  run storage_host getWhitelist w
  = (Throw m, mkStorage (entry w) (tl (faults w)), [StorageGet]).
Proof.
  destruct w as [e fs]. destruct fs as [|[m'|] fs]; simpl; intros H;
    try discriminate.
  now injection H as ->.
Qed.

(** C3.  [isCurrentDomainWhitelisted] returns [true] exactly when the
    stored whitelist is empty, or the normalised hostname of the page
    is an entry of it, or is a subdomain ([isSubdomain]) of an entry.
    With the whitelist [example.com], [shop.example.com] is
    whitelisted and [evilexample.com] is not. *)
Theorem isCurrentDomainWhitelisted_decision :
  (forall w hostname,
      value (run storage_host (isCurrentDomainWhitelisted hostname) w)
      = Ok true
      <-> readable w
          /\ (whitelist_of w = []
              \/ exists current,
                   normalizeDomain hostname = Ok current
                   /\ (In current (whitelist_of w)
                       \/ exists entry,
                            In entry (whitelist_of w)
                            /\ isSubdomain current entry = true)))
  /\ value (run storage_host
              (isCurrentDomainWhitelisted (lit "shop.example.com"))
              (mkStorage (Some [lit "example.com"]) [])) = Ok true
  /\ value (run storage_host
              (isCurrentDomainWhitelisted (lit "evilexample.com"))
              (mkStorage (Some [lit "example.com"]) [])) = Ok false.
Proof.
  split; [|split; reflexivity].
  intros w hostname. unfold isCurrentDomainWhitelisted, await.
  destruct (hd None (faults w)) as [m|] eqn:F.
  - (* the read fails *)
    unfold readable. rewrite F.
    destruct w as [e fs]. destruct fs as [|[m'|] fs]; try discriminate.
    simpl. split; [discriminate|]. intros [H _]. discriminate.
  - assert (R : readable w) by exact F.
    destruct w as [e fs]. unfold whitelist_of. simpl entry.
    assert (E : forall k : list jsstring -> SProc (Result bool),
               run storage_host (bind getWhitelist (fun r =>
                 match r with Ok a => k a | Throw e0 => Ret (Throw e0) end))
                 (mkStorage e fs)
               = let '(r, w', t) := run storage_host
                     (k (match e with Some l => l | None => [] end))
                     (mkStorage e (tl fs)) in
                 (r, w', StorageGet :: t)).
    { intros k. unfold readable in R. simpl in R.
      destruct fs as [|[m|] fs]; try discriminate; reflexivity. }
    rewrite E. clear E.
    set (wl := match e with Some l => l | None => [] end).
    destruct wl as [|d wl'] eqn:W.
    + simpl. split; [intros _; split; [assumption|now left]|reflexivity].
    + simpl Nat.eqb. cbv iota.
      destruct (normalizeDomain hostname) as [cur|msg] eqn:N.
      * simpl. unfold value. simpl. split.
        -- intros H. injection H as H.
           apply (some_matchesEntry cur (d :: wl')) in H.
           split; [assumption|]. right. exists cur. now split.
        -- intros [_ [H|(c & Hc & H)]]; [discriminate|].
           injection Hc as <-. f_equal.
           now apply (some_matchesEntry cur (d :: wl')).
      * simpl. split; [discriminate|].
        intros [_ [H|(c & Hc & _)]]; discriminate.
Qed.


(** What one call of [addDomainToWhitelist] does, by the faults of the
    storage and the outcome of the normalisation. *)
Lemma run_addDomainToWhitelist w d :
  run storage_host (addDomainToWhitelist d) w
  = match faults w with
    | Some m :: rest => (Throw m, mkStorage (entry w) rest, [StorageGet])
    | fs =>
        match normalizeDomain d with
        | Throw e => (Throw e, mkStorage (entry w) (tl fs), [StorageGet])
        | Ok nd =>
            let wl := whitelist_of w in
            if includes wl nd
            then (Ok wl, mkStorage (entry w) (tl fs), [StorageGet])
            else
              match tl fs with
              | Some m :: rest =>
                  (Throw m, mkStorage (entry w) rest,
                   [StorageGet; StorageSet (wl ++ [nd])])
              | fs' =>
                  (Ok (wl ++ [nd]), mkStorage (Some (wl ++ [nd])) (tl fs'),
                   [StorageGet; StorageSet (wl ++ [nd])])
              end
        end
    end.
Proof.
  destruct w as [e fs]. unfold addDomainToWhitelist, whitelist_of, await.
  simpl entry. simpl faults.
  destruct fs as [|[m|] fs]; [| reflexivity |];
    (destruct (normalizeDomain d) as [nd|msg]; [|reflexivity]);
    cbn -[includes];
    (destruct (includes _ nd); [reflexivity|]);
    cbn; try reflexivity.
  destruct fs as [|[m|] fs]; reflexivity.
Qed.

Lemma run_removeDomainFromWhitelist_entry w d :
  entry (after (run storage_host (removeDomainFromWhitelist d) w)) = entry w
  \/ exists nd,
       entry (after (run storage_host (removeDomainFromWhitelist d) w))
       = Some (filter (fun x => negb (eqs x nd)) (whitelist_of w)).
Proof.
  destruct w as [e fs]. unfold removeDomainFromWhitelist, whitelist_of, await.
  simpl entry.
  destruct fs as [|[m|] fs]; [| left; reflexivity |];
    (destruct (normalizeDomain d) as [nd|msg]; [|left; reflexivity]).
  - right. exists nd. reflexivity.
  - destruct fs as [|[m|] fs]; [right; exists nd| left |right; exists nd];
      reflexivity.
Qed.

Lemma NoDup_snoc (l : list jsstring) x : NoDup l -> ~ In x l -> NoDup (l ++ [x]).
Proof.
  intros H Hx. apply NoDup_app; [assumption|repeat constructor; intros []|].
  intros a Ha [<-|[]]. contradiction.
Qed.

Lemma includes_false l x : includes l x = false <-> ~ In x l.
Proof.
  rewrite <- includes_In. destruct (includes l x); split; congruence.
Qed.

Lemma add_preserves_NoDup w d :
  NoDup (whitelist_of w) ->
  NoDup (whitelist_of (after (run storage_host (addDomainToWhitelist d) w))).
Proof.
  intros H. rewrite run_addDomainToWhitelist.
  destruct (faults w) as [|[m|] fs]; [| exact H |];
    (destruct (normalizeDomain d) as [nd|msg]; [|exact H]);
    cbv zeta;
    (destruct (includes (whitelist_of w) nd) eqn:I; [exact H|]);
    apply includes_false in I.
  - now apply NoDup_snoc.
  - destruct fs as [|[m|] fs]; [|exact H|]; now apply NoDup_snoc.
Qed.

Lemma remove_preserves_NoDup w d :
  NoDup (whitelist_of w) ->
  NoDup (whitelist_of
           (after (run storage_host (removeDomainFromWhitelist d) w))).
Proof.
  intros H.
  destruct (run_removeDomainFromWhitelist_entry w d) as [E|(nd & E)];
    unfold whitelist_of in *; rewrite E; [exact H|].
  now apply NoDup_filter.
Qed.

(** The invariant of the whitelist: no entry twice. *)
Lemma reachable_NoDup w : reachable w -> NoDup (whitelist_of w).
Proof.
  induction 1 as [fs|w fs _ IH|w op _ IH].
  - constructor.
  - exact IH.
  - destruct op; [now apply add_preserves_NoDup
                 |now apply remove_preserves_NoDup].
Qed.

Lemma count_occ_present (l : list jsstring) x :
  NoDup l -> In x l -> count_occ (list_eq_dec ascii_dec) l x = 1.
Proof.
  intros N I.
  pose proof (proj1 (NoDup_count_occ (list_eq_dec ascii_dec) l) N x).
  pose proof (proj1 (count_occ_In (list_eq_dec ascii_dec) l x) I). lia.
Qed.

Lemma count_occ_snoc (l : list jsstring) x :
  ~ In x l -> count_occ (list_eq_dec ascii_dec) (l ++ [x]) x = 1.
Proof.
  intros I. rewrite count_occ_app.
  rewrite (proj1 (count_occ_not_In (list_eq_dec ascii_dec) l x) I).
  simpl. destruct (list_eq_dec ascii_dec x x); congruence.
Qed.


(** A call of [addDomainToWhitelist] that returns. *)
Lemma add_returns w d l :
  value (run storage_host (addDomainToWhitelist d) w) = Ok l ->
  exists nd,
    normalizeDomain d = Ok nd
    /\ whitelist_of (after (run storage_host (addDomainToWhitelist d) w)) = l
    /\ In nd l
    /\ ((In nd (whitelist_of w) /\ l = whitelist_of w
         /\ calls (run storage_host (addDomainToWhitelist d) w) = [StorageGet])
        \/ (~ In nd (whitelist_of w) /\ l = whitelist_of w ++ [nd])).
Proof.
  rewrite run_addDomainToWhitelist.
  destruct (faults w) as [|[m|] fs]; [| discriminate |];
    (destruct (normalizeDomain d) as [nd|msg]; [|discriminate]);
    cbv zeta;
    (destruct (includes (whitelist_of w) nd) eqn:I;
     [apply includes_In in I; intros H; injection H as <-;
      exists nd; split; [reflexivity|]; split; [reflexivity|];
      split; [assumption|]; left; repeat split; assumption
     |apply includes_false in I]).
  - intros H. injection H as <-. exists nd.
    split; [reflexivity|]. split; [reflexivity|].
    split; [apply in_or_app; right; now left|]. right. now split.
  - destruct fs as [|[m|] fs]; [|discriminate|];
      intros H; injection H as <-; exists nd;
      (split; [reflexivity|]); (split; [reflexivity|]);
      (split; [apply in_or_app; right; now left|]); right; now split.
Qed.

(** With a storage that does not fail, a call on a valid domain
    returns. *)
Lemma add_total w d nd :
  faults w = [] -> normalizeDomain d = Ok nd ->
  value (run storage_host (addDomainToWhitelist d) w)
  = Ok (if includes (whitelist_of w) nd then whitelist_of w
        else whitelist_of w ++ [nd])
  /\ faults (after (run storage_host (addDomainToWhitelist d) w)) = [].
Proof.
  intros F N. rewrite run_addDomainToWhitelist, F, N. cbv zeta.
  destruct (includes (whitelist_of w) nd); split; reflexivity.
Qed.

(** C6.  [addDomainToWhitelist] reads the whitelist, normalises its
    argument (an invalid domain is the error of the call, and nothing
    is stored), appends the normalised domain only when it is not
    there yet, stores the list and returns it.  Adding a domain twice
    gives the list of the first call again and the second call stores
    nothing; the list holds the normalised domain, once when the
    whitelist had no entry twice (one entry when it was empty), and
    no whitelist that the extension can reach has an entry twice. *)
Theorem addDomainToWhitelist_idempotent (w : Storage) (d : jsstring) :
  let r1 := run storage_host (addDomainToWhitelist d) w in
  let r2 := run storage_host (addDomainToWhitelist d) (after r1) in
  (reachable w -> NoDup (whitelist_of w))
  /\ (forall m,
         readable w -> normalizeDomain d = Throw m ->
         value r1 = Throw m /\ entry (after r1) = entry w
         /\ calls r1 = [StorageGet])
  /\ (forall nd,
         faults w = [] -> normalizeDomain d = Ok nd ->
         value r1 = Ok (if includes (whitelist_of w) nd then whitelist_of w
                        else whitelist_of w ++ [nd])
         /\ value r2 = value r1)
  /\ (forall nd l1 l2,
         normalizeDomain d = Ok nd -> value r1 = Ok l1 -> value r2 = Ok l2 ->
         l2 = l1
         /\ whitelist_of (after r2) = l1
         /\ calls r2 = [StorageGet]
         /\ In nd l1
         /\ (whitelist_of w = [] -> l1 = [nd])
         /\ (NoDup (whitelist_of w) ->
             count_occ (list_eq_dec ascii_dec) l1 nd = 1 /\ NoDup l1)).
Proof.
  intros r1 r2.
  split; [apply reachable_NoDup|]. split; [|split].
  - intros m Hr Hm. subst r1. rewrite run_addDomainToWhitelist, Hm.
    unfold readable in Hr.
    destruct (faults w) as [|[m'|] fs]; try discriminate; now repeat split.
  - intros nd F Hn.
    destruct (add_total w d nd F Hn) as [V1 F1].
    fold r1 in V1, F1. split; [exact V1|].
    destruct (add_total (after r1) d nd F1 Hn) as [V2 _].
    fold r2 in V2. rewrite V2, V1.
    assert (W1 : whitelist_of (after r1)
                 = if includes (whitelist_of w) nd then whitelist_of w
                   else whitelist_of w ++ [nd]).
    { destruct (add_returns w d _ V1) as (nd' & _ & W & _). exact W. }
    rewrite W1.
    destruct (includes (whitelist_of w) nd) eqn:I; [now rewrite I|].
    assert (I' : includes (whitelist_of w ++ [nd]) nd = true).
    { apply includes_In, in_or_app. right. now left. }
    now rewrite I'.
  - intros nd l1 l2 Hn V1 V2.
    destruct (add_returns w d l1 V1) as (nd1 & Hn1 & W1 & In1 & C1).
    fold r1 in W1. rewrite Hn in Hn1. injection Hn1 as <-.
    destruct (add_returns (after r1) d l2 V2) as (nd2 & Hn2 & W2 & In2 & C2).
    fold r2 in W2, C2. rewrite Hn in Hn2. injection Hn2 as <-.
    rewrite W1 in C2.
    destruct C2 as [(_ & E2 & K2)|(Nin & _)]; [|contradiction].
    split; [exact E2|]. split; [now rewrite W2|]. split; [exact K2|].
    split; [exact In1|].
    destruct C1 as [(I1 & -> & _)|(I1 & ->)].
    + split; [intros E; rewrite E in I1; destruct I1|].
      intros N. split; [now apply count_occ_present|exact N].
    + split; [intros E; now rewrite E|].
      intros N. split; [now apply count_occ_snoc|now apply NoDup_snoc].
Qed.

Lemma addDomainToWhitelist_idempotent_witness :
  value (run storage_host (addDomainToWhitelist (lit "Example.com"))
           (after (run storage_host
                     (addDomainToWhitelist (lit "Example.com"))
                     (mkStorage None []))))
  = Ok [lit "example.com"].
Proof.
  destruct (addDomainToWhitelist_idempotent (mkStorage None [])
              (lit "Example.com"))
    as (_ & _ & H & _).
  destruct (H (lit "example.com") eq_refl eq_refl) as [V1 V2].
  rewrite V2, V1. reflexivity.
Defined.

End WhitelistClaims.

(** ** The cookie access proxy *)

Section ProxyClaims.
Import Async Protocol Background.

(** A program that has finished makes no call, whatever the host. *)
Lemma run_Ret {C : Type} {ans : C -> Type} {W R : Type}
  (host : forall c : C, W -> ans c * W) (r : R) (w : W) :
  run host (Ret r) w = (r, w, []).
Proof. reflexivity. Qed.

(** C1.  When the URL of the sender's tab and the URL of the request
    both have an origin and the two origins differ, the proxy answers
    [{success: false, error: 'Origin mismatch'}] without a single call
    to the cookie store (nor to any other API of the browser),
    whatever the type of the request. *)
Theorem origin_mismatch_rejected
  (api : URLApi) (request : Request) (sender : Sender)
  (tab : Tab) (senderHref : jsstring) (senderUrl requestUrl : URL) :
  sender_tab sender = Some tab ->
  tab_url tab = Some senderHref ->
  parse api senderHref = Some senderUrl ->
  parse api (req_url request) = Some requestUrl ->
  origin senderUrl <> origin requestUrl ->
  onMessage api request sender = Ret (failure (lit "Origin mismatch"))
  /\ forall (W : Type) (chrome : forall c : Call, W -> answer c * W) (w : W),
       value (run chrome (onMessage api request sender) w)
       = mkResponse false (Some (lit "Origin mismatch")) None None None
       /\ calls (run chrome (onMessage api request sender) w) = []
       /\ after (run chrome (onMessage api request sender) w) = w.
Proof.
  intros Ht Hu Hs Hr Ho.
  assert (E : onMessage api request sender
              = Ret (failure (lit "Origin mismatch"))).
  { unfold onMessage. rewrite Ht, Hu.
    destruct senderHref as [|c href].
    - rewrite (parse_empty api) in Hs. discriminate.
    - rewrite Hs, Hr. apply eqs_false in Ho. now rewrite Ho. }
  split; [exact E|]. intros W chrome w. rewrite E. now repeat split.
Qed.

Lemma origin_mismatch_rejected_witness :
  onMessage demo_api set_at_bank (from_href (lit "https://evil.example/x"))
  = Ret (failure (lit "Origin mismatch"))
  /\ forall (W : Type) (chrome : forall c : Call, W -> answer c * W) (w : W),
       value (run chrome (onMessage demo_api set_at_bank
                            (from_href (lit "https://evil.example/x"))) w)
       = mkResponse false (Some (lit "Origin mismatch")) None None None
       /\ calls (run chrome (onMessage demo_api set_at_bank
                               (from_href (lit "https://evil.example/x"))) w)
          = []
       /\ after (run chrome (onMessage demo_api set_at_bank
                               (from_href (lit "https://evil.example/x"))) w)
          = w.
Proof.
  apply (origin_mismatch_rejected demo_api set_at_bank
           (from_href (lit "https://evil.example/x"))
           (mkTab 1 (Some (lit "https://evil.example/x")))
           (lit "https://evil.example/x")
           (mkURL (lit "https://evil.example") (lit "evil.example")
                  (lit "https:"))
           (mkURL (lit "https://bank.example") (lit "bank.example")
                  (lit "https:")));
    try reflexivity.
  vm_compute. discriminate.
Defined.

Lemma dispatch_unknown api request :
  unknown_type request ->
  dispatch api request = Ret (Ok (failure (lit "Unknown message type"))).
Proof.
  intros (H1 & H2 & H3). unfold dispatch.
  apply eqs_false in H1, H2, H3. now rewrite H1, H2, H3.
Qed.

(** C9 (as amended).  A request whose type is none of [GET_COOKIE],
    [SET_COOKIE], [GET_ALL_COOKIES] makes the proxy call nothing.  When
    the request passes the validation of the sender and of the origins
    the answer is [{success: false, error: 'Unknown message type'}],
    and only then.  Otherwise the answer is the error of the step of
    the validation that failed: 'Invalid sender' when the sender has no
    tab URL, 'Invalid URL format' when one of the two URLs does not
    parse, 'Origin mismatch' when the two origins differ. *)
Theorem unknown_type_no_operation
  (api : URLApi) (request : Request) (sender : Sender) :
  unknown_type request ->
  (forall (W : Type) (chrome : forall c : Call, W -> answer c * W) (w : W),
      calls (run chrome (onMessage api request sender) w) = []
      /\ after (run chrome (onMessage api request sender) w) = w)
  /\ (validated api request sender ->
      onMessage api request sender
      = Ret (failure (lit "Unknown message type")))
  /\ (exists e,
         onMessage api request sender = Ret (failure e)
         /\ In e [lit "Invalid sender"; lit "Invalid URL format";
                  lit "Origin mismatch"; lit "Unknown message type"])
  /\ (ProxyShapes.no_sender_url sender ->
      onMessage api request sender = Ret (failure (lit "Invalid sender")))
  /\ (forall tab senderHref,
         sender_tab sender = Some tab ->
         tab_url tab = Some senderHref ->
         senderHref <> [] ->
         parse api senderHref = None
         \/ parse api (req_url request) = None ->
         onMessage api request sender
         = Ret (failure (lit "Invalid URL format")))
  /\ (forall tab senderHref senderUrl requestUrl,
         sender_tab sender = Some tab ->
         tab_url tab = Some senderHref ->
         parse api senderHref = Some senderUrl ->
         parse api (req_url request) = Some requestUrl ->
         origin senderUrl <> origin requestUrl ->
         onMessage api request sender
         = Ret (failure (lit "Origin mismatch")))
  /\ (~ validated api request sender ->
      exists e,
        In e ProxyShapes.validation_errors
        /\ onMessage api request sender = Ret (failure e))
  /\ (onMessage api request sender
      = Ret (failure (lit "Unknown message type")) ->
      validated api request sender).
Proof.
  intros U.
  assert (D : forall e e' : jsstring,
             @Ret Call answer Response (failure e) = Ret (failure e') ->
             e = e')
    by (intros e e' H; now injection H).
  assert (V : validated api request sender
              \/ exists e,
                   In e ProxyShapes.validation_errors
                   /\ onMessage api request sender = Ret (failure e)).
  { unfold onMessage, ProxyShapes.validation_errors.
    destruct (sender_tab sender) as [tab|] eqn:Ht;
      [|right; eexists; split; [|reflexivity]; simpl; tauto].
    destruct (tab_url tab) as [[|c href]|] eqn:Hu;
      try (right; eexists; split; [|reflexivity]; simpl; tauto).
    destruct (parse api (c :: href)) as [su|] eqn:Hs;
      [|right; eexists; split; [|reflexivity]; simpl; tauto].
    destruct (parse api (req_url request)) as [ru|] eqn:Hr;
      [|right; eexists; split; [|reflexivity]; simpl; tauto].
    destruct (eqs (origin su) (origin ru)) eqn:Ho.
    - left. exists tab, (c :: href), su, ru.
      apply eqs_true in Ho. now repeat split.
    - right. eexists. split; [|reflexivity]. simpl; tauto. }
  assert (K : validated api request sender ->
              onMessage api request sender
              = Ret (failure (lit "Unknown message type"))).
  { intros (tab & href & su & ru & Ht & Hu & Hs & Hr & Ho).
    unfold onMessage. rewrite Ht, Hu.
    destruct href as [|c href].
    + rewrite (parse_empty api) in Hs. discriminate.
    + rewrite Hs, Hr, Ho, eqs_refl. simpl.
      now rewrite (dispatch_unknown api request U). }
  assert (E : exists e,
             onMessage api request sender = Ret (failure e)
             /\ In e [lit "Invalid sender"; lit "Invalid URL format";
                      lit "Origin mismatch"; lit "Unknown message type"]).
  { destruct V as [Hv|(e & He & ->)].
    - rewrite (K Hv). eexists. split; [reflexivity|simpl; tauto].
    - exists e. split; [reflexivity|].
      unfold ProxyShapes.validation_errors in He. simpl in He |- *. tauto. }
  split; [|split; [exact K|split; [exact E|]]].
  { intros W chrome w. destruct E as (e & -> & _). now split. }
  split.
  { unfold ProxyShapes.no_sender_url, onMessage.
    destruct (sender_tab sender) as [tab|]; [|reflexivity].
    destruct (tab_url tab) as [[|c href]|]; try reflexivity.
    intros []. }
  split.
  { intros tab href Ht Hu Hn P. unfold onMessage. rewrite Ht, Hu.
    destruct href as [|c href]; [congruence|].
    destruct P as [P|P]; rewrite P; [reflexivity|].
    now destruct (parse api (c :: href)). }
  split.
  { intros tab href su ru Ht Hu Hs Hr Ho. unfold onMessage. rewrite Ht, Hu.
    destruct href as [|c href].
    - rewrite (parse_empty api) in Hs. discriminate.
    - rewrite Hs, Hr. apply eqs_false in Ho. now rewrite Ho. }
  split.
  { intros N. destruct V as [Hv|V]; [contradiction|exact V]. }
  intros A. destruct V as [Hv|(e & He & B)]; [exact Hv|].
  rewrite B in A. apply D in A. subst e.
  unfold ProxyShapes.validation_errors in He. simpl in He.
  destruct He as [H|[H|[H|[]]]]; vm_compute in H; discriminate.
Qed.

Lemma unknown_type_no_operation_witness :
  unknown_type ping
  /\ onMessage demo_api ping (from_href (lit "https://a.example/p"))
     = Ret (failure (lit "Unknown message type")).
Proof.
  assert (U : unknown_type ping)
    by (repeat split; vm_compute; discriminate).
  split; [exact U|].
  destruct (unknown_type_no_operation demo_api ping
              (from_href (lit "https://a.example/p")) U) as (_ & H & _).
  apply H.
  exists (mkTab 1 (Some (lit "https://a.example/p"))),
    (lit "https://a.example/p"),
    (mkURL (lit "https://a.example") (lit "a.example") (lit "https:")),
    (mkURL (lit "https://a.example") (lit "a.example") (lit "https:")).
  repeat split.
Defined.

(** C9, the claim as it stands: a request of an unknown type from a
    sender without a tab is answered 'Invalid sender', and one for
    another origin 'Origin mismatch'. *)
Lemma unknown_type_other_answers :
  unknown_type ping
  /\ onMessage demo_api ping (mkSender None)
     = Ret (failure (lit "Invalid sender"))
  /\ onMessage demo_api ping (from_href (lit "https://b.example/p"))
     = Ret (failure (lit "Origin mismatch"))
  /\ failure (lit "Invalid sender") <> failure (lit "Unknown message type")
  /\ failure (lit "Origin mismatch") <> failure (lit "Unknown message type").
Proof.
  split; [repeat split; vm_compute; discriminate|].
  split; [reflexivity|]. split; [reflexivity|].
  split; vm_compute; discriminate.
Qed.

End ProxyClaims.

(** ** The page side of the channel *)

Section ChannelClaims.
Import Async Protocol CookieManager.

Lemma delivery_cases d : delivery_failed d \/ delivered d.
Proof.
  destruct d as [|[e|] [r|]]; simpl; auto.
  destruct (success r) eqn:S; [right|left; reflexivity].
  now exists r.
Qed.


(** What [sendMessageToBackground] resolves to. *)
Lemma send_delivered message timeout response rest :
  success response = true ->
  run scripted_channel (sendMessageToBackground message timeout)
      (Callback None (Some response) :: rest)
  = (Ok response, rest, [SendMessage message timeout]).
Proof. intros S. simpl. now rewrite S. Qed.

Lemma send_failed message timeout d rest :
  delivery_failed d ->
  exists e,
    run scripted_channel (sendMessageToBackground message timeout) (d :: rest)
    = (Throw e, rest, [SendMessage message timeout]).
Proof.
  destruct d as [|[e|] [r|]]; simpl; intros F; try (eexists; reflexivity).
  rewrite F. eexists; reflexivity.
Qed.

Lemma send_run message timeout d rest :
  run scripted_channel (sendMessageToBackground message timeout) (d :: rest)
  = (value (run scripted_channel
              (sendMessageToBackground message timeout) [d]),
     rest, [SendMessage message timeout]).
Proof. reflexivity. Qed.

Lemma send_value_failed message timeout d :
  delivery_failed d ->
  exists e,
    value (run scripted_channel
             (sendMessageToBackground message timeout) [d]) = Throw e.
Proof.
  intros F. destruct (send_failed message timeout d [] F) as (e & E).
  exists e. now rewrite E.
Qed.

Lemma known_device_In v : known_device (Some v) = true <-> In v DEVICE_TYPES.
Proof. apply includes_In. Qed.

(** What [getCurrentDevice] makes of the cookies of the page. *)
Lemma getCurrentDevice_delivered url response cs rest :
  success response = true -> cookies response = Some cs ->
  run scripted_channel (getCurrentDevice url)
      (Callback None (Some response) :: rest)
  = (Ok (let v := or_else
                    (or_else (value_of (find (named (lit "deviceoutput")) cs))
                             (value_of (find (named (lit "devicetype")) cs)))
                    None in
         if known_device v then v else None),
     rest,
     [SendMessage (mkRequest GET_ALL_COOKIES url [] []) MESSAGE_TIMEOUT_MS]).
Proof.
  intros S C. unfold getCurrentDevice, try_catch, await.
  cbn -[find or_else known_device named lit]. rewrite S.
  cbn -[find or_else known_device named lit]. rewrite C.
  destruct (known_device _); reflexivity.
Qed.

(** C7.  [getCurrentDevice] asks the proxy for the cookies of the
    current URL and takes the value of the [deviceoutput] cookie, or
    that of the [devicetype] cookie when there is no [deviceoutput]
    cookie; it returns the value when it is [desktop], [mobile] or
    [app], and [null] when it is anything else or when neither cookie
    is set. *)
Theorem getCurrentDevice_decision
  (url : jsstring) (response : Response) (cs : list Cookie)
  (rest : list Delivery) :
  success response = true ->
  cookies response = Some cs ->
  let r := run scripted_channel (getCurrentDevice url)
               (Callback None (Some response) :: rest) in
  let deviceOutput := value_of (find (named (lit "deviceoutput")) cs) in
  let deviceType := value_of (find (named (lit "devicetype")) cs) in
  calls r
  = [SendMessage (mkRequest GET_ALL_COOKIES url [] []) MESSAGE_TIMEOUT_MS]
  /\ (forall v, deviceOutput = Some v -> v <> [] ->
                value r = Ok (if includes DEVICE_TYPES v then Some v
                              else None))
  /\ (forall v, deviceOutput = None -> deviceType = Some v ->
                value r = Ok (if includes DEVICE_TYPES v then Some v
                              else None))
  /\ (deviceOutput = None -> deviceType = None -> value r = Ok None)
  /\ (forall v, value r = Ok (Some v) ->
                v = lit "desktop" \/ v = lit "mobile" \/ v = lit "app").
Proof.
  intros S C r deviceOutput deviceType. subst r.
  rewrite (getCurrentDevice_delivered url response cs rest S C).
  fold deviceOutput deviceType. unfold value, calls. cbn [fst snd].
  split; [reflexivity|]. split; [|split; [|split]].
  - intros v -> Hv. destruct v as [|c v]; [congruence|]. reflexivity.
  - intros v -> ->. destruct v as [|c v]; reflexivity.
  - intros -> ->. reflexivity.
  - intros v H. injection H as H.
    destruct (known_device _) eqn:K; [|discriminate].
    rewrite H in K. apply known_device_In in K.
    simpl in K. intuition.
Qed.

Lemma getCurrentDevice_decision_witness :
  success (cookies_response
             [plain_cookie (lit "devicetype") (lit "app");
              plain_cookie (lit "deviceoutput") (lit "mobile")]) = true
  /\ value (run scripted_channel (getCurrentDevice (lit "https://a.example/"))
              [Callback None
                 (Some (cookies_response
                          [plain_cookie (lit "devicetype") (lit "app");
                           plain_cookie (lit "deviceoutput") (lit "mobile")]))])
     = Ok (Some (lit "mobile")).
Proof.
  split; [reflexivity|].
  destruct (getCurrentDevice_decision (lit "https://a.example/")
              (cookies_response
                 [plain_cookie (lit "devicetype") (lit "app");
                  plain_cookie (lit "deviceoutput") (lit "mobile")])
              [plain_cookie (lit "devicetype") (lit "app");
               plain_cookie (lit "deviceoutput") (lit "mobile")]
              [] eq_refl eq_refl) as (_ & H & _).
  rewrite (H (lit "mobile") eq_refl); [reflexivity|discriminate].
Defined.


(** The three cases of [setDeviceType] on a known device type. *)
Lemma run_setDeviceType url t d1 d2 rest :
  In t DEVICE_TYPES ->
  run scripted_channel (setDeviceType url t) (d1 :: d2 :: rest)
  = match run scripted_channel
            (sendMessageToBackground
               (mkRequest SET_COOKIE url (lit "deviceoutput") t)
               MESSAGE_TIMEOUT_MS) (d1 :: d2 :: rest) with
    | (Throw e, w, c) => (Throw e, w, c)
    | (Ok _, w, c) =>
        match run scripted_channel
                (sendMessageToBackground
                   (mkRequest SET_COOKIE url (lit "devicetype") t)
                   MESSAGE_TIMEOUT_MS) w with
        | (Throw e, w', c') => (Throw e, w', c ++ c')
        | (Ok _, w', c') => (Ok true, w', c ++ c')
        end
    end.
Proof.
  intros K. apply includes_In in K. unfold setDeviceType. rewrite K.
  cbn [negb]. unfold try_catch, await.
  destruct d1 as [|[e1|] [r1|]]; try reflexivity.
  cbn -[lit MESSAGE_TIMEOUT_MS append app].
  destruct (success r1); [|reflexivity].
  cbn -[lit MESSAGE_TIMEOUT_MS append app].
  destruct d2 as [|[e2|] [r2|]]; try reflexivity.
  cbn -[lit MESSAGE_TIMEOUT_MS append app].
  destruct (success r2); reflexivity.
Qed.

(** The page side of [setDeviceType] on [desktop], [mobile] or [app]:
    it sends the request for the [deviceoutput] cookie and then the
    request for the [devicetype] cookie, both with the given value and
    the URL of the page.  It returns [true] only when both requests are
    answered with success; the failure of the first, and the failure
    of the second after the first has succeeded, is the error of the
    call. *)
Lemma setDeviceType_page_side
  (url t : jsstring) (d1 d2 : Delivery) (rest : list Delivery) :
  In t DEVICE_TYPES ->
  let r := run scripted_channel (setDeviceType url t) (d1 :: d2 :: rest) in
  let first := set_message url (lit "deviceoutput") t in
  let second := set_message url (lit "devicetype") t in
  (delivered d1 -> delivered d2 ->
   value r = Ok true /\ calls r = [first; second])
  /\ (delivery_failed d1 ->
      exists e,
        value (run scripted_channel
                 (sendMessageToBackground
                    (mkRequest SET_COOKIE url (lit "deviceoutput") t)
                    MESSAGE_TIMEOUT_MS) [d1]) = Throw e
        /\ value r = Throw e /\ calls r = [first])
  /\ (delivered d1 -> delivery_failed d2 ->
      exists e,
        value (run scripted_channel
                 (sendMessageToBackground
                    (mkRequest SET_COOKIE url (lit "devicetype") t)
                    MESSAGE_TIMEOUT_MS) [d2]) = Throw e
        /\ value r = Throw e /\ calls r = [first; second])
  /\ (value r = Ok true <-> delivered d1 /\ delivered d2).
Proof.
  intros K r first second. subst r.
  rewrite (run_setDeviceType url t d1 d2 rest K).
  rewrite (send_run _ _ d1 (d2 :: rest)).
  split; [|split; [|split]].
  - intros (r1 & -> & S1) (r2 & -> & S2).
    rewrite (send_delivered _ _ r1 [] S1). cbn [value fst].
    rewrite (send_delivered _ _ r2 rest S2). now split.
  - intros F.
    destruct (send_value_failed
                (mkRequest SET_COOKIE url (lit "deviceoutput") t)
                MESSAGE_TIMEOUT_MS d1 F) as (e & E).
    exists e. rewrite E. now repeat split.
  - intros (r1 & -> & S1) F.
    rewrite (send_delivered _ _ r1 [] S1). cbn [value fst].
    rewrite (send_run _ _ d2 rest).
    destruct (send_value_failed
                (mkRequest SET_COOKIE url (lit "devicetype") t)
                MESSAGE_TIMEOUT_MS d2 F) as (e & E).
    exists e. rewrite E. now repeat split.
  - split.
    + intros V.
      destruct (delivery_cases d1) as [F1|D1].
      * destruct (send_value_failed
                    (mkRequest SET_COOKIE url (lit "deviceoutput") t)
                    MESSAGE_TIMEOUT_MS d1 F1) as (e & E).
        rewrite E in V. discriminate.
      * destruct (delivery_cases d2) as [F2|D2]; [|now split].
        destruct D1 as (r1 & -> & S1).
        rewrite (send_delivered _ _ r1 [] S1) in V. cbn [value fst] in V.
        rewrite (send_run _ _ d2 rest) in V.
        destruct (send_value_failed
                    (mkRequest SET_COOKIE url (lit "devicetype") t)
                    MESSAGE_TIMEOUT_MS d2 F2) as (e & E).
        rewrite E in V. discriminate.
    + intros [(r1 & -> & S1) (r2 & -> & S2)].
      rewrite (send_delivered _ _ r1 [] S1). cbn [value fst].
      now rewrite (send_delivered _ _ r2 rest S2).
Qed.

Lemma setDeviceType_page_side_witness :
  In (lit "mobile") DEVICE_TYPES
  /\ exists e,
       value (run scripted_channel
                (setDeviceType (lit "https://a.example/") (lit "mobile"))
                [Callback None (Some (cookie_response None));
                 Callback None (Some (failure (lit "No host permission")))])
       = Throw e.
Proof.
  assert (K : In (lit "mobile") DEVICE_TYPES) by (simpl; tauto).
  split; [exact K|].
  destruct (setDeviceType_page_side (lit "https://a.example/")
              (lit "mobile")
              (Callback None (Some (cookie_response None)))
              (Callback None (Some (failure (lit "No host permission"))))
              [] K) as (_ & _ & H & _).
  destruct H as (e & _ & V & _).
  - now exists (cookie_response None).
  - reflexivity.
  - now exists e.
Defined.

(** C10.  [getCurrentDevice] and [getCookie] never throw.  When the
    channel or the proxy fails (timeout, runtime error, no response, a
    response without success) each returns [null].  A cookie whose
    value is the empty string counts as absent: [getCookie] returns
    [null] for it, and [getCurrentDevice] goes on from an empty
    [deviceoutput] cookie to the [devicetype] cookie. *)
Theorem readers_never_throw
  (url name : jsstring) (d : Delivery) (rest : list Delivery) :
  let device := value (run scripted_channel (getCurrentDevice url) (d :: rest)) in
  let cookie := value (run scripted_channel (getCookie url name) (d :: rest)) in
  (exists v, device = Ok v)
  /\ (exists v, cookie = Ok v)
  /\ (delivery_failed d -> device = Ok None /\ cookie = Ok None)
  /\ (forall response c,
         d = Callback None (Some response) -> success response = true ->
         Protocol.cookie response = Some c -> cookie_value c = [] ->
         cookie = Ok None)
  /\ (forall response cs out ty,
         d = Callback None (Some response) -> success response = true ->
         cookies response = Some cs ->
         find (named (lit "deviceoutput")) cs = Some out ->
         cookie_value out = [] ->
         find (named (lit "devicetype")) cs = Some ty ->
         device = Ok (if includes DEVICE_TYPES (cookie_value ty)
                      then Some (cookie_value ty) else None)).
Proof.
  intros device cookie.
  assert (F : delivery_failed d -> device = Ok None /\ cookie = Ok None).
  { subst device cookie. destruct d as [|[e|] [r|]]; simpl; intros H;
      try (split; reflexivity).
    rewrite H. split; reflexivity. }
  assert (G : forall response,
             d = Callback None (Some response) -> success response = true ->
             cookie = Ok (or_else (value_of (Protocol.cookie response)) None)).
  { intros response -> S. subst cookie.
    unfold getCookie, try_catch, await.
    cbn -[or_else value_of lit]. rewrite S. reflexivity. }
  split; [|split; [|split; [exact F|split]]].
  - destruct (delivery_cases d) as [H|(r & E & S)].
    + exists None. now apply F.
    + subst d device. unfold getCurrentDevice, try_catch, await.
      cbn -[find or_else known_device named lit]. rewrite S.
      cbn -[find or_else known_device named lit].
      destruct (cookies r); [|now eexists].
      destruct (known_device _); now eexists.
  - destruct (delivery_cases d) as [H|(r & E & S)].
    + exists None. now apply F.
    + rewrite (G r E S). now eexists.
  - intros response c E S C V. rewrite (G response E S), C.
    simpl. now rewrite V.
  - intros response cs out ty -> S C O V T. subst device.
    rewrite (getCurrentDevice_delivered url response cs rest S C).
    unfold value. cbn [fst]. rewrite O, T. simpl value_of. rewrite V.
    cbn [or_else]. destruct (cookie_value ty) as [|c v]; reflexivity.
Qed.

End ChannelClaims.

(** ** The page and the proxy together *)

Section EndToEndFacts.
Import Async Protocol Background.
Variable api : URLApi.
Variable W : Type.
Variable chrome : forall c : Call, W -> answer c * W.

Lemma run_bind {A B : Type} (p : BProc A) (f : A -> BProc B) (w : W) :
  run chrome (bind p f) w
  = let '(a, w1, t1) := run chrome p w in
    let '(b, w2, t2) := run chrome (f a) w1 in
    (b, w2, t1 ++ t2).
Proof.
  revert w. induction p as [a|c k IH]; intros w; simpl.
  - now destruct (run chrome (f a) w) as [[b w2] t2].
  - destruct (chrome c w) as [x w1]. rewrite IH.
    destruct (run chrome (k x) w1) as [[a w2] t1].
    now destruct (run chrome (f a) w2) as [[b w3] t2].
Qed.

(** The notifications never touch the cookie store. *)
Lemma sendAll_no_cookie_call url tabs w :
  filter is_cookie_call (calls (run chrome (sendAll url tabs) w)) = [].
Proof.
  revert w. induction tabs as [|tab tabs IH]; intros w; [reflexivity|].
  simpl. destruct (chrome (TabsSendMessage (tab_id tab) url) w) as [x w1].
  specialize (IH w1).
  destruct (run chrome (sendAll url tabs) w1) as [[r w2] t]. exact IH.
Qed.

Lemma notify_no_cookie_call url w :
  filter is_cookie_call (calls (run chrome (notifyTabsOfChange api url) w))
  = [].
Proof.
  unfold notifyTabsOfChange. destruct (parse api url) as [u|]; [|reflexivity].
  simpl. destruct (chrome TabsQuery w) as [[tabs|e] w1]; [|reflexivity].
  pose proof (sendAll_no_cookie_call url (filter (same_origin_tab api u) tabs) w1)
    as H.
  destruct (run chrome (sendAll url _) w1) as [[r w2] t]. exact H.
Qed.

(** A validated [SET_COOKIE] request removes the cookie, sets it, and
    answers with success exactly when the browser has set it. *)
Lemma onMessage_set_cookie request sender u w :
  validated api request sender ->
  req_type request = SET_COOKIE ->
  parse api (req_url request) = Some u ->
  filter is_cookie_call (calls (run chrome (onMessage api request sender) w))
  = EndToEnd.writes (req_url request) u (req_name request) (req_value request)
  /\ (success (value (run chrome (onMessage api request sender) w)) = true
      -> exists k w1,
           chrome (CookiesSet
                     {| set_url := req_url request;
                        set_name := req_name request;
                        set_value := req_value request;
                        set_domain := hostname u;
                        set_path := lit "/";
                        set_secure := eqs (protocol u) (lit "https:");
                        set_sameSite := lit "lax" |})
                  (snd (chrome (CookiesRemove (req_url request)
                                              (req_name request)) w))
           = (Ok k, w1)).
Proof.
  intros (tab & href & su & ru & Ht & Hu & Hs & Hr & Ho) T P.
  unfold onMessage. rewrite Ht, Hu.
  destruct href as [|c href];
    [rewrite (parse_empty api) in Hs; discriminate|].
  rewrite Hs, Hr, Ho, eqs_refl. cbn [negb].
  unfold dispatch. rewrite T. cbn [eqs].
  replace (eqs SET_COOKIE GET_COOKIE) with false by reflexivity.
  rewrite eqs_refl. unfold setCookie. rewrite P.
  unfold await, call. cbn [bind run].
  destruct (chrome (CookiesRemove (req_url request) (req_name request)) w)
    as [x w1]. cbn [snd].
  destruct (chrome (CookiesSet _) w1) as [[k|e] w2].
  - cbn [bind]. rewrite !run_bind.
    pose proof (notify_no_cookie_call (req_url request) w2) as N.
    destruct (run chrome (notifyTabsOfChange api (req_url request)) w2)
      as [[r w3] t].
    cbn [run]. unfold calls, value in *. cbn [fst snd] in *.
    rewrite !app_nil_r. cbn [filter is_cookie_call]. rewrite N.
    split; [reflexivity|]. intros _. now exists k, w2.
  - cbn [bind run]. unfold calls, value. cbn [fst snd success failure].
    split; [reflexivity|discriminate].
Qed.


(** [setDeviceType] against any channel. *)
Lemma run_setDeviceType_any {X : Type}
  (h : forall c : CookieManager.ChannelCall, X -> CookieManager.channel_ans c * X)
  (url t : jsstring) (x : X) :
  In t CookieManager.DEVICE_TYPES ->
  run h (CookieManager.setDeviceType url t) x
  = let (d1, x1) := h (CookieManager.set_message url (lit "deviceoutput") t) x in
    match CookieManager.settle
            (mkRequest SET_COOKIE url (lit "deviceoutput") t)
            CookieManager.MESSAGE_TIMEOUT_MS d1 with
    | Throw e => (Throw e, x1, [CookieManager.set_message url (lit "deviceoutput") t])
    | Ok _ =>
        let (d2, x2) := h (CookieManager.set_message url (lit "devicetype") t) x1 in
        match CookieManager.settle
                (mkRequest SET_COOKIE url (lit "devicetype") t)
                CookieManager.MESSAGE_TIMEOUT_MS d2 with
        | Throw e =>
            (Throw e, x2,
             [CookieManager.set_message url (lit "deviceoutput") t;
              CookieManager.set_message url (lit "devicetype") t])
        | Ok _ =>
            (Ok true, x2,
             [CookieManager.set_message url (lit "deviceoutput") t;
              CookieManager.set_message url (lit "devicetype") t])
        end
    end.
Proof.
  intros K. apply includes_In in K.
  unfold CookieManager.setDeviceType. rewrite K. cbn [negb].
  unfold try_catch, await, CookieManager.sendMessageToBackground,
    CookieManager.set_message.
  cbn [bind run].
  destruct (h (CookieManager.SendMessage
                 (mkRequest SET_COOKIE url (lit "deviceoutput") t)
                 CookieManager.MESSAGE_TIMEOUT_MS) x) as [d1 x1].
  destruct (CookieManager.settle _ _ d1) as [r1|e1]; [|reflexivity].
  cbn [bind run].
  destruct (h (CookieManager.SendMessage
                 (mkRequest SET_COOKIE url (lit "devicetype") t)
                 CookieManager.MESSAGE_TIMEOUT_MS) x1) as [d2 x2].
  destruct (CookieManager.settle _ _ d2) as [r2|e2]; reflexivity.
Qed.

(** The calls to the cookie store when the content script of the page
    at [href] calls [setDeviceType]: all four after a call that
    returns [true], the first two or all four after a call that
    fails. *)
Lemma setDeviceType_end_to_end
  (id : nat) (href : jsstring) (u : URL) (t : jsstring) (w : W) :
  In t CookieManager.DEVICE_TYPES ->
  parse api href = Some u ->
  let sender := mkSender (Some (mkTab id (Some href))) in
  let r := run (EndToEnd.direct_channel api W chrome sender)
               (CookieManager.setDeviceType href t) (w, []) in
  (value r = Ok true ->
   EndToEnd.cookie_calls W (after r)
   = EndToEnd.writes href u (lit "deviceoutput") t
     ++ EndToEnd.writes href u (lit "devicetype") t)
  /\ (forall e, value r = Throw e ->
                EndToEnd.cookie_calls W (after r)
                = EndToEnd.writes href u (lit "deviceoutput") t
                \/ EndToEnd.cookie_calls W (after r)
                   = EndToEnd.writes href u (lit "deviceoutput") t
                     ++ EndToEnd.writes href u (lit "devicetype") t).
Proof.
  intros K P sender r.
  assert (V : forall name,
             validated api (mkRequest SET_COOKIE href name t) sender).
  { intros name. exists (mkTab id (Some href)), href, u, u.
    repeat split; assumption. }
  subst r.
  rewrite (run_setDeviceType_any
             (EndToEnd.direct_channel api W chrome sender) href t (w, []) K).
  unfold CookieManager.set_message, EndToEnd.direct_channel.
  cbn [fst snd app].
  destruct (onMessage_set_cookie
              (mkRequest SET_COOKIE href (lit "deviceoutput") t)
              sender u w (V _) eq_refl P) as [C1 _].
  remember (run chrome
              (onMessage api (mkRequest SET_COOKIE href (lit "deviceoutput") t)
                 sender) w) as x1 eqn:E1.
  clear E1. cbn [fst snd CookieManager.settle app] in *.
  destruct (success (value x1)).
  - destruct (onMessage_set_cookie
                (mkRequest SET_COOKIE href (lit "devicetype") t)
                sender u (after x1) (V _) eq_refl P) as [C2 _].
    remember (run chrome
                (onMessage api (mkRequest SET_COOKIE href (lit "devicetype") t)
                   sender) (after x1)) as x2 eqn:E2.
    clear E2. cbn [fst snd CookieManager.settle app] in *.
    assert (E : EndToEnd.cookie_calls W (after x2, calls x1 ++ calls x2)
                = EndToEnd.writes href u (lit "deviceoutput") t
                  ++ EndToEnd.writes href u (lit "devicetype") t).
    { unfold EndToEnd.cookie_calls. cbn [snd].
      now rewrite filter_app, C1, C2. }
    destruct (success (value x2)); unfold value, after; cbn [fst snd];
      (split; [intros H|intros e H]); try discriminate; auto.
  - unfold value, after. cbn [fst snd]. split; [discriminate|].
    intros e _. left. unfold EndToEnd.cookie_calls. cbn [snd].
    exact C1.
Qed.

End EndToEndFacts.

(** ** Concrete runs against a browser *)

Section ConcreteRuns.
Import Async Protocol Background.

(** Before any write the page has no device; after
    [setDeviceType("mobile")] both cookies are in the jar with the
    value [mobile], and [getCurrentDevice] reads [mobile] back. *)
Example set_then_read :
  let page := lit "https://shop.example.com/cart" in
  let channel :=
    EndToEnd.direct_channel demo_api Browser browser_host (from_href page) in
  let fresh := (mkBrowser [] [mkTab 1 (Some page)] 0 [], []) in
  let set := run channel (CookieManager.setDeviceType page (lit "mobile")) fresh in
  value (run channel (CookieManager.getCurrentDevice page) fresh) = Ok None
  /\ value set = Ok true
  /\ map (fun c => (cookie_name c, cookie_value c)) (jar (fst (after set)))
     = [(lit "devicetype", lit "mobile"); (lit "deviceoutput", lit "mobile")]
  /\ value (run channel (CookieManager.getCurrentDevice page) (after set))
     = Ok (Some (lit "mobile")).
Proof. vm_compute. repeat split. Qed.

(** When the browser rejects the second [chrome.cookies.set], the call
    fails with the browser's message although the first cookie is
    written. *)
Example second_write_rejected :
  let page := lit "https://shop.example.com/cart" in
  let channel :=
    EndToEnd.direct_channel demo_api Browser browser_host (from_href page) in
  let browser := (mkBrowser [] [] 0 [4], []) in
  let set := run channel (CookieManager.setDeviceType page (lit "mobile")) browser in
  value set = Throw (lit "rejected")
  /\ map (fun c => (cookie_name c, cookie_value c)) (jar (fst (after set)))
     = [(lit "deviceoutput", lit "mobile")].
Proof. vm_compute. repeat split. Qed.

End ConcreteRuns.

(** * Further properties *)

(** ** Subdomains *)

Section SubdomainFacts.
Import Domain Spec Shapes.

Lemma split_app_at sep a b :
  split sep (a ++ sep :: b) = split sep a ++ split sep b.
Proof.
  induction a as [|c a IH].
  - simpl app. now rewrite split_cons_sep.
  - change ((c :: a) ++ sep :: b) with (c :: (a ++ sep :: b)).
    destruct (ascii_dec c sep) as [E|Hc].
    + subst c. rewrite !split_cons_sep, IH. reflexivity.
    + destruct (split_cons_other sep c a Hc) as (p & ps & E1 & E2).
      destruct (split_cons_other sep c (a ++ sep :: b) Hc)
        as (q & qs & E3 & E4).
      rewrite E4, E2. rewrite IH, E1 in E3. simpl in E3.
      injection E3 as <- <-. reflexivity.
Qed.

Lemma join_app sep (l1 l2 : list jsstring) :
  l1 <> [] -> l2 <> [] ->
  join [sep] (l1 ++ l2) = join [sep] l1 ++ sep :: join [sep] l2.
Proof.
  induction l1 as [|p l1 IH]; intros H1 H2; [congruence|].
  destruct l1 as [|q l1].
  - destruct l2 as [|r l2]; [congruence|]. reflexivity.
  - change ((p :: q :: l1) ++ l2) with (p :: q :: (l1 ++ l2)).
    rewrite !join_cons.
    change (q :: l1 ++ l2) with ((q :: l1) ++ l2).
    rewrite IH by (assumption || discriminate).
    now rewrite <- !app_assoc.
Qed.

(** [isSubdomain] by the labels, as the code computes it. *)
Lemma isSubdomain_by_labels c p :
  isSubdomain c p = true
  <-> List.length (split "." p) < List.length (split "." c)
      /\ skipn (List.length (split "." c) - List.length (split "." p))
               (split "." c) = split "." p.
Proof.
  unfold isSubdomain.
  pose proof (split_not_nil "." p) as Hp.
  pose proof (split_pieces "." c) as Hc.
  destruct (Nat.leb_spec (List.length (split "." c))
                         (List.length (split "." p))) as [Hle|Hlt].
  - split; [discriminate|]. intros [H _]. lia.
  - assert (Hk : 0 < List.length (split "." p))
      by (destruct (split "." p); [congruence|simpl; lia]).
    rewrite slice_last by lia. rewrite eqs_true. split.
    + intros E. split; [assumption|].
      transitivity
        (split "." (join (lit ".")
           (skipn (List.length (split "." c) - List.length (split "." p))
                  (split "." c))));
        [|now f_equal].
      symmetry. apply split_join.
      * intros N. apply (f_equal (@List.length _)) in N.
        rewrite length_skipn in N. simpl in N. lia.
      * now apply Forall_skipn.
    + intros [_ E]. rewrite E. apply join_split.
Qed.

Lemma subdomain_has_front c p :
  isSubdomain c p = true -> ends_with_dot c p.
Proof.
  rewrite isSubdomain_by_labels. unfold ends_with_dot.
  intros [Hlen E].
  set (n := List.length (split "." c) - List.length (split "." p)) in *.
  exists (join ["."%char] (firstn n (split "." c))).
  rewrite <- (join_split "." c) at 1.
  rewrite <- (firstn_skipn n (split "." c)) at 1.
  rewrite E, join_app, join_split; [reflexivity| |apply split_not_nil].
  intros N. apply (f_equal (@List.length _)) in N.
  rewrite length_firstn in N. simpl in N. lia.
Qed.

Lemma front_makes_subdomain c p :
  ends_with_dot c p -> isSubdomain c p = true.
Proof.
  rewrite isSubdomain_by_labels. unfold ends_with_dot.
  intros (front & ->). rewrite split_app_at, length_app.
  pose proof (split_not_nil "." front) as Hf.
  assert (0 < List.length (split "." front))
    by (destruct (split "." front); [congruence|simpl; lia]).
  split; [lia|].
  replace (List.length (split "." front) + List.length (split "." p)
           - List.length (split "." p))
    with (List.length (split "." front) + 0) by lia.
  now rewrite skipn_app, Nat.add_0_r, skipn_all, Nat.sub_diag.
Qed.

(** X1.  [isSubdomain(c, p)] is true exactly when [c] ends with a dot
    followed by [p]: it is the suffix test on ['.' + p]. *)
Theorem isSubdomain_ends_with_dot (c p : jsstring) :
  isSubdomain c p = true <-> ends_with_dot c p.
Proof.
  split.
  - apply subdomain_has_front.
  - apply front_makes_subdomain.
Qed.

(** X2.  [isSubdomain] is a strict order on domains: no domain is a
    subdomain of itself, and a subdomain of a subdomain is a
    subdomain. *)
Theorem isSubdomain_strict_order :
  (forall d, isSubdomain d d = false)
  /\ (forall a b c,
         isSubdomain a b = true -> isSubdomain b c = true ->
         isSubdomain a c = true)
  /\ (forall a b, isSubdomain a b = true -> isSubdomain b a = false).
Proof.
  assert (Irr : forall d, isSubdomain d d = false).
  { intros d. destruct (isSubdomain d d) eqn:E; [|reflexivity].
    apply subdomain_has_front in E as (front & E).
    apply (f_equal (@List.length _)) in E. rewrite length_app in E.
    simpl in E. lia. }
  assert (Tr : forall a b c,
             isSubdomain a b = true -> isSubdomain b c = true ->
             isSubdomain a c = true).
  { intros a b c H1 H2.
    apply subdomain_has_front in H1 as (f1 & ->).
    apply subdomain_has_front in H2 as (f2 & ->).
    apply front_makes_subdomain. exists (f1 ++ "."%char :: f2).
    now rewrite <- app_assoc. }
  split; [exact Irr|]. split; [exact Tr|].
  intros a b H. destruct (isSubdomain b a) eqn:E; [|reflexivity].
  pose proof (Tr a b a H E) as C. rewrite Irr in C. discriminate.
Qed.

End SubdomainFacts.

(** ** Normalisation *)

Section NormalizeFacts.
Import Regex Domain Spec Shapes.

Lemma domain_char_of_host c :
  is_upper c = false -> label_char c = true \/ c = "."%char ->
  domain_char c = true.
Proof.
  assert (H : forall c,
             implb (negb (is_upper c)
                    && (label_char c
                        || (if ascii_dec c "." then true else false)))
                   (domain_char c) = true).
  { apply by_cases_on_ascii. vm_compute. reflexivity. }
  intros U L. specialize (H c). rewrite U in H.
  destruct L as [L| ->]; [rewrite L in H|]; simpl in H; [exact H|reflexivity].
Qed.

Lemma host_of_domain_char c :
  domain_char c = true ->
  is_upper c = false /\ (label_char c = true \/ c = "."%char).
Proof.
  assert (H : forall c,
             implb (domain_char c)
                   (negb (is_upper c)
                    && (label_char c
                        || (if ascii_dec c "." then true else false)))
             = true).
  { apply by_cases_on_ascii. vm_compute. reflexivity. }
  intros D. specialize (H c). rewrite D in H. simpl in H.
  apply andb_true_iff in H as [U L]. apply negb_true_iff in U.
  split; [exact U|]. apply orb_true_iff in L as [L|L]; [now left|right].
  now destruct (ascii_dec c ".").
Qed.

(** X3.  A domain that [normalizeDomain] returns is not empty and is
    made of lower-case letters, digits, hyphens and dots only; an
    input whose canonical form holds any other character (a slash of
    a path, a colon of a port, a space, an underscore) is rejected
    with the error that quotes the input. *)
Theorem normalizeDomain_alphabet (d : jsstring) :
  (forall s, normalizeDomain d = Ok s ->
             s <> [] /\ forallb domain_char s = true)
  /\ (forall c, In c (canonical d) -> domain_char c = false ->
                normalizeDomain d = Throw (invalidDomainMessage d)).
Proof.
  rewrite normalizeDomain_cases.
  destruct (accepted_shape (canonical d)) eqn:A.
  - pose proof (accepted_host_chars _ A) as H.
    pose proof (canonical_no_upper d) as U.
    assert (F : forallb domain_char (canonical d) = true).
    { apply forallb_forall. intros c Hc.
      unfold host_chars, no_upper in *. rewrite Forall_forall in H, U.
      apply domain_char_of_host; auto. }
    split.
    + intros s E. injection E as <-. split; [|exact F].
      intros N. rewrite N in A. discriminate.
    + intros c Hc Dc. rewrite forallb_forall in F.
      rewrite (F c Hc) in Dc. discriminate.
  - split; [discriminate|reflexivity].
Qed.

Lemma lower_char_idem c : lower_char (lower_char c) = lower_char c.
Proof.
  assert (H : forall c,
             (if ascii_dec (lower_char (lower_char c)) (lower_char c)
              then true else false) = true).
  { apply by_cases_on_ascii. vm_compute. reflexivity. }
  specialize (H c).
  destruct (ascii_dec (lower_char (lower_char c)) (lower_char c));
    [assumption|discriminate].
Qed.

(** X4.  Whether [normalizeDomain] accepts an input, and what it
    returns, depends on the input only up to the case of its letters:
    two inputs with the same lower-case form are accepted with the
    same result or are both rejected (each with its own spelling in
    the message). *)
Theorem normalizeDomain_ignores_case (d d' : jsstring) :
  toLowerCase d = toLowerCase d' ->
  (forall s, normalizeDomain d = Ok s <-> normalizeDomain d' = Ok s)
  /\ (normalizeDomain d = Throw (invalidDomainMessage d)
      <-> normalizeDomain d' = Throw (invalidDomainMessage d'))
  /\ normalizeDomain (toLowerCase d)
     = match normalizeDomain d with
       | Ok s => Ok s
       | Throw _ => Throw (invalidDomainMessage (toLowerCase d))
       end.
Proof.
  intros E.
  assert (C : canonical d = canonical d') by (unfold canonical; now rewrite E).
  assert (L : canonical (toLowerCase d) = canonical d).
  { unfold canonical. f_equal. f_equal. f_equal. f_equal.
    unfold toLowerCase. rewrite map_map. apply map_ext, lower_char_idem. }
  rewrite !normalizeDomain_cases, L, C.
  destruct (accepted_shape (canonical d')); repeat split; auto; discriminate.
Qed.

Lemma normalizeDomain_ignores_case_witness :
  toLowerCase (lit "Example.COM") = toLowerCase (lit "EXAMPLE.com")
  /\ (normalizeDomain (lit "Example.COM") = Ok (lit "example.com")
      <-> normalizeDomain (lit "EXAMPLE.com") = Ok (lit "example.com")).
Proof.
  split; [reflexivity|].
  apply (normalizeDomain_ignores_case (lit "Example.COM") (lit "EXAMPLE.com")
           eq_refl).
Defined.


Lemma forallb_last {A} (f : A -> bool) (l : list A) (d : A) :
  l <> [] -> forallb f l = true -> f (last l d) = true.
Proof.
  induction l as [|a [|b l] IH]; intros N F; [congruence| |].
  - simpl in *. now apply andb_true_iff in F as [F _].
  - change (last (a :: b :: l) d) with (last (b :: l) d).
    apply IH; [discriminate|].
    simpl in F. now apply andb_true_iff in F as [_ F].
Qed.

Lemma forallb_weaken {A} (f g : A -> bool) (l : list A) :
  (forall x, f x = true -> g x = true) ->
  forallb f l = true -> forallb g l = true.
Proof.
  intros H F. apply forallb_forall. intros x Hx.
  rewrite forallb_forall in F. auto.
Qed.

Lemma digit_is_label_char c : is_digit c = true -> label_char c = true.
Proof.
  unfold label_char, is_alnum. intros ->. now rewrite orb_true_r.
Qed.

Lemma digit_is_alnum c : is_digit c = true -> is_alnum c = true.
Proof. unfold is_alnum. intros ->. now rewrite orb_true_r. Qed.

Lemma octet_is_label x : octet x -> dns_label 1 x = true.
Proof.
  intros (N & L & F). unfold dns_label.
  apply andb_true_iff; split;
    [apply andb_true_iff; split;
     [apply andb_true_iff; split; [apply andb_true_iff; split|]|]|].
  - apply Nat.leb_le. destruct x; [congruence|simpl; lia].
  - apply Nat.leb_le. lia.
  - exact (forallb_weaken _ _ _ digit_is_label_char F).
  - destruct x as [|c x]; [congruence|]. simpl in *.
    apply andb_true_iff in F as [F _]. now apply digit_is_alnum.
  - apply digit_is_alnum. now apply forallb_last.
Qed.

Lemma octet_no_dot x : octet x -> ~ In "."%char x.
Proof.
  intros (_ & _ & F) Hin. rewrite forallb_forall in F.
  specialize (F _ Hin). discriminate.
Qed.

Lemma octet_host_chars x : octet x -> host_chars x /\ no_upper x.
Proof.
  intros (_ & _ & F). rewrite forallb_forall in F.
  split; apply Forall_forall; intros c Hc; specialize (F c Hc).
  - left. now apply digit_is_label_char.
  - revert F. generalize c. clear.
    assert (H : forall c, implb (is_digit c) (negb (is_upper c)) = true).
    { apply by_cases_on_ascii. vm_compute. reflexivity. }
    intros c F. specialize (H c). rewrite F in H. simpl in H.
    now apply negb_true_iff in H.
Qed.

Lemma strip_prefix_head_differs a p x s :
  a <> x -> strip_prefix (a :: p) (x :: s) = None.
Proof.
  intros H. cbn [strip_prefix].
  destruct (ascii_dec a x); [contradiction|reflexivity].
Qed.

(** X5.  A dotted quad of decimal octets is accepted as a domain, and
    returned as it is, exactly when its last octet has two digits or
    more; with a last octet of one digit it is rejected. *)
Theorem normalizeDomain_dotted_quad (a b c d : jsstring) :
  octet a -> octet b -> octet c -> octet d ->
  normalizeDomain (dotted_quad a b c d)
  = if 2 <=? List.length d then Ok (dotted_quad a b c d)
    else Throw (invalidDomainMessage (dotted_quad a b c d)).
Proof.
  intros Ha Hb Hc Hd.
  destruct (octet_host_chars a Ha) as [Ha1 Ha2].
  destruct (octet_host_chars b Hb) as [Hb1 Hb2].
  destruct (octet_host_chars c Hc) as [Hc1 Hc2].
  destruct (octet_host_chars d Hd) as [Hd1 Hd2].
  assert (H : host_chars (dotted_quad a b c d)).
  { unfold dotted_quad, host_chars in *.
    repeat (apply Forall_app; split; [assumption|];
            apply Forall_cons; [now right|]).
    assumption. }
  assert (U : no_upper (dotted_quad a b c d)).
  { unfold dotted_quad, no_upper in *.
    repeat (apply Forall_app; split; [assumption|];
            apply Forall_cons; [reflexivity|]).
    assumption. }
  assert (Wd : strip_www (dotted_quad a b c d) = dotted_quad a b c d).
  { unfold strip_www, dotted_quad.
    destruct Ha as (Na & _ & Fa). destruct a as [|x a]; [congruence|].
    simpl in Fa. apply andb_true_iff in Fa as [Fx _].
    change (lit "www.") with ("w"%char :: lit "ww.").
    change ((x :: a) ++ "."%char :: b ++ "."%char :: c ++ "."%char :: d)
      with (x :: (a ++ "."%char :: b ++ "."%char :: c ++ "."%char :: d)).
    rewrite strip_prefix_head_differs; [reflexivity|].
    intros <-. discriminate. }
  assert (L : labels (dotted_quad a b c d) = [a; b; c; d]).
  { unfold labels, dotted_quad.
    rewrite !split_app_sep by now apply octet_no_dot.
    now rewrite split_no_sep by now apply octet_no_dot. }
  rewrite normalizeDomain_cases, (canonical_of_host _ U H), Wd.
  unfold accepted_shape.
  assert (S1 : single_label (dotted_quad a b c d) = false).
  { destruct (single_label (dotted_quad a b c d)) eqn:E; [|reflexivity].
    apply single_label_iff in E as [_ F]. rewrite forallb_forall in F.
    assert (I : In "."%char (dotted_quad a b c d)).
    { unfold dotted_quad. apply in_or_app. right. now left. }
    specialize (F _ I). discriminate. }
  rewrite S1. cbn [orb].
  unfold dotted_hostname_long_tld, dotted_hostname. rewrite L.
  cbn [List.length forallb last Nat.leb].
  rewrite !octet_is_label by assumption. cbn [andb].
  now destruct (2 <=? List.length d).
Qed.

Lemma normalizeDomain_dotted_quad_witness :
  octet (lit "192") /\ octet (lit "168") /\ octet (lit "1") /\ octet (lit "10")
  /\ normalizeDomain (lit "192.168.1.10") = Ok (lit "192.168.1.10").
Proof.
  assert (O : forall s, s <> [] -> List.length s <= 3 ->
                        forallb is_digit s = true -> octet s)
    by (intros s A B C; repeat split; assumption).
  assert (O1 : octet (lit "192")) by (apply O; [discriminate|simpl; lia|reflexivity]).
  assert (O2 : octet (lit "168")) by (apply O; [discriminate|simpl; lia|reflexivity]).
  assert (O3 : octet (lit "1")) by (apply O; [discriminate|simpl; lia|reflexivity]).
  assert (O4 : octet (lit "10")) by (apply O; [discriminate|simpl; lia|reflexivity]).
  repeat (split; [assumption|]).
  exact (normalizeDomain_dotted_quad _ _ _ _ O1 O2 O3 O4).
Defined.


Lemma strip_trailing_slash_app y :
  strip_trailing_slash (y ++ ["/"%char]) = y.
Proof.
  induction y as [|c y IH]; [reflexivity|].
  change ((c :: y) ++ ["/"%char]) with (c :: (y ++ ["/"%char])).
  destruct (y ++ ["/"%char]) as [|e t] eqn:E.
  - destruct y; discriminate.
  - change (strip_trailing_slash (c :: e :: t))
      with (c :: strip_trailing_slash (e :: t)).
    now rewrite IH.
Qed.

Lemma toLowerCase_app a b :
  toLowerCase (a ++ b) = toLowerCase a ++ toLowerCase b.
Proof. apply map_app. Qed.

(** A normalised domain does not begin with [www.]. *)
Lemma fixed_point_facts y :
  normalizeDomain y = Ok y ->
  accepted_shape y = true /\ host_chars y /\ no_upper y
  /\ strip_prefix (lit "www.") y = None.
Proof.
  rewrite normalizeDomain_cases.
  destruct (accepted_shape (canonical y)) eqn:A; [|discriminate].
  intros E. injection E as E.
  pose proof (canonical_no_upper y) as U. rewrite E in A, U.
  pose proof (accepted_host_chars _ A) as H.
  repeat split; try assumption.
  rewrite (canonical_of_host _ U H) in E. unfold strip_www in E.
  destruct (strip_prefix (lit "www.") y) as [r|] eqn:P; [|reflexivity].
  apply strip_prefix_app in P. subst r.
  apply (f_equal (@List.length _)) in P. rewrite length_app in P.
  simpl in P. lia.
Qed.

Lemma no_www_with_slash y :
  strip_prefix (lit "www.") y = None ->
  strip_prefix (lit "www.") (y ++ ["/"%char]) = None.
Proof.
  intros N.
  destruct (strip_prefix (lit "www.") (y ++ ["/"%char])) as [r|] eqn:P;
    [|reflexivity].
  apply strip_prefix_app in P. exfalso.
  destruct (exists_last (l := lit "www." ++ r)) as (r' & e & E);
    [discriminate|].
  rewrite E in P. apply app_inj_tail in P as [P <-].
  destruct r as [|x r].
  - rewrite app_nil_r in E.
    change (lit "www.") with (lit "www" ++ ["."%char]) in E.
    apply app_inj_tail in E as [_ E]. discriminate.
  - destruct (exists_last (l := x :: r)) as (r0 & e0 & E0); [discriminate|].
    rewrite E0, app_assoc in E. apply app_inj_tail in E as [E _].
    rewrite <- E in P. rewrite P, strip_prefix_of_app in N. discriminate.
Qed.

(** X6.  A normalised domain is recovered from its URL spellings:
    with [http://] or [https://] in front, with [www.] in front, with
    a final slash, or with all of them. *)
Theorem normalizeDomain_url_spellings (y scheme www slash : jsstring) :
  normalizeDomain y = Ok y ->
  In scheme [[]; lit "http://"; lit "https://"] ->
  In www [[]; lit "www."] ->
  In slash [[]; lit "/"] ->
  normalizeDomain (scheme ++ www ++ y ++ slash) = Ok y.
Proof.
  intros F Hs Hw Hl.
  destruct (fixed_point_facts y F) as (A & H & U & N).
  assert (Hcolon : ~ In ":"%char y)
    by (apply host_chars_avoid; [assumption|reflexivity|discriminate]).
  assert (Hslash : ~ In "/"%char y)
    by (apply host_chars_avoid; [assumption|reflexivity|discriminate]).
  assert (C : canonical (scheme ++ www ++ y ++ slash) = y).
  { unfold canonical.
    rewrite !toLowerCase_app, (toLowerCase_fixes y U H).
    assert (S1 : strip_scheme
                   (toLowerCase scheme ++ toLowerCase www ++ y
                    ++ toLowerCase slash)
                 = toLowerCase www ++ y ++ toLowerCase slash).
    { simpl in Hs. destruct Hs as [<-|[<-|[<-|[]]]]; [|reflexivity..].
      apply strip_scheme_fixes. intros I.
      apply in_app_or in I as [I|I].
      - simpl in Hw. destruct Hw as [<-|[<-|[]]]; simpl in I; intuition;
          discriminate.
      - apply in_app_or in I as [I|I]; [contradiction|].
        simpl in Hl. destruct Hl as [<-|[<-|[]]]; simpl in I; intuition;
          discriminate. }
    rewrite S1.
    assert (S2 : strip_www (toLowerCase www ++ y ++ toLowerCase slash)
                 = y ++ toLowerCase slash).
    { destruct Hw as [<-|[<-|[]]].
      - change (toLowerCase []) with (@nil ascii). cbn [app].
        unfold strip_www.
        destruct Hl as [<-|[<-|[]]].
        + change (toLowerCase []) with (@nil ascii).
          now rewrite app_nil_r, N.
        + change (toLowerCase (lit "/")) with ["/"%char].
          now rewrite (no_www_with_slash y N).
      - unfold strip_www.
        change (toLowerCase (lit "www.")) with (lit "www.").
        now rewrite strip_prefix_of_app. }
    rewrite S2.
    assert (S3 : strip_trailing_slash (y ++ toLowerCase slash) = y).
    { destruct Hl as [<-|[<-|[]]].
      - change (toLowerCase []) with (@nil ascii). rewrite app_nil_r.
        now apply strip_trailing_slash_fixes.
      - apply strip_trailing_slash_app. }
    rewrite S3. now apply trim_fixes, host_chars_no_space. }
  now rewrite normalizeDomain_cases, C, A.
Qed.

Lemma normalizeDomain_url_spellings_witness :
  normalizeDomain (lit "shop.example.com") = Ok (lit "shop.example.com")
  /\ normalizeDomain (lit "https://www.shop.example.com/")
     = Ok (lit "shop.example.com").
Proof.
  split; [reflexivity|].
  apply (normalizeDomain_url_spellings (lit "shop.example.com")
           (lit "https://") (lit "www.") (lit "/"));
    [reflexivity|simpl; tauto..].
Defined.

End NormalizeFacts.

(** ** The whitelist store, further *)

Section WhitelistFacts.
Import Async Domain Spec Shapes StorageManager.

(** What one call of [removeDomainFromWhitelist] does. *)
Lemma run_removeDomainFromWhitelist w d :
  run storage_host (removeDomainFromWhitelist d) w
  = match faults w with
    | Some m :: rest => (Throw m, mkStorage (entry w) rest, [StorageGet])
    | fs =>
        match normalizeDomain d with
        | Throw e => (Throw e, mkStorage (entry w) (tl fs), [StorageGet])
        | Ok nd =>
            let updated :=
              filter (fun x => negb (eqs x nd)) (whitelist_of w) in
            match tl fs with
            | Some m :: rest =>
                (Throw m, mkStorage (entry w) rest,
                 [StorageGet; StorageSet updated])
            | fs' =>
                (Ok updated, mkStorage (Some updated) (tl fs'),
                 [StorageGet; StorageSet updated])
            end
        end
    end.
Proof.
  destruct w as [e fs]. unfold removeDomainFromWhitelist, whitelist_of, await.
  simpl entry. simpl faults.
  destruct fs as [|[m|] fs]; [| reflexivity |];
    (destruct (normalizeDomain d) as [nd|msg]; [|reflexivity]);
    cbn -[eqs filter]; try reflexivity.
  destruct fs as [|[m|] fs]; reflexivity.
Qed.

Lemma filter_out_absent (l : list jsstring) x :
  ~ In x l -> filter (fun y => negb (eqs y x)) l = l.
Proof.
  induction l as [|a l IH]; intros H; [reflexivity|]. simpl.
  destruct (eqs a x) eqn:E.
  - apply eqs_true in E. subst. exfalso. apply H. now left.
  - simpl. f_equal. apply IH. intros I. apply H. now right.
Qed.

Lemma filter_out_gone (l : list jsstring) x :
  ~ In x (filter (fun y => negb (eqs y x)) l).
Proof.
  intros I. apply filter_In in I as [_ I].
  rewrite eqs_refl in I. discriminate.
Qed.

(** X7.  [removeDomainFromWhitelist] that returns has stored and
    returned the whitelist without the normalised domain, the other
    entries in their order; it writes the list even when the domain
    was not in it, and then the list is the one it read.  An invalid
    domain is the error of the call, after the read and before any
    write. *)
Theorem removeDomainFromWhitelist_removes (w : Storage) (d : jsstring) :
  let r := run storage_host (removeDomainFromWhitelist d) w in
  (forall l, value r = Ok l ->
     exists nd,
       normalizeDomain d = Ok nd
       /\ l = filter (fun x => negb (eqs x nd)) (whitelist_of w)
       /\ whitelist_of (after r) = l
       /\ ~ In nd l
       /\ calls r = [StorageGet; StorageSet l]
       /\ (~ In nd (whitelist_of w) -> l = whitelist_of w))
  /\ (forall m, readable w -> normalizeDomain d = Throw m ->
        value r = Throw m /\ entry (after r) = entry w
        /\ calls r = [StorageGet])
  /\ (forall nd, faults w = [] -> normalizeDomain d = Ok nd ->
        value r = Ok (filter (fun x => negb (eqs x nd)) (whitelist_of w))).
Proof.
  intros r. subst r. rewrite run_removeDomainFromWhitelist.
  split; [|split].
  - intros l.
    destruct (faults w) as [|[m|] fs]; [|discriminate|];
      (destruct (normalizeDomain d) as [nd|msg]; [|discriminate]);
      cbv zeta.
    + intros E. injection E as <-. exists nd.
      repeat split; try reflexivity; [apply filter_out_gone|].
      intros N. now apply filter_out_absent.
    + destruct fs as [|[m|] fs]; [|discriminate|];
        intros E; injection E as <-; exists nd;
        (repeat split; try reflexivity; [apply filter_out_gone|]);
        intros N; now apply filter_out_absent.
  - intros m R N. rewrite N. unfold readable in R.
    destruct (faults w) as [|[m'|] fs]; try discriminate; now repeat split.
  - intros nd F N. now rewrite F, N.
Qed.

Lemma add_state w d nd :
  faults w = [] -> normalizeDomain d = Ok nd ->
  whitelist_of (after (run storage_host (addDomainToWhitelist d) w))
  = (if includes (whitelist_of w) nd then whitelist_of w
     else whitelist_of w ++ [nd])
  /\ faults (after (run storage_host (addDomainToWhitelist d) w)) = [].
Proof.
  intros F N. rewrite run_addDomainToWhitelist, F, N. cbv zeta.
  destruct (includes (whitelist_of w) nd); split; reflexivity.
Qed.

Lemma remove_state w d nd :
  faults w = [] -> normalizeDomain d = Ok nd ->
  whitelist_of (after (run storage_host (removeDomainFromWhitelist d) w))
  = filter (fun x => negb (eqs x nd)) (whitelist_of w)
  /\ faults (after (run storage_host (removeDomainFromWhitelist d) w)) = [].
Proof.
  intros F N. rewrite run_removeDomainFromWhitelist, F, N. cbv zeta.
  split; reflexivity.
Qed.

(** X8.  With a storage that does not fail, removing a domain that
    was just added puts the whitelist back as it was, when the domain
    was not in it before; removing a domain and adding it again
    leaves it at the end of the list. *)
Theorem add_remove_round_trip (w : Storage) (d nd : jsstring) :
  faults w = [] ->
  normalizeDomain d = Ok nd ->
  (~ In nd (whitelist_of w) ->
   whitelist_of
     (after (run storage_host (removeDomainFromWhitelist d)
               (after (run storage_host (addDomainToWhitelist d) w))))
   = whitelist_of w)
  /\ whitelist_of
       (after (run storage_host (addDomainToWhitelist d)
                 (after (run storage_host (removeDomainFromWhitelist d) w))))
     = filter (fun x => negb (eqs x nd)) (whitelist_of w) ++ [nd].
Proof.
  intros F N. split.
  - intros Hn.
    destruct (add_state w d nd F N) as [W1 F1].
    destruct (remove_state _ d nd F1 N) as [W2 _].
    rewrite W2, W1. apply includes_false in Hn. rewrite Hn.
    rewrite filter_app. cbn [filter]. rewrite eqs_refl. cbn [negb].
    rewrite app_nil_r. apply filter_out_absent.
    now apply includes_false.
  - destruct (remove_state w d nd F N) as [W1 F1].
    destruct (add_state _ d nd F1 N) as [W2 _].
    rewrite W2, W1.
    assert (I : includes (filter (fun x => negb (eqs x nd)) (whitelist_of w)) nd
                = false) by (apply includes_false, filter_out_gone).
    now rewrite I.
Qed.

Lemma add_remove_round_trip_witness :
  whitelist_of
    (after (run storage_host (removeDomainFromWhitelist (lit "B.example"))
              (after (run storage_host (addDomainToWhitelist (lit "B.example"))
                        (mkStorage (Some [lit "a.example"]) [])))))
  = [lit "a.example"].
Proof.
  apply (add_remove_round_trip (mkStorage (Some [lit "a.example"]) [])
           (lit "B.example") (lit "b.example") eq_refl eq_refl).
  intros [H|[]]. discriminate.
Defined.


(** What a call of [isCurrentDomainWhitelisted] on a readable storage
    does. *)
Lemma run_isCurrentDomainWhitelisted w hostname :
  readable w ->
  run storage_host (isCurrentDomainWhitelisted hostname) w
  = (match whitelist_of w with
     | [] => Ok true
     | _ :: _ =>
         match normalizeDomain hostname with
         | Ok current =>
             Ok (existsb (matchesEntry current) (whitelist_of w))
         | Throw m => Throw m
         end
     end,
     mkStorage (entry w) (tl (faults w)), [StorageGet]).
Proof.
  intros R. unfold readable in R. destruct w as [e fs].
  unfold isCurrentDomainWhitelisted, await, whitelist_of. simpl entry.
  destruct fs as [|[m|] fs]; try discriminate;
    cbn -[normalizeDomain matchesEntry existsb];
    (destruct e as [[|x l]|]; [reflexivity| |reflexivity]);
    cbn -[normalizeDomain matchesEntry existsb];
    destruct (normalizeDomain hostname); reflexivity.
Qed.

(** X9.  With a storage that does not fail, once a domain has been
    added, a page whose hostname normalises to it, or to a name that
    ends with a dot and it, is whitelisted. *)
Theorem added_domain_is_whitelisted (w : Storage) (d nd h current : jsstring) :
  faults w = [] ->
  normalizeDomain d = Ok nd ->
  normalizeDomain h = Ok current ->
  current = nd \/ ends_with_dot current nd ->
  value (run storage_host (isCurrentDomainWhitelisted h)
           (after (run storage_host (addDomainToWhitelist d) w)))
  = Ok true.
Proof.
  intros F N Hh M.
  destruct (add_state w d nd F N) as [W1 F1].
  assert (R1 : readable
                 (after (run storage_host (addDomainToWhitelist d) w)))
    by (unfold readable; now rewrite F1).
  rewrite (run_isCurrentDomainWhitelisted _ h R1), Hh. unfold value.
  cbn [fst].
  assert (I : In nd (whitelist_of
                       (after (run storage_host (addDomainToWhitelist d) w)))).
  { rewrite W1. destruct (includes (whitelist_of w) nd) eqn:E.
    - now apply includes_In.
    - apply in_or_app. right. now left. }
  destruct (whitelist_of
              (after (run storage_host (addDomainToWhitelist d) w)))
    as [|x l] eqn:E; [destruct I|].
  f_equal. apply some_matchesEntry. destruct M as [->|M].
  - now left.
  - right. exists nd. split; [assumption|].
    now apply front_makes_subdomain.
Qed.

Lemma added_domain_is_whitelisted_witness :
  value (run storage_host
           (isCurrentDomainWhitelisted (lit "api.shop.example"))
           (after (run storage_host
                     (addDomainToWhitelist (lit "https://Shop.example/"))
                     (mkStorage (Some [lit "other.example"]) []))))
  = Ok true.
Proof.
  apply (added_domain_is_whitelisted
           (mkStorage (Some [lit "other.example"]) [])
           (lit "https://Shop.example/") (lit "shop.example")
           (lit "api.shop.example") (lit "api.shop.example")
           eq_refl eq_refl eq_refl).
  right. now exists (lit "api").
Defined.

(** X10.  [isCurrentDomainWhitelisted] only reads the storage.  With
    an empty whitelist it answers [true] for every hostname, also for
    one that is no valid domain; with entries in the whitelist a
    hostname that [normalizeDomain] rejects makes the call fail with
    that error. *)
Theorem isCurrentDomainWhitelisted_edges (w : Storage) (h : jsstring) :
  readable w ->
  let r := run storage_host (isCurrentDomainWhitelisted h) w in
  calls r = [StorageGet]
  /\ entry (after r) = entry w
  /\ (whitelist_of w = [] -> value r = Ok true)
  /\ (whitelist_of w <> [] ->
      forall m, normalizeDomain h = Throw m -> value r = Throw m).
Proof.
  intros R r. subst r. rewrite (run_isCurrentDomainWhitelisted w h R).
  unfold calls, after, value. cbn [fst snd entry].
  split; [reflexivity|]. split; [reflexivity|]. split.
  - now intros ->.
  - intros N m Hm. destruct (whitelist_of w); [congruence|].
    now rewrite Hm.
Qed.

Lemma isCurrentDomainWhitelisted_edges_witness :
  value (run storage_host (isCurrentDomainWhitelisted [])
           (mkStorage None [])) = Ok true
  /\ value (run storage_host (isCurrentDomainWhitelisted [])
              (mkStorage (Some [lit "example.com"]) []))
     = Throw (invalidDomainMessage []).
Proof.
  destruct (isCurrentDomainWhitelisted_edges (mkStorage None []) [] eq_refl)
    as (_ & _ & A & _).
  destruct (isCurrentDomainWhitelisted_edges
              (mkStorage (Some [lit "example.com"]) []) [] eq_refl)
    as (_ & _ & _ & B).
  split; [now apply A|]. apply B; [discriminate|reflexivity].
Defined.

(** X11.  A failure of the storage is the error of the call.  When
    the read fails, adding, removing and the whitelist check fail with
    the message of the storage after that one call; when the write
    fails, adding and removing fail with its message.  In each case
    the stored whitelist is as it was. *)
Theorem storage_failure_propagates (w : Storage) (d m : jsstring) :
  (hd None (faults w) = Some m ->
   let a := run storage_host (addDomainToWhitelist d) w in
   let r := run storage_host (removeDomainFromWhitelist d) w in
   let c := run storage_host (isCurrentDomainWhitelisted d) w in
   value a = Throw m /\ value r = Throw m /\ value c = Throw m
   /\ calls a = [StorageGet] /\ calls r = [StorageGet]
   /\ calls c = [StorageGet]
   /\ entry (after a) = entry w /\ entry (after r) = entry w
   /\ entry (after c) = entry w)
  /\ (forall nd rest,
         faults w = None :: Some m :: rest ->
         normalizeDomain d = Ok nd ->
         let a := run storage_host (addDomainToWhitelist d) w in
         let r := run storage_host (removeDomainFromWhitelist d) w in
         (~ In nd (whitelist_of w) ->
          value a = Throw m /\ entry (after a) = entry w)
         /\ value r = Throw m /\ entry (after r) = entry w).
Proof.
  split.
  - intros H a r c. subst a r c.
    rewrite run_addDomainToWhitelist, run_removeDomainFromWhitelist.
    destruct w as [e fs]. destruct fs as [|[m'|] fs]; try discriminate.
    simpl in H. injection H as ->. now repeat split.
  - intros nd rest F N a r. subst a r.
    rewrite run_addDomainToWhitelist, run_removeDomainFromWhitelist, F, N.
    cbv zeta. split; [|now split].
    intros I. apply includes_false in I. rewrite I. now split.
Qed.


Lemma add_keeps (P : jsstring -> Prop) w d :
  (forall nd, normalizeDomain d = Ok nd -> P nd) ->
  Forall P (whitelist_of w) ->
  Forall P (whitelist_of (after (run storage_host (addDomainToWhitelist d) w))).
Proof.
  intros Hn H. rewrite run_addDomainToWhitelist.
  destruct (faults w) as [|[m|] fs]; [| exact H |];
    (destruct (normalizeDomain d) as [nd|msg]; [|exact H]);
    cbv zeta;
    (destruct (includes (whitelist_of w) nd); [exact H|]).
  - apply Forall_app. split; [exact H|]. constructor; [now apply Hn|constructor].
  - destruct fs as [|[m|] fs]; [|exact H|];
      (apply Forall_app; split; [exact H|]);
      (constructor; [now apply Hn|constructor]).
Qed.

Lemma Forall_filter_keeps {A} (P : A -> Prop) (f : A -> bool) (l : list A) :
  Forall P l -> Forall P (filter f l).
Proof.
  intros H. apply Forall_forall. intros x I. apply filter_In in I as [I _].
  rewrite Forall_forall in H. now apply H.
Qed.

Lemma remove_keeps (P : jsstring -> Prop) w d :
  Forall P (whitelist_of w) ->
  Forall P (whitelist_of
              (after (run storage_host (removeDomainFromWhitelist d) w))).
Proof.
  intros H.
  destruct (run_removeDomainFromWhitelist_entry w d) as [E|(nd & E)];
    unfold whitelist_of in *; rewrite E; [exact H|].
  now apply Forall_filter_keeps.
Qed.

(** X12.  The whitelist holds normalised domains only: in every store
    the extension can reach, each entry is a result of
    [normalizeDomain], so it is made of lower-case letters, digits,
    hyphens and dots. *)
Theorem whitelist_entries_normalised (w : Storage) :
  reachable w ->
  Forall (fun e => (exists d, normalizeDomain d = Ok e)
                   /\ forallb domain_char e = true)
         (whitelist_of w).
Proof.
  induction 1 as [fs|w fs _ IH|w op _ IH].
  - constructor.
  - exact IH.
  - destruct op as [d|d]; [|now apply remove_keeps].
    apply add_keeps; [|exact IH].
    intros nd N. split; [now exists d|].
    revert N. rewrite normalizeDomain_cases.
    destruct (accepted_shape (canonical d)) eqn:A; [|discriminate].
    intros E. injection E as <-.
    pose proof (accepted_host_chars _ A) as H.
    pose proof (canonical_no_upper d) as U.
    apply forallb_forall. intros c Hc.
    unfold host_chars, no_upper in *. rewrite Forall_forall in H, U.
    apply domain_char_of_host; auto.
Qed.

Lemma whitelist_entries_normalised_witness :
  Forall (fun e => (exists d, Domain.normalizeDomain d = Ok e)
                   /\ forallb domain_char e = true)
         (whitelist_of
            (perform (Add (lit "HTTP://WWW.Example.com/"))
                     (mkStorage None []))).
Proof.
  apply whitelist_entries_normalised. apply reach_op, reach_fresh.
Defined.

End WhitelistFacts.

(** ** The proxy, further *)

Section ProxyFacts.
Import Async Protocol Background ProxyShapes.
Variable api : URLApi.
Variable W : Type.
Variable chrome : forall c : Call, W -> answer c * W.

(** The listener either refuses at the validation, or goes to the
    switch. *)
Lemma onMessage_cases request sender :
  (~ validated api request sender
   /\ exists e, In e validation_errors
                /\ onMessage api request sender = Ret (failure e))
  \/ (validated api request sender
      /\ forall w,
           run chrome (onMessage api request sender) w
           = let '(r, w1, t) := run chrome (dispatch api request) w in
             (respond r, w1, t)).
Proof.
  unfold onMessage, validated.
  destruct (sender_tab sender) as [tab|] eqn:Ht.
  2:{ left. split; [intros (t & h & su & ru & E & _); discriminate|].
      eexists; split; [|reflexivity]. simpl; tauto. }
  destruct (tab_url tab) as [[|c href]|] eqn:Hu.
  - left. split.
    + intros (t & h & su & ru & E1 & E2 & E3 & _).
      injection E1 as <-. rewrite Hu in E2. injection E2 as <-.
      rewrite (parse_empty api) in E3. discriminate.
    + eexists; split; [|reflexivity]. simpl; tauto.
  - destruct (parse api (c :: href)) as [su|] eqn:Hs.
    2:{ left. split.
        - intros (t & h & su & ru & E1 & E2 & E3 & _).
          injection E1 as <-. rewrite Hu in E2. injection E2 as <-.
          congruence.
        - eexists; split; [|reflexivity]. simpl; tauto. }
    destruct (parse api (req_url request)) as [ru|] eqn:Hr.
    2:{ left. split.
        - intros (t & h & su' & ru & _ & _ & _ & E & _). discriminate.
        - eexists; split; [|reflexivity]. simpl; tauto. }
    destruct (eqs (origin su) (origin ru)) eqn:Ho.
    + right. apply eqs_true in Ho. split.
      * exists tab, (c :: href), su, ru. repeat split; assumption.
      * intros w. cbn [negb]. rewrite run_bind.
        destruct (run chrome (dispatch api request) w) as [[[r|m] w1] t];
          cbn [run respond]; now rewrite app_nil_r.
    + left. apply eqs_false in Ho. split.
      * intros (t & h & su' & ru' & E1 & E2 & E3 & E4 & E5).
        injection E1 as <-. rewrite Hu in E2. injection E2 as <-.
        rewrite Hs in E3. injection E3 as <-. injection E4 as <-.
        contradiction.
      * eexists; split; [|reflexivity]. simpl; tauto.
  - left. split.
    + intros (t & h & su & ru & E1 & E2 & _).
      injection E1 as <-. congruence.
    + eexists; split; [|reflexivity]. simpl; tauto.
Qed.


Lemma unknown_or_served (t : jsstring) :
  eqs t GET_COOKIE = true \/ eqs t SET_COOKIE = true
  \/ eqs t GET_ALL_COOKIES = true
  \/ (eqs t GET_COOKIE = false /\ eqs t SET_COOKIE = false
      /\ eqs t GET_ALL_COOKIES = false).
Proof.
  destruct (eqs t GET_COOKIE); [now left|].
  destruct (eqs t SET_COOKIE); [now right; left|].
  destruct (eqs t GET_ALL_COOKIES); [now right; right; left|].
  now right; right; right.
Qed.

(** The switch on a read of one cookie. *)
Lemma run_dispatch_get request w :
  req_type request = GET_COOKIE ->
  run chrome (dispatch api request) w
  = let (a, w1) := chrome (CookiesGet (req_url request) (req_name request)) w in
    (match a with
     | Ok c => Ok (mkResponse true None c None None)
     | Throw m => Throw m
     end, w1, [CookiesGet (req_url request) (req_name request)]).
Proof.
  intros T. unfold dispatch. rewrite T, eqs_refl.
  unfold await, getCookie, call. cbn [bind run].
  destruct (chrome (CookiesGet (req_url request) (req_name request)) w)
    as [[c|m] w1]; reflexivity.
Qed.

(** The switch on a read of all cookies. *)
Lemma run_dispatch_get_all request w :
  req_type request = GET_ALL_COOKIES ->
  run chrome (dispatch api request) w
  = let (a, w1) := chrome (CookiesGetAll (req_url request)) w in
    (match a with
     | Ok cs => Ok (mkResponse true None None None (Some cs))
     | Throw m => Throw m
     end, w1, [CookiesGetAll (req_url request)]).
Proof.
  intros T. unfold dispatch. rewrite T.
  replace (eqs GET_ALL_COOKIES GET_COOKIE) with false by reflexivity.
  replace (eqs GET_ALL_COOKIES SET_COOKIE) with false by reflexivity.
  rewrite eqs_refl.
  unfold await, getAllCookies, call. cbn [bind run].
  destruct (chrome (CookiesGetAll (req_url request)) w)
    as [[c|m] w1]; reflexivity.
Qed.

(** The switch on a write. *)
Lemma run_dispatch_set request u w :
  req_type request = SET_COOKIE ->
  parse api (req_url request) = Some u ->
  run chrome (dispatch api request) w
  = let (_, w1) :=
      chrome (CookiesRemove (req_url request) (req_name request)) w in
    let (a, w2) := chrome (CookiesSet (details request u)) w1 in
    match a with
    | Throw m =>
        (Throw m, w2,
         [CookiesRemove (req_url request) (req_name request);
          CookiesSet (details request u)])
    | Ok k =>
        let '(_, w3, t) :=
          run chrome (notifyTabsOfChange api (req_url request)) w2 in
        (Ok (mkResponse true None None k None), w3,
         CookiesRemove (req_url request) (req_name request)
         :: CookiesSet (details request u) :: t)
    end.
Proof.
  intros T P. unfold dispatch. rewrite T.
  replace (eqs SET_COOKIE GET_COOKIE) with false by reflexivity.
  rewrite eqs_refl. unfold setCookie. rewrite P.
  unfold await, call, details. cbn [bind run].
  destruct (chrome (CookiesRemove (req_url request) (req_name request)) w)
    as [x w1].
  destruct (chrome (CookiesSet _) w1) as [[k|m] w2]; [|reflexivity].
  cbn [bind]. rewrite run_bind.
  destruct (run chrome (notifyTabsOfChange api (req_url request)) w2)
    as [[r w3] t].
  cbn [run]. now rewrite app_nil_r.
Qed.

(** The calls of the switch are about the URL of the request. *)
Lemma dispatch_calls_about_request request w :
  Forall (fun c => call_url c = None \/ call_url c = Some (req_url request))
         (calls (run chrome (dispatch api request) w)).
Proof.
  destruct (unknown_or_served (req_type request)) as [T|[T|[T|(T1 & T2 & T3)]]].
  - apply eqs_true in T. rewrite (run_dispatch_get request w T).
    destruct (chrome (CookiesGet (req_url request) (req_name request)) w).
    unfold calls. cbn [snd]. constructor; [now right|constructor].
  - apply eqs_true in T.
    destruct (parse api (req_url request)) as [u|] eqn:P.
    + rewrite (run_dispatch_set request u w T P).
      destruct (chrome (CookiesRemove _ _) w) as [x w1].
      destruct (chrome (CookiesSet _) w1) as [[k|m] w2].
      * pose proof (notify_no_cookie_call api W chrome (req_url request) w2)
          as N.
        destruct (run chrome (notifyTabsOfChange api (req_url request)) w2)
          as [[r w3] t].
        unfold calls in *. cbn [snd] in *.
        constructor; [now right|]. constructor; [now right|].
        apply Forall_forall. intros c Hc.
        destruct (is_cookie_call c) eqn:K.
        -- assert (I : In c (filter is_cookie_call t))
             by (apply filter_In; now split).
           rewrite N in I. destruct I.
        -- left. destruct c; try discriminate; reflexivity.
      * unfold calls. cbn [snd].
        constructor; [now right|]. constructor; [now right|constructor].
    + unfold dispatch. rewrite T.
      replace (eqs SET_COOKIE GET_COOKIE) with false by reflexivity.
      rewrite eqs_refl. unfold setCookie. rewrite P. constructor.
  - apply eqs_true in T. rewrite (run_dispatch_get_all request w T).
    destruct (chrome (CookiesGetAll (req_url request)) w).
    unfold calls. cbn [snd]. constructor; [now right|constructor].
  - unfold dispatch. rewrite T1, T2, T3. constructor.
Qed.

(** X13.  The proxy calls the browser only for a request that passed
    the validation, and every call it makes to the cookie store is
    about the URL of the request, whose origin is that of the sender's
    tab.  A request that does not pass is answered with one of the
    three errors of the validation, 'Invalid sender' first when the
    sender has no tab URL, and the browser is left as it was. *)
Theorem proxy_acts_only_on_validated_url
  (request : Request) (sender : Sender) (w : W) :
  let r := run chrome (onMessage api request sender) w in
  (calls r <> [] -> validated api request sender)
  /\ Forall (fun c => call_url c = None \/ call_url c = Some (req_url request))
            (calls r)
  /\ (~ validated api request sender ->
      calls r = [] /\ after r = w
      /\ exists e, In e validation_errors /\ value r = failure e)
  /\ (no_sender_url sender -> value r = failure (lit "Invalid sender")).
Proof.
  intros r. subst r.
  destruct (onMessage_cases request sender) as [(NV & e & Ie & E)|(V & E)].
  - rewrite E. cbn [run]. unfold calls, after, value. cbn [fst snd].
    split; [congruence|]. split; [constructor|]. split.
    + intros _. repeat split. now exists e.
    + unfold no_sender_url, onMessage in *. intros H.
      destruct (sender_tab sender) as [tab|]; [|now injection E as <-].
      destruct (tab_url tab) as [[|c href]|]; [| destruct H |];
        now injection E as <-.
  - rewrite E.
    pose proof (dispatch_calls_about_request request w) as D.
    destruct (run chrome (dispatch api request) w) as [[r w1] t].
    unfold calls, after, value in *. cbn [fst snd] in *.
    split; [intros _; exact V|]. split; [exact D|]. split.
    + intros NV. contradiction.
    + intros H. exfalso. destruct V as (tab & href & su & ru & Ht & Hu & Hs & _).
      unfold no_sender_url in H. rewrite Ht, Hu in H.
      destruct href; [|exact H].
      rewrite (parse_empty api) in Hs. discriminate.
Qed.


(** X14.  A validated read makes one call and never writes:
    [GET_COOKIE] calls [chrome.cookies.get] once and [GET_ALL_COOKIES]
    calls [chrome.cookies.getAll] once, for the URL of the request.
    The answer of the browser comes back with success, also when it is
    no cookie at all; a rejection comes back as a failure with its
    message. *)
Theorem proxy_reads (request : Request) (sender : Sender) (w : W) :
  validated api request sender ->
  let r := run chrome (onMessage api request sender) w in
  (req_type request = GET_COOKIE ->
   calls r = [CookiesGet (req_url request) (req_name request)]
   /\ value r
      = match fst (chrome (CookiesGet (req_url request) (req_name request)) w)
        with
        | Ok c => mkResponse true None c None None
        | Throw m => failure m
        end)
  /\ (req_type request = GET_ALL_COOKIES ->
      calls r = [CookiesGetAll (req_url request)]
      /\ value r
         = match fst (chrome (CookiesGetAll (req_url request)) w) with
           | Ok cs => mkResponse true None None None (Some cs)
           | Throw m => failure m
           end)
  /\ (req_type request <> SET_COOKIE ->
      existsb is_write (calls r) = false).
Proof.
  intros V r. subst r.
  destruct (onMessage_cases request sender) as [(NV & _)|(_ & E)];
    [contradiction|].
  rewrite E. split; [|split].
  - intros T. rewrite (run_dispatch_get request w T).
    destruct (chrome (CookiesGet (req_url request) (req_name request)) w)
      as [[c|m] w1]; now split.
  - intros T. rewrite (run_dispatch_get_all request w T).
    destruct (chrome (CookiesGetAll (req_url request)) w)
      as [[c|m] w1]; now split.
  - intros T.
    destruct (unknown_or_served (req_type request))
      as [T1|[T1|[T1|(T1 & T2 & T3)]]].
    + apply eqs_true in T1. rewrite (run_dispatch_get request w T1).
      now destruct (chrome (CookiesGet (req_url request) (req_name request)) w)
        as [[c|m] w1].
    + apply eqs_true in T1. contradiction.
    + apply eqs_true in T1. rewrite (run_dispatch_get_all request w T1).
      now destruct (chrome (CookiesGetAll (req_url request)) w)
        as [[c|m] w1].
    + unfold dispatch. now rewrite T1, T2, T3.
Qed.

(** X15.  A validated write removes the cookie of that name, whatever
    comes of the removal, and sets it with the hostname of the URL as
    domain, the path [/], [secure] exactly for [https:] and [sameSite]
    [lax].  The response carries the cookie the browser has set; when
    the browser rejects the [set], the response is a failure with its
    message and no tab is notified. *)
Theorem proxy_write (request : Request) (sender : Sender) (u : URL) (w : W) :
  validated api request sender ->
  req_type request = SET_COOKIE ->
  parse api (req_url request) = Some u ->
  let r := run chrome (onMessage api request sender) w in
  let removed :=
    chrome (CookiesRemove (req_url request) (req_name request)) w in
  let set := chrome (CookiesSet (details request u)) (snd removed) in
  (forall k, fst set = Ok k ->
     value r = mkResponse true None None k None
     /\ calls r
        = CookiesRemove (req_url request) (req_name request)
          :: CookiesSet (details request u)
          :: calls (run chrome (notifyTabsOfChange api (req_url request))
                        (snd set)))
  /\ (forall m, fst set = Throw m ->
        value r = failure m
        /\ calls r = [CookiesRemove (req_url request) (req_name request);
                      CookiesSet (details request u)]
        /\ after r = snd set).
Proof.
  intros V T P r removed set. subst r removed set.
  destruct (onMessage_cases request sender) as [(NV & _)|(_ & E)];
    [contradiction|].
  rewrite E, (run_dispatch_set request u w T P).
  destruct (chrome (CookiesRemove (req_url request) (req_name request)) w)
    as [x w1]. cbn [snd].
  destruct (chrome (CookiesSet (details request u)) w1) as [a w2].
  cbn [fst snd]. split.
  - intros k ->.
    destruct (run chrome (notifyTabsOfChange api (req_url request)) w2)
      as [[r w3] t]. now split.
  - intros m ->. now repeat split.
Qed.

Lemma sendAll_calls url tabs w :
  calls (run chrome (sendAll url tabs) w)
  = map (fun tab => TabsSendMessage (tab_id tab) url) tabs.
Proof.
  revert w. induction tabs as [|tab tabs IH]; intros w; [reflexivity|].
  cbn [sendAll run map].
  destruct (chrome (TabsSendMessage (tab_id tab) url) w) as [x w1].
  specialize (IH w1).
  destruct (run chrome (sendAll url tabs) w1) as [[r w2] t].
  unfold calls in *. cbn [snd] in *. now rewrite IH.
Qed.

(** X16.  [notifyTabsOfChange] asks for the open tabs once and sends
    one [COOKIE_CHANGED] message, with the changed URL, to each tab
    whose own URL is there, parses and has the origin of the changed
    URL, in the order of the tabs and whatever becomes of the earlier
    messages; it sends nothing when the query fails, and calls nothing
    when the changed URL does not parse. *)
Theorem notifyTabsOfChange_recipients (url : jsstring) (w : W) :
  let r := run chrome (notifyTabsOfChange api url) w in
  (parse api url = None -> calls r = [])
  /\ (forall u tabs,
         parse api url = Some u ->
         fst (chrome TabsQuery w) = Ok tabs ->
         calls r
         = TabsQuery
           :: map (fun tab => TabsSendMessage (tab_id tab) url)
                  (filter
                     (fun tab =>
                        match tab_url tab with
                        | Some (c :: href) =>
                            match parse api (c :: href) with
                            | Some v => eqs (origin v) (origin u)
                            | None => false
                            end
                        | _ => false
                        end) tabs))
  /\ (forall u m,
         parse api url = Some u ->
         fst (chrome TabsQuery w) = Throw m ->
         calls r = [TabsQuery]).
Proof.
  intros r. subst r. unfold notifyTabsOfChange. split; [|split].
  - now intros ->.
  - intros u tabs -> Q. cbn [run].
    destruct (chrome TabsQuery w) as [a w1]. cbn [fst] in Q. subst a.
    pose proof (sendAll_calls url (filter (same_origin_tab api u) tabs) w1)
      as S.
    destruct (run chrome (sendAll url _) w1) as [[r w2] t].
    unfold calls in *. cbn [snd] in *. rewrite S. f_equal. f_equal.
    apply filter_ext. intros tab. unfold same_origin_tab.
    now destruct (tab_url tab) as [[|c href]|].
  - intros u m -> Q. cbn [run].
    destruct (chrome TabsQuery w) as [a w1]. cbn [fst] in Q. now subst a.
Qed.

End ProxyFacts.

Section ProxyWitnesses.
Import Async Protocol Background ProxyShapes.

Lemma demo_validated (t name value : jsstring) :
  validated demo_api (mkRequest t (lit "https://a.example/") name value)
            (from_href (lit "https://a.example/p")).
Proof.
  exists (mkTab 1 (Some (lit "https://a.example/p"))),
    (lit "https://a.example/p"),
    (mkURL (lit "https://a.example") (lit "a.example") (lit "https:")),
    (mkURL (lit "https://a.example") (lit "a.example") (lit "https:")).
  repeat split.
Qed.

Lemma proxy_reads_witness :
  calls (run browser_host
           (onMessage demo_api
              (mkRequest GET_COOKIE (lit "https://a.example/")
                         (lit "deviceoutput") [])
              (from_href (lit "https://a.example/p")))
           (mkBrowser [] [] 0 []))
  = [CookiesGet (lit "https://a.example/") (lit "deviceoutput")].
Proof.
  destruct (proxy_reads demo_api Browser browser_host
              (mkRequest GET_COOKIE (lit "https://a.example/")
                         (lit "deviceoutput") [])
              (from_href (lit "https://a.example/p"))
              (mkBrowser [] [] 0 [])
              (demo_validated _ _ _)) as (H & _).
  exact (proj1 (H eq_refl)).
Defined.

Lemma proxy_write_witness :
  value (run browser_host
           (onMessage demo_api
              (mkRequest SET_COOKIE (lit "https://a.example/")
                         (lit "deviceoutput") (lit "app"))
              (from_href (lit "https://a.example/p")))
           (mkBrowser [] [] 0 [0]))
  = mkResponse true None None
      (Some (mkCookie (lit "deviceoutput") (lit "app") (lit "a.example")
                      (lit "/") true (lit "lax")))
      None.
Proof.
  destruct (proxy_write demo_api Browser browser_host
              (mkRequest SET_COOKIE (lit "https://a.example/")
                         (lit "deviceoutput") (lit "app"))
              (from_href (lit "https://a.example/p"))
              (mkURL (lit "https://a.example") (lit "a.example")
                     (lit "https:"))
              (mkBrowser [] [] 0 [0])
              (demo_validated _ _ _) eq_refl eq_refl) as (H & _).
  exact (proj1 (H _ eq_refl)).
Defined.

End ProxyWitnesses.

(** ** The page and the proxy together, further *)

Section PageFacts.
Import Async Protocol Background ProxyShapes PageShapes.

(** The readers against any channel. *)
Lemma run_getCookie_any {X : Type}
  (h : forall c : CookieManager.ChannelCall, X -> CookieManager.channel_ans c * X)
  (url name : jsstring) (x : X) :
  run h (CookieManager.getCookie url name) x
  = let (d, x1) := h (get_message url name) x in
    (Ok match CookieManager.settle (mkRequest GET_COOKIE url name [])
                CookieManager.MESSAGE_TIMEOUT_MS d with
        | Ok response => value_or_null (cookie response)
        | Throw _ => None
        end, x1, [get_message url name]).
Proof.
  unfold CookieManager.getCookie, try_catch, await,
    CookieManager.sendMessageToBackground, get_message.
  cbn [bind run].
  destruct (h (CookieManager.SendMessage (mkRequest GET_COOKIE url name [])
                 CookieManager.MESSAGE_TIMEOUT_MS) x) as [d x1].
  destruct (CookieManager.settle _ _ d) as [r|e]; reflexivity.
Qed.

Lemma run_getCurrentDevice_any {X : Type}
  (h : forall c : CookieManager.ChannelCall, X -> CookieManager.channel_ans c * X)
  (url : jsstring) (x : X) :
  run h (CookieManager.getCurrentDevice url) x
  = let (d, x1) := h (get_all_message url) x in
    (Ok match CookieManager.settle (mkRequest GET_ALL_COOKIES url [] [])
                CookieManager.MESSAGE_TIMEOUT_MS d with
        | Ok response =>
            match cookies response with
            | Some cs => device_of cs
            | None => None
            end
        | Throw _ => None
        end, x1, [get_all_message url]).
Proof.
  unfold CookieManager.getCurrentDevice, try_catch, await,
    CookieManager.sendMessageToBackground, get_all_message, device_of.
  cbn [bind run].
  destruct (h (CookieManager.SendMessage
                 (mkRequest GET_ALL_COOKIES url [] [])
                 CookieManager.MESSAGE_TIMEOUT_MS) x) as [d x1].
  destruct (CookieManager.settle _ _ d) as [r|e]; [|reflexivity].
  cbn [bind run].
  destruct (cookies r) as [cs|]; [|reflexivity].
  destruct (CookieManager.known_device _); reflexivity.
Qed.

Variable api : URLApi.
Variable W : Type.
Variable chrome : forall c : Call, W -> answer c * W.

Lemma onMessage_mismatch request id senderHref su ru :
  parse api senderHref = Some su ->
  parse api (req_url request) = Some ru ->
  origin su <> origin ru ->
  onMessage api request (mkSender (Some (mkTab id (Some senderHref))))
  = Ret (failure (lit "Origin mismatch")).
Proof.
  intros Hs Hr Ho. unfold onMessage. cbn [sender_tab tab_url].
  destruct senderHref as [|c href].
  - rewrite (parse_empty api) in Hs. discriminate.
  - rewrite Hs, Hr. apply eqs_false in Ho. now rewrite Ho.
Qed.

(** X17.  A content script whose page has another origin than the URL
    of its tab (a frame of another site) gets nothing through the
    proxy: [setDeviceType] fails with 'Origin mismatch',
    [getCurrentDevice] and [getCookie] return [null], and the proxy
    makes no call to the browser. *)
Theorem foreign_frame_is_refused
  (id : nat) (tabHref pageHref : jsstring) (tu pu : URL)
  (t name : jsstring) (w : W) :
  parse api tabHref = Some tu ->
  parse api pageHref = Some pu ->
  origin tu <> origin pu ->
  In t CookieManager.DEVICE_TYPES ->
  let channel :=
    EndToEnd.direct_channel api W chrome
      (mkSender (Some (mkTab id (Some tabHref)))) in
  let set := run channel (CookieManager.setDeviceType pageHref t) (w, []) in
  let device := run channel (CookieManager.getCurrentDevice pageHref) (w, []) in
  let cookie := run channel (CookieManager.getCookie pageHref name) (w, []) in
  value set = Throw (lit "Origin mismatch")
  /\ value device = Ok None
  /\ value cookie = Ok None
  /\ after set = (w, []) /\ after device = (w, []) /\ after cookie = (w, []).
Proof.
  intros Ht Hp Ho K channel set device cookie.
  subst set device cookie channel.
  rewrite (run_setDeviceType_any
             (EndToEnd.direct_channel api W chrome
                (mkSender (Some (mkTab id (Some tabHref)))))
             pageHref t (w, []) K).
  rewrite (run_getCurrentDevice_any
             (EndToEnd.direct_channel api W chrome
                (mkSender (Some (mkTab id (Some tabHref)))))
             pageHref (w, [])).
  rewrite (run_getCookie_any
             (EndToEnd.direct_channel api W chrome
                (mkSender (Some (mkTab id (Some tabHref)))))
             pageHref name (w, [])).
  unfold CookieManager.set_message, get_all_message, get_message,
    EndToEnd.direct_channel.
  cbn [fst snd app].
  rewrite !(onMessage_mismatch _ id tabHref tu pu Ht) by assumption.
  cbn [run]. unfold value, after, calls. cbn [fst snd app].
  repeat split.
Qed.


Lemma own_tab_validated id href u (t name v : jsstring) :
  parse api href = Some u ->
  validated api (mkRequest t href name v)
            (mkSender (Some (mkTab id (Some href)))).
Proof.
  intros P. exists (mkTab id (Some href)), href, u, u. repeat split; assumption.
Qed.

(** X18.  Reading through the proxy never writes.  For the content
    script of the tab at [href], [getCookie] makes the proxy call
    [chrome.cookies.get] once and nothing else, and returns the value
    of the cookie the browser answers, or [null] when there is none,
    when its value is empty or when the browser rejects the call;
    [getCurrentDevice] makes the proxy call [chrome.cookies.getAll]
    once and nothing else, and decides on the cookies the browser
    answers, or returns [null] when the browser rejects the call. *)
Theorem reads_end_to_end
  (id : nat) (href : jsstring) (u : URL) (name : jsstring) (w : W) :
  parse api href = Some u ->
  let channel :=
    EndToEnd.direct_channel api W chrome
      (mkSender (Some (mkTab id (Some href)))) in
  let cookie := run channel (CookieManager.getCookie href name) (w, []) in
  let device := run channel (CookieManager.getCurrentDevice href) (w, []) in
  snd (after cookie) = [CookiesGet href name]
  /\ value cookie
     = Ok match fst (chrome (CookiesGet href name) w) with
          | Ok c => value_or_null c
          | Throw _ => None
          end
  /\ snd (after device) = [CookiesGetAll href]
  /\ value device
     = Ok match fst (chrome (CookiesGetAll href) w) with
          | Ok cs => device_of cs
          | Throw _ => None
          end.
Proof.
  intros P channel cookie device. subst cookie device channel.
  rewrite (run_getCurrentDevice_any
             (EndToEnd.direct_channel api W chrome
                (mkSender (Some (mkTab id (Some href)))))
             href (w, [])).
  rewrite (run_getCookie_any
             (EndToEnd.direct_channel api W chrome
                (mkSender (Some (mkTab id (Some href)))))
             href name (w, [])).
  unfold get_all_message, get_message, EndToEnd.direct_channel.
  cbn [fst snd app].
  destruct (onMessage_cases api W chrome
              (mkRequest GET_COOKIE href name [])
              (mkSender (Some (mkTab id (Some href)))))
    as [(NV & _)|(_ & E1)];
    [exfalso; apply NV; now apply own_tab_validated with (u := u)|].
  destruct (onMessage_cases api W chrome
              (mkRequest GET_ALL_COOKIES href [] [])
              (mkSender (Some (mkTab id (Some href)))))
    as [(NV & _)|(_ & E2)];
    [exfalso; apply NV; now apply own_tab_validated with (u := u)|].
  rewrite E1, E2.
  rewrite (run_dispatch_get api W chrome
             (mkRequest GET_COOKIE href name []) w eq_refl).
  rewrite (run_dispatch_get_all api W chrome
             (mkRequest GET_ALL_COOKIES href [] []) w eq_refl).
  cbn [req_url req_name].
  destruct (chrome (CookiesGet href name) w) as [[c|m] w1];
    destruct (chrome (CookiesGetAll href) w) as [[cs|m'] w2];
    unfold value, after, calls; cbn [fst snd respond];
    repeat split.
Qed.

End PageFacts.

Section PageWitnesses.
Import Async Protocol Background PageShapes.

Lemma foreign_frame_is_refused_witness :
  value (run (EndToEnd.direct_channel demo_api Browser browser_host
                (from_href (lit "https://news.example/")))
             (CookieManager.setDeviceType (lit "https://ads.example/frame")
                                          (lit "mobile"))
             (mkBrowser [] [] 0 [], []))
  = Throw (lit "Origin mismatch").
Proof.
  refine (proj1 (foreign_frame_is_refused demo_api Browser browser_host 1
                   (lit "https://news.example/")
                   (lit "https://ads.example/frame")
                   (mkURL (lit "https://news.example") (lit "news.example")
                          (lit "https:"))
                   (mkURL (lit "https://ads.example") (lit "ads.example")
                          (lit "https:"))
                   (lit "mobile") [] (mkBrowser [] [] 0 [])
                   eq_refl eq_refl _ _)).
  - vm_compute. discriminate.
  - simpl. tauto.
Defined.

Lemma reads_end_to_end_witness :
  value (run (EndToEnd.direct_channel demo_api Browser browser_host
                (from_href (lit "https://a.example/p")))
             (CookieManager.getCurrentDevice (lit "https://a.example/p"))
             (mkBrowser [CookieManager.plain_cookie (lit "devicetype")
                                                    (lit "app")]
                        [] 0 [], []))
  = Ok (Some (lit "app")).
Proof.
  destruct (reads_end_to_end demo_api Browser browser_host 1
              (lit "https://a.example/p")
              (mkURL (lit "https://a.example") (lit "a.example")
                     (lit "https:"))
              []
              (mkBrowser [CookieManager.plain_cookie (lit "devicetype")
                                                     (lit "app")]
                         [] 0 [])
              eq_refl) as (_ & _ & _ & H).
  exact H.
Defined.

End PageWitnesses.

(** ** Both device cookies, end to end *)

Section DeviceWrites.
Import Async Protocol Background ProxyShapes.
Variable api : URLApi.
Variable W : Type.
Variable chrome : forall c : Call, W -> answer c * W.

(** What the proxy makes of a validated [SET_COOKIE] request: the
    removal, the write, and the answer of the browser to the write. *)
Lemma run_onMessage_set request sender u w :
  validated api request sender ->
  req_type request = SET_COOKIE ->
  parse api (req_url request) = Some u ->
  let set :=
    chrome (CookiesSet (details request u))
      (snd (chrome (CookiesRemove (req_url request) (req_name request)) w)) in
  let x := run chrome (onMessage api request sender) w in
  filter is_cookie_call (calls x)
  = [CookiesRemove (req_url request) (req_name request);
     CookiesSet (details request u)]
  /\ (forall k, fst set = Ok k -> value x = mkResponse true None None k None)
  /\ (forall m, fst set = Throw m -> value x = failure m /\ after x = snd set).
Proof.
  intros V T P set x. subst set x.
  destruct (onMessage_cases api W chrome request sender) as [[N _]|[_ E]];
    [contradiction|].
  rewrite E, (run_dispatch_set api W chrome request u w T P).
  destruct (chrome (CookiesRemove (req_url request) (req_name request)) w)
    as [x w1]. cbn [snd].
  destruct (chrome (CookiesSet (details request u)) w1) as [[k|m] w2].
  - pose proof (notify_no_cookie_call api W chrome (req_url request) w2) as F.
    destruct (run chrome (notifyTabsOfChange api (req_url request)) w2)
      as [[r w3] t].
    unfold calls, value, after in *. cbn [fst snd respond] in *.
    cbn [filter is_cookie_call]. rewrite F.
    split; [reflexivity|]. split.
    + intros k' H. now injection H as <-.
    + intros m H. discriminate.
  - unfold calls, value, after. cbn [fst snd respond].
    split; [reflexivity|]. split.
    + intros k H. discriminate.
    + intros m' H. injection H as <-. now split.
Qed.

(** C8.  On [desktop], [mobile] or [app], [setDeviceType] writes the
    [deviceoutput] cookie and then the [devicetype] cookie, both with
    the given value and for the page it is called on: through the
    proxy each write is a [chrome.cookies.remove] followed by a
    [chrome.cookies.set] with the URL and the host of the page, and the
    call returns [true] exactly when the browser has accepted both
    [chrome.cookies.set].  A write that fails is the error of the
    call: the first, after which the second cookie is not touched, and
    the second after the first has succeeded, when the first cookie is
    written and the caller is told.  The same holds of any failure of
    the channel itself: whatever the two deliveries are, the result is
    [true] only when both are answered with success, and otherwise the
    error of the delivery that failed. *)
Theorem setDeviceType_writes_both (t : jsstring) :
  In t CookieManager.DEVICE_TYPES ->
  (forall (id : nat) (href : jsstring) (u : URL) (w : W),
      parse api href = Some u ->
      let sender := mkSender (Some (mkTab id (Some href))) in
      let out := mkRequest SET_COOKIE href (lit "deviceoutput") t in
      let typ := mkRequest SET_COOKIE href (lit "devicetype") t in
      let first := run chrome (onMessage api out sender) w in
      let second := run chrome (onMessage api typ sender) (after first) in
      let set1 :=
        chrome (CookiesSet (details out u))
          (snd (chrome (CookiesRemove href (lit "deviceoutput")) w)) in
      let set2 :=
        chrome (CookiesSet (details typ u))
          (snd (chrome (CookiesRemove href (lit "devicetype"))
                       (after first))) in
      let r := run (EndToEnd.direct_channel api W chrome sender)
                   (CookieManager.setDeviceType href t) (w, []) in
      filter is_cookie_call (calls first)
      = [CookiesRemove href (lit "deviceoutput"); CookiesSet (details out u)]
      /\ filter is_cookie_call (calls second)
         = [CookiesRemove href (lit "devicetype"); CookiesSet (details typ u)]
      /\ set_value (details out u) = t
      /\ set_value (details typ u) = t
      /\ set_domain (details out u) = hostname u
      /\ set_domain (details typ u) = hostname u
      /\ (value r = Ok true
          <-> (exists k, fst set1 = Ok k) /\ (exists k, fst set2 = Ok k))
      /\ (value r = Ok true ->
          after r = (after second, calls first ++ calls second)
          /\ EndToEnd.cookie_calls W (after r)
             = [CookiesRemove href (lit "deviceoutput");
                CookiesSet (details out u);
                CookiesRemove href (lit "devicetype");
                CookiesSet (details typ u)])
      /\ (forall m, fst set1 = Throw m ->
            (exists e, value r = Throw e)
            /\ (m <> [] -> value r = Throw m)
            /\ after r = (snd set1, calls first)
            /\ EndToEnd.cookie_calls W (after r)
               = [CookiesRemove href (lit "deviceoutput");
                  CookiesSet (details out u)])
      /\ (forall k m, fst set1 = Ok k -> fst set2 = Throw m ->
            (exists e, value r = Throw e)
            /\ (m <> [] -> value r = Throw m)
            /\ after r = (snd set2, calls first ++ calls second)
            /\ EndToEnd.cookie_calls W (after r)
               = [CookiesRemove href (lit "deviceoutput");
                  CookiesSet (details out u);
                  CookiesRemove href (lit "devicetype");
                  CookiesSet (details typ u)]))
  /\ (forall (url : jsstring) (d1 d2 : CookieManager.Delivery)
             (rest : list CookieManager.Delivery),
        let r := run CookieManager.scripted_channel
                     (CookieManager.setDeviceType url t) (d1 :: d2 :: rest) in
        let first := CookieManager.set_message url (lit "deviceoutput") t in
        let second := CookieManager.set_message url (lit "devicetype") t in
        (CookieManager.delivered d1 -> CookieManager.delivered d2 ->
         value r = Ok true /\ calls r = [first; second])
        /\ (CookieManager.delivery_failed d1 ->
            exists e,
              value (run CookieManager.scripted_channel
                       (CookieManager.sendMessageToBackground
                          (mkRequest SET_COOKIE url (lit "deviceoutput") t)
                          CookieManager.MESSAGE_TIMEOUT_MS) [d1]) = Throw e
              /\ value r = Throw e /\ calls r = [first])
        /\ (CookieManager.delivered d1 -> CookieManager.delivery_failed d2 ->
            exists e,
              value (run CookieManager.scripted_channel
                       (CookieManager.sendMessageToBackground
                          (mkRequest SET_COOKIE url (lit "devicetype") t)
                          CookieManager.MESSAGE_TIMEOUT_MS) [d2]) = Throw e
              /\ value r = Throw e /\ calls r = [first; second])
        /\ (value r = Ok true
            <-> CookieManager.delivered d1 /\ CookieManager.delivered d2)).
Proof.
  intros K. split.
  2:{ intros url d1 d2 rest.
      exact (setDeviceType_page_side url t d1 d2 rest K). }
  intros id href u w P sender out typ first second set1 set2 r.
  assert (V : forall name,
             validated api (mkRequest SET_COOKIE href name t) sender).
  { intros name. exists (mkTab id (Some href)), href, u, u.
    repeat split; assumption. }
  destruct (run_onMessage_set out sender u w (V _) eq_refl P)
    as (C1 & S1 & F1).
  destruct (run_onMessage_set typ sender u (after first) (V _) eq_refl P)
    as (C2 & S2 & F2).
  fold first in C1, S1, F1. fold second in C2, S2, F2.
  change (req_url out) with href in *. change (req_url typ) with href in *.
  change (req_name out) with (lit "deviceoutput") in *.
  change (req_name typ) with (lit "devicetype") in *.
  fold set1 in S1, F1. fold set2 in S2, F2.
  assert (R : r = let (d1, x1) :=
                    EndToEnd.direct_channel api W chrome sender
                      (CookieManager.set_message href (lit "deviceoutput") t)
                      (w, []) in
                  match CookieManager.settle out
                          CookieManager.MESSAGE_TIMEOUT_MS d1 with
                  | Throw e =>
                      (Throw e, x1,
                       [CookieManager.set_message href (lit "deviceoutput") t])
                  | Ok _ =>
                      let (d2, x2) :=
                        EndToEnd.direct_channel api W chrome sender
                          (CookieManager.set_message href (lit "devicetype") t)
                          x1 in
                      match CookieManager.settle typ
                              CookieManager.MESSAGE_TIMEOUT_MS d2 with
                      | Throw e =>
                          (Throw e, x2,
                           [CookieManager.set_message href (lit "deviceoutput") t;
                            CookieManager.set_message href (lit "devicetype") t])
                      | Ok _ =>
                          (Ok true, x2,
                           [CookieManager.set_message href (lit "deviceoutput") t;
                            CookieManager.set_message href (lit "devicetype") t])
                      end
                  end).
  { subst r.
    exact (run_setDeviceType_any
             (EndToEnd.direct_channel api W chrome sender) href t (w, []) K). }
  unfold CookieManager.set_message, EndToEnd.direct_channel in R.
  cbn [fst snd app] in R.
  change (mkRequest SET_COOKIE href (lit "deviceoutput") t) with out in R.
  change (mkRequest SET_COOKIE href (lit "devicetype") t) with typ in R.
  fold first in R. fold second in R.
  split; [exact C1|]. split; [exact C2|].
  do 4 (split; [reflexivity|]).
  clearbody r first second. subst r.
  unfold EndToEnd.cookie_calls.
  destruct (fst set1) as [k1|m1] eqn:E1.
  - rewrite (S1 k1 eq_refl). cbn [CookieManager.settle success].
    destruct (fst set2) as [k2|m2] eqn:E2.
    + rewrite (S2 k2 eq_refl). cbn [CookieManager.settle success].
      unfold value, after. cbn [fst snd]. rewrite filter_app, C1, C2.
      split; [split; [intros _; split; eauto|reflexivity]|].
      split; [intros _; now split|].
      split; [intros m H; discriminate|].
      intros k m _ H. discriminate.
    + destruct (F2 m2 eq_refl) as [Y A]. rewrite Y.
      unfold value, after in *. cbn [fst snd] in *.
      cbn [CookieManager.settle success failure error fst snd].
      rewrite filter_app, C1, C2.
      split; [split; [discriminate|intros [_ [k H]]; discriminate]|].
      split; [discriminate|].
      split; [intros m H; discriminate|].
      intros k m _ H. injection H as <-.
      split; [eexists; reflexivity|].
      split; [|split; [now rewrite <- A|reflexivity]].
      intros Hm. destruct m2 as [|c m2]; [contradiction|reflexivity].
  - destruct (F1 m1 eq_refl) as [Y A]. rewrite Y.
    unfold value, after in *. cbn [fst snd] in *.
    cbn [CookieManager.settle success failure error fst snd]. rewrite C1.
    split; [split; [discriminate|intros [[k H] _]; discriminate]|].
    split; [discriminate|].
    split; [|intros k m H; discriminate].
    intros m H. injection H as <-.
    split; [eexists; reflexivity|].
    split; [|split; [now rewrite <- A|reflexivity]].
    intros Hm. destruct m1 as [|c m1]; [contradiction|reflexivity].
Qed.

End DeviceWrites.

Section DeviceWritesWitness.
Import Async Protocol Background ProxyShapes.

Lemma setDeviceType_writes_both_witness :
  In (lit "mobile") CookieManager.DEVICE_TYPES
  /\ parse demo_api (lit "https://shop.example.com/cart")
     = Some (mkURL (lit "https://shop.example.com") (lit "shop.example.com")
                   (lit "https:"))
  /\ (let page := lit "https://shop.example.com/cart" in
      let set :=
        run (EndToEnd.direct_channel demo_api Browser browser_host
               (mkSender (Some (mkTab 1 (Some page)))))
            (CookieManager.setDeviceType page (lit "mobile"))
            (mkBrowser [] [mkTab 1 (Some page)] 0 [], []) in
      value set = Ok true
      /\ EndToEnd.cookie_calls Browser (after set)
         = EndToEnd.writes page
             (mkURL (lit "https://shop.example.com") (lit "shop.example.com")
                    (lit "https:"))
             (lit "deviceoutput") (lit "mobile")
           ++ EndToEnd.writes page
                (mkURL (lit "https://shop.example.com")
                       (lit "shop.example.com") (lit "https:"))
                (lit "devicetype") (lit "mobile")
      /\ map (fun c => (cookie_name c, cookie_value c))
             (jar (fst (after set)))
         = [(lit "devicetype", lit "mobile");
            (lit "deviceoutput", lit "mobile")]).
Proof.
  assert (K : In (lit "mobile") CookieManager.DEVICE_TYPES) by (simpl; tauto).
  split; [exact K|]. split; [reflexivity|].
  destruct (setDeviceType_writes_both demo_api Browser browser_host
              (lit "mobile") K) as [H _].
  destruct (H 1 (lit "https://shop.example.com/cart")
              (mkURL (lit "https://shop.example.com") (lit "shop.example.com")
                     (lit "https:"))
              (mkBrowser [] [mkTab 1 (Some (lit "https://shop.example.com/cart"))]
                         0 [])
              eq_refl) as (_ & _ & _ & _ & _ & _ & V & A & _).
  assert (T : value
                (run (EndToEnd.direct_channel demo_api Browser browser_host
                        (mkSender (Some (mkTab 1 (Some (lit "https://shop.example.com/cart"))))))
                     (CookieManager.setDeviceType
                        (lit "https://shop.example.com/cart") (lit "mobile"))
                     (mkBrowser [] [mkTab 1 (Some (lit "https://shop.example.com/cart"))] 0 [], []))
              = Ok true).
  { apply V. split; eexists; vm_compute; reflexivity. }
  split; [exact T|]. split.
  - destruct (A T) as [_ C]. rewrite C. reflexivity.
  - vm_compute. reflexivity.
Defined.

End DeviceWritesWitness.


(** ** The handlers of the card *)

Section RunFacts.
Import Async.
Context {C : Type} {ans : C -> Type} {X : Type}.
Variable host : forall c : C, X -> ans c * X.

Lemma run_bind_any {A B : Type} (p : Proc C ans A) (f : A -> Proc C ans B)
  (x : X) :
  run host (bind p f) x
  = let '(a, x1, t1) := run host p x in
    let '(b, x2, t2) := run host (f a) x1 in
    (b, x2, t1 ++ t2).
Proof.
  revert x. induction p as [a|c k IH]; intros x; simpl.
  - now destruct (run host (f a) x) as [[b x2] t2].
  - destruct (host c x) as [y x1]. rewrite IH.
    destruct (run host (k y) x1) as [[a x2] t1].
    now destruct (run host (f a) x2) as [[b x3] t2].
Qed.

End RunFacts.

Section ContentFacts.
Import Async Protocol Domain StorageManager CookieManager Content.

Lemma run_from_storage {R : Type} (p : SProc R) (pg : Page) :
  run page_host (from_storage p) pg
  = let '(r, s, t) := run storage_host p (storage pg) in
    (r, mkPage s (deliveries pg) (input pg), map St t).
Proof.
  revert pg. induction p as [r|c k IH]; intros pg.
  - destruct pg; reflexivity.
  - cbn [from_storage run page_host].
    destruct (storage_host c (storage pg)) as [a s].
    rewrite IH. cbn [storage deliveries input].
    now destruct (run storage_host (k a) s) as [[r s'] t].
Qed.

Lemma run_from_channel {R : Type} (p : CProc R) (pg : Page) :
  run page_host (from_channel p) pg
  = let '(r, ds, t) := run scripted_channel p (deliveries pg) in
    (r, mkPage (storage pg) ds (input pg), map Ch t).
Proof.
  revert pg. induction p as [r|c k IH]; intros pg.
  - destruct pg; reflexivity.
  - cbn [from_channel run page_host].
    destruct (scripted_channel c (deliveries pg)) as [a ds].
    rewrite IH. cbn [storage deliveries input].
    now destruct (run scripted_channel (k a) ds) as [[r ds'] t].
Qed.

Lemma ui_calls_app a b : ui_calls (a ++ b) = ui_calls a ++ ui_calls b.
Proof.
  induction a as [|[c|c|c] a IH]; cbn [app ui_calls]; [reflexivity|..];
    now rewrite IH.
Qed.


Lemma ui_calls_St t : ui_calls (map St t) = [].
Proof. induction t; cbn [map ui_calls]; auto. Qed.

Lemma channel_calls_app a b :
  channel_calls (a ++ b) = channel_calls a ++ channel_calls b.
Proof.
  induction a as [|[c|c|c] a IH]; cbn [app channel_calls]; [reflexivity|..];
    now rewrite IH.
Qed.

Lemma channel_calls_Ch t : channel_calls (map Ch t) = t.
Proof. induction t; cbn [map channel_calls]; congruence. Qed.

Lemma channel_calls_St t : channel_calls (map St t) = [].
Proof. induction t; cbn [map channel_calls]; auto. Qed.










Lemma PageShapes_run_getCurrentDevice url ds :
  run scripted_channel (getCurrentDevice url) ds
  = let (d, ds1) := scripted_channel (PageShapes.get_all_message url) ds in
    (Ok match settle (mkRequest GET_ALL_COOKIES url [] [])
                MESSAGE_TIMEOUT_MS d with
        | Ok response =>
            match cookies response with
            | Some cs => PageShapes.device_of cs
            | None => None
            end
        | Throw _ => None
        end, ds1, [PageShapes.get_all_message url]).
Proof. apply run_getCurrentDevice_any. Qed.



Lemma loadWhitelist_no_message pg :
  channel_calls (calls (run page_host loadWhitelist pg)) = []
  /\ deliveries (after (run page_host loadWhitelist pg)) = deliveries pg.
Proof.
  destruct pg as [[e [|[m|] fs]] ds inp]; split; reflexivity.
Qed.

(** X21.  [setupWhitelistManagement] never fails and sends nothing to
    the proxy.  It issues the read of the whitelist, wires the
    controls, and only then displays the list that was read; when the
    read fails nothing is displayed and the controls are wired all the
    same. *)
Theorem setupWhitelistManagement_order (pg : Page) :
  let r := run page_host setupWhitelistManagement pg in
  let read := run storage_host getWhitelist (storage pg) in
  value r = Ok tt
  /\ storage_calls (calls r) = [StorageGet]
  /\ channel_calls (calls r) = []
  /\ (forall l, value read = Ok l ->
        calls r = [St StorageGet; Ui WireWhitelistControls;
                   Ui (UpdateWhitelistDisplay l)])
  /\ (forall m, value read = Throw m ->
        calls r = [St StorageGet; Ui WireWhitelistControls])
  /\ storage (after r) = after read.
Proof.
  destruct pg as [[e [|[m|] fs]] ds inp]; cbv zeta;
    (split; [reflexivity|]); (split; [reflexivity|]);
    (split; [reflexivity|]); (split; [|split; [|reflexivity]]);
    intros x H; try discriminate; unfold value in H; cbn in H;
    injection H as <-; reflexivity.
Qed.

Lemma setupWhitelistManagement_no_message pg :
  channel_calls (snd (run page_host setupWhitelistManagement pg)) = [].
Proof. destruct pg as [[e [|[m|] fs]] ds inp]; reflexivity. Qed.

(** X22.  [initializeCard] asks the storage first.  On a page that is
    not whitelisted it stops there: no message goes to the proxy and
    nothing is done to the page.  When the check fails, with the
    storage or on a hostname that is no domain, the call fails with
    that error, again before anything else.  On a whitelisted page it
    sends the one request for the cookies and shows the card. *)
Theorem initializeCard_gate (hostname url : jsstring) (pg : Page) :
  let r := run page_host (initializeCard hostname url) pg in
  let check :=
    run storage_host (isCurrentDomainWhitelisted hostname) (storage pg) in
  (value check = Ok false ->
   value r = Ok tt /\ calls r = map St (calls check))
  /\ (forall m, value check = Throw m ->
        value r = Throw m /\ calls r = map St (calls check))
  /\ (value check = Ok true ->
      channel_calls (calls r) = [PageShapes.get_all_message url]
      /\ exists rest, ui_calls (calls r) = ShowCard :: rest).
Proof.
  intros r check. subst r check.
  unfold initializeCard, await. rewrite run_bind_any, run_from_storage.
  destruct (run storage_host (isCurrentDomainWhitelisted hostname) (storage pg))
    as [[[[|]|m] s1] t1]; unfold value, calls; cbn [fst snd].
  - (* whitelisted *)
    split; [discriminate|]. split; [discriminate|]. intros _.
    cbn [negb]. rewrite run_bind_any, run_from_channel.
    cbn [deliveries storage input].
    rewrite (PageShapes_run_getCurrentDevice url (deliveries pg)).
    destruct (scripted_channel (PageShapes.get_all_message url) (deliveries pg))
      as [d ds]. cbn [map].
    set (dev := match settle _ _ d with Ok _ => _ | Throw _ => _ end).
    set (pg1 := mkPage s1 ds (input pg)).
    assert (K : forall X : PProc (Result unit),
               channel_calls (snd (run page_host X pg1)) = [] ->
               channel_calls
                 (snd (run page_host
                         (ui ShowCard
                            match dev with
                            | Some (c :: t) =>
                                ui (UpdateActiveDevice (c :: t))
                                   (ui AttachButtonHandler X)
                            | _ => ui AttachButtonHandler X
                            end) pg1)) = []
               /\ exists rest,
                    ui_calls
                      (snd (run page_host
                              (ui ShowCard
                                 match dev with
                                 | Some (c :: t) =>
                                     ui (UpdateActiveDevice (c :: t))
                                        (ui AttachButtonHandler X)
                                 | _ => ui AttachButtonHandler X
                                 end) pg1)) = ShowCard :: rest).
    { intros X HX. destruct dev as [[|c t]|]; cbn [ui run page_host];
        destruct (run page_host X pg1) as [[v p] t']; cbn [snd] in *;
        cbn [channel_calls ui_calls]; (split; [exact HX|now eexists]). }
    specialize (K setupWhitelistManagement).
    destruct K as [K1 (rest & K2)].
    { pose proof (setupWhitelistManagement_no_message pg1) as L.
      exact L. }
    destruct (run page_host _ pg1) as [[v p] t'] eqn:E. cbn [snd] in *.
    rewrite !channel_calls_app, !ui_calls_app, channel_calls_St, ui_calls_St.
    cbn [map channel_calls ui_calls app]. rewrite K1, K2.
    split; [reflexivity|]. now exists rest.
  - cbn [negb run fst snd]. rewrite app_nil_r.
    split; [now intros _|]. split; discriminate.
  - cbn [run fst snd]. rewrite app_nil_r.
    split; [discriminate|]. split; [|discriminate].
    intros m' E. now injection E as <-.
Qed.





End ContentFacts.

Section StuckEntries.
Import Async Domain StorageManager.

(** X24.  An entry of the whitelist that begins with [www.] is not
    removed by its own name: [removeDomainFromWhitelist] normalises
    the name, which strips the [www.], and filters out another
    domain.  Such an entry is stored when a domain with two leading
    [www.] is added. *)
Theorem www_entry_survives_removal (w : Storage) (e : jsstring) :
  In e (whitelist_of w) ->
  startsWith e (lit "www.") = true ->
  In e (whitelist_of
          (after (run storage_host (removeDomainFromWhitelist e) w))).
Proof.
  intros I S. rewrite run_removeDomainFromWhitelist.
  destruct (faults w) as [|[m|] fs]; [|exact I|];
    (destruct (normalizeDomain e) as [nd|msg] eqn:N; [|exact I]); cbv zeta.
  - unfold after, whitelist_of at 1. cbn [fst snd entry].
    apply filter_In. split; [exact I|]. apply negb_true_iff, eqs_false.
    intros <-. destruct (fixed_point_facts e N) as (_ & _ & _ & P).
    unfold startsWith in S. rewrite P in S. discriminate.
  - assert (K : In e (filter (fun x => negb (eqs x nd)) (whitelist_of w))).
    { apply filter_In. split; [exact I|]. apply negb_true_iff, eqs_false.
      intros <-. destruct (fixed_point_facts e N) as (_ & _ & _ & P).
      unfold startsWith in S. rewrite P in S. discriminate. }
    destruct fs as [|[m|] fs]; [exact K|exact I|exact K].
Qed.

Lemma www_entry_survives_removal_witness :
  whitelist_of (perform (Add (lit "www.www.example.com")) (mkStorage None []))
  = [lit "www.example.com"]
  /\ In (lit "www.example.com")
        (whitelist_of
           (after (run storage_host
                     (removeDomainFromWhitelist (lit "www.example.com"))
                     (perform (Add (lit "www.www.example.com"))
                              (mkStorage None []))))).
Proof.
  split; [vm_compute; reflexivity|].
  apply www_entry_survives_removal.
  - vm_compute. left. reflexivity.
  - vm_compute. reflexivity.
Defined.

End StuckEntries.
